(** * A log-structured key-value store and a least-traffic load balancer

    Shallow embedding of the Go packages [datastore] (entry.go, db.go) and
    [cmd/lb] (balancer.go), with the properties of the specification stated
    and proved over the embedding.

    Conventions of the embedding.
    - A Go [string] is a [string]; a [[]byte] is a [list byte];
      [[]byte(s)] is [list_byte_of_string] and [string(b)] is
      [string_of_list_byte].
    - [uint32] values are integers reduced modulo [2^32] where the source
      converts or adds in [uint32]; [int] and [int64] values (lengths, file
      offsets, traffic counters) are integers.
    - The directory of the store is a finite map from entry names to file
      contents; a [*os.File] opened for append is the name of its entry.
    - Creating a file, appending to it and removing it always succeed;
      the errors of the embedding are those the code meets on the content
      of the directory (a missing file, a short read).
    - Functions that can fail return a [result]: a value, one of the error
      values of the program, or a run-time panic.
    - Operations run one at a time: [Put] is the operation the mutation
      routine runs for it, and the locks are not modelled. *)

From Stdlib Require Import ZArith List Lia Ascii String.
From Stdlib.Strings Require Byte.
From stdpp Require Import base option list gmap strings pretty sorting.

Import ListNotations.
Local Open Scope Z_scope.

Abbreviation byte := Byte.byte.

(** ** Results and errors *)

Inductive error : Type :=
| ErrNotFound        (* datastore.ErrNotFound *)
| ErrHashMismatch    (* datastore.ErrHashMismatch *)
| EOF                (* io.EOF *)
| ErrUnexpectedEOF   (* io.ErrUnexpectedEOF *)
| ErrNotExist        (* fs.PathError from os.Open on a missing file *)
| ErrInvalid.        (* os.ErrInvalid / EINVAL: nil file, negative seek *)

Inductive result (A : Type) : Type :=
| Ok (a : A)
| Err (e : error)
| Panic.

Arguments Ok {A} a.
Arguments Err {A} e.
Arguments Panic {A}.

(** Sequencing: an error or a panic ends the computation. *)
Global Instance result_bind : MBind result := fun A B k r =>
  match r with
  | Ok a => k a
  | Err e => Err e
  | Panic => Panic
  end.

Global Instance result_ret : MRet result := fun A a => Ok a.

(** A panicking slice or index expression: [None] becomes [Panic]. *)
Definition orPanic {A} (o : option A) : result A :=
  match o with
  | Some a => Ok a
  | None => Panic
  end.

(** ** Bytes, slices and little-endian words *)

Module Bytes.

Definition toZ (b : byte) : Z := Z.of_N (Byte.to_N b).

(** [byte(v)]: the low eight bits. *)
Definition ofZ (v : Z) : byte :=
  match Byte.of_N (Z.to_N (v mod 256)) with
  | Some b => b
  | None => Byte.x00
  end.

Definition zeros (n : nat) : list byte := repeat Byte.x00 n.

(** [s[lo:hi]] on a slice whose capacity is its length. *)
Definition slice (lo hi : Z) (s : list byte) : option (list byte) :=
  if decide (0 <= lo /\ lo <= hi /\ hi <= Z.of_nat (length s))
  then Some (firstn (Z.to_nat (hi - lo)) (skipn (Z.to_nat lo) s))
  else None.

(** [s[lo:]]. *)
Definition sliceFrom (lo : Z) (s : list byte) : option (list byte) :=
  slice lo (Z.of_nat (length s)) s.

(** [copy(dst[off:], src)]: overwrites [dst] from [off] with as much of
    [src] as fits; the result is the new [dst]. *)
Definition copyAt (off : nat) (src dst : list byte) : list byte :=
  firstn off dst
    ++ firstn (length dst - off) src
    ++ skipn (off + length src) dst.

Definition uint32 (v : Z) : Z := v mod 2 ^ 32.

(** [binary.LittleEndian.PutUint32] as the four bytes it stores. *)
Definition le32 (v : Z) : list byte :=
  [ofZ v; ofZ (Z.shiftr v 8); ofZ (Z.shiftr v 16); ofZ (Z.shiftr v 24)].

(** [binary.LittleEndian.PutUint32(dst[off:], v)]. *)
Definition PutUint32 (off : nat) (v : Z) (dst : list byte) : list byte :=
  copyAt off (le32 v) dst.

(** [binary.LittleEndian.Uint32(b)]; panics on fewer than four bytes. *)
Definition Uint32 (b : list byte) : option Z :=
  match b with
  | b0 :: b1 :: b2 :: b3 :: _ =>
      Some (Z.lor (toZ b0)
             (Z.lor (Z.shiftl (toZ b1) 8)
               (Z.lor (Z.shiftl (toZ b2) 16) (Z.shiftl (toZ b3) 24))))
  | _ => None
  end.

End Bytes.

(** ** SHA-1 (crypto/sha1) and its lowercase hexadecimal rendering *)

Module Sha1.

Definition w32 (x : Z) : Z := x mod 2 ^ 32.

Definition rotl (n x : Z) : Z :=
  w32 (Z.lor (Z.shiftl x n) (Z.shiftr x (32 - n))).

(** Big-endian bytes of a word of [n] bytes. *)
Fixpoint be (n : nat) (x : Z) : list byte :=
  match n with
  | O => []
  | S m => Bytes.ofZ (Z.shiftr x (8 * Z.of_nat m)) :: be m x
  end.

Definition beWord (bs : list byte) : Z :=
  fold_left (fun acc b => acc * 256 + Bytes.toZ b) bs 0.

(** Message padding: a one bit, zeros up to 56 modulo 64, the bit length. *)
Definition pad (msg : list byte) : list byte :=
  let len := Z.of_nat (length msg) in
  msg ++ [Byte.x80]
      ++ Bytes.zeros (Z.to_nat ((55 - len) mod 64))
      ++ be 8 ((8 * len) mod 2 ^ 64).

Fixpoint chunks (fuel : nat) (n : nat) (l : list byte) : list (list byte) :=
  match fuel with
  | O => []
  | S fuel' =>
      match l with
      | [] => []
      | _ => firstn n l :: chunks fuel' n (skipn n l)
      end
  end.

Definition blockWords (blk : list byte) : list Z :=
  map beWord (chunks 16 4 blk).

(** The message schedule: 16 block words extended to 80. *)
Fixpoint schedule (n : nat) (w : list Z) : list Z :=
  match n with
  | O => w
  | S m =>
      let i := length w in
      let x := Z.lxor (Z.lxor (nth (i - 3) w 0) (nth (i - 8) w 0))
                      (Z.lxor (nth (i - 14) w 0) (nth (i - 16) w 0)) in
      schedule m (w ++ [rotl 1 x])
  end.

Record state := State { h0 : Z; h1 : Z; h2 : Z; h3 : Z; h4 : Z }.

Definition init : state :=
  State 0x67452301 0xEFCDAB89 0x98BADCFE 0x10325476 0xC3D2E1F0.

Definition f (i : nat) (b c d : Z) : Z :=
  if (i <? 20)%nat then Z.lor (Z.land b c) (Z.land (w32 (Z.lnot b)) d)
  else if (i <? 40)%nat then Z.lxor (Z.lxor b c) d
  else if (i <? 60)%nat
       then Z.lor (Z.lor (Z.land b c) (Z.land b d)) (Z.land c d)
  else Z.lxor (Z.lxor b c) d.

Definition k (i : nat) : Z :=
  if (i <? 20)%nat then 0x5A827999
  else if (i <? 40)%nat then 0x6ED9EBA1
  else if (i <? 60)%nat then 0x8F1BBCDC
  else 0xCA62C1D6.

Definition round (s : state) (iw : nat * Z) : state :=
  let (i, w) := iw in
  let t := w32 (rotl 5 (h0 s) + f i (h1 s) (h2 s) (h3 s) + h4 s + k i + w) in
  State t (h0 s) (rotl 30 (h1 s)) (h2 s) (h3 s).

Definition block (s : state) (blk : list byte) : state :=
  let w := schedule 64 (blockWords blk) in
  let r := fold_left round (combine (seq 0 80) w) s in
  State (w32 (h0 s + h0 r)) (w32 (h1 s + h1 r)) (w32 (h2 s + h2 r))
        (w32 (h3 s + h3 r)) (w32 (h4 s + h4 r)).

(** [h.Sum(nil)] after [h.Write(msg)]: the 20-byte digest. *)
Definition sum (msg : list byte) : list byte :=
  let p := pad msg in
  let s := fold_left block (chunks (length p) 64 p) init in
  be 4 (h0 s) ++ be 4 (h1 s) ++ be 4 (h2 s) ++ be 4 (h3 s) ++ be 4 (h4 s).

Definition hexDigit (n : Z) : ascii :=
  if n <? 10 then ascii_of_N (Z.to_N (48 + n))
  else ascii_of_N (Z.to_N (87 + n)).

(** [fmt.Sprintf("%x", bs)]. *)
Fixpoint hex (bs : list byte) : string :=
  match bs with
  | [] => EmptyString
  | b :: rest =>
      String (hexDigit (Bytes.toZ b / 16))
        (String (hexDigit (Bytes.toZ b mod 16)) (hex rest))
  end.

End Sha1.

(** ** entry.go *)

Record Entry := mkEntry { key : string; value : string; hash : string }.

(** [calculateHash(value)] and [Entry.calculateHash]. *)
Definition calculateHash (v : string) : string :=
  Sha1.hex (Sha1.sum (list_byte_of_string v)).

Definition len (s : string) : Z := Z.of_nat (String.length s).

(** [Entry.Encode]: fills a zeroed buffer of [size] bytes field by field;
    the hash is recomputed from the value. *)
Definition Encode (e : Entry) : list byte :=
  let kl := String.length (key e) in
  let vl := String.length (value e) in
  let h := calculateHash (value e) in
  let hl := String.length h in
  let size := (kl + vl + hl + 12)%nat in
  let res := Bytes.zeros size in
  let res := Bytes.PutUint32 0 (Bytes.uint32 (Z.of_nat size)) res in
  let res := Bytes.PutUint32 4 (Bytes.uint32 (Z.of_nat kl)) res in
  let res := Bytes.copyAt 8 (list_byte_of_string (key e)) res in
  let res := Bytes.PutUint32 (kl + 8) (Bytes.uint32 (Z.of_nat vl)) res in
  let res := Bytes.copyAt (kl + 12) (list_byte_of_string (value e)) res in
  let res := Bytes.copyAt (kl + 12 + vl) (list_byte_of_string h) res in
  res.

Definition getLength (k v : string) : Z := len k + len v + 12.

Definition GetLength (e : Entry) : Z :=
  getLength (key e) (value e) + len (hash e).

(** [Entry.Decode]: every slice expression and [Uint32] call may panic;
    the sums [kl+8], [kl+12], [kl+12+vl] are [uint32] sums. *)
Definition Decode (input : list byte) : result Entry :=
  s4 ← orPanic (Bytes.sliceFrom 4 input);
  kl ← orPanic (Bytes.Uint32 s4);
  ks ← orPanic (Bytes.slice 8 (Bytes.uint32 (kl + 8)) input);
  let keyBuf := Bytes.copyAt 0 ks (Bytes.zeros (Z.to_nat kl)) in
  sv ← orPanic (Bytes.sliceFrom (Bytes.uint32 (kl + 8)) input);
  vl ← orPanic (Bytes.Uint32 sv);
  vs ← orPanic (Bytes.slice (Bytes.uint32 (kl + 12))
                             (Bytes.uint32 (kl + 12 + vl)) input);
  let valBuf := Bytes.copyAt 0 vs (Bytes.zeros (Z.to_nat vl)) in
  let hl := Z.of_nat (length input) - Bytes.uint32 (kl + 12 + vl) in
  if decide (hl < 0) then Panic else
  hs ← orPanic (Bytes.sliceFrom (Bytes.uint32 (kl + 12 + vl)) input);
  let hashBuf := Bytes.copyAt 0 hs (Bytes.zeros (Z.to_nat hl)) in
  Ok (mkEntry (string_of_list_byte keyBuf)
              (string_of_list_byte valBuf)
              (string_of_list_byte hashBuf)).

(** ** bufio.Reader on an in-memory reader *)

Module Bufio.

Inductive error : Type :=
| EOF                (* io.EOF *)
| ErrBufferFull      (* bufio.ErrBufferFull *)
| ErrNegativeCount.  (* bufio.ErrNegativeCount *)

Definition defaultBufSize : nat := 4096.

(** The state of a [bufio.Reader]: [buffered] is [b.buf[b.r:b.w]], the
    bytes in the buffer that were not read yet; [source] is what the
    underlying reader has not returned yet; [bufSize] is [len(b.buf)];
    [err] is [b.err]. The underlying reader holds its input in memory, as a
    [bytes.Reader] does: a [Read] returns as many bytes as the slice takes
    and the input has, and [io.EOF] with no byte when the input is used
    up. *)
Record Reader := mkReader {
  buffered : list byte;
  source : list byte;
  bufSize : nat;
  err : option error
}.

(** [bufio.NewReader(bytes.NewReader(input))]. *)
Definition NewReader (input : list byte) : Reader :=
  mkReader [] input defaultBufSize None.

(** [b.rd.Read(p)] with [len(p) = n], [n] positive: the bytes read, the
    input left and the error. *)
Definition sourceRead (n : nat) (src : list byte)
  : list byte * list byte * option error :=
  match src with
  | [] => ([], [], Some EOF)
  | _ => (firstn n src, skipn n src, None)
  end.

(** [b.fill()]: one [Read] into the free part of the buffer. *)
Definition fill (b : Reader) : Reader :=
  let '(got, src, e) :=
    sourceRead (bufSize b - length (buffered b)) (source b) in
  mkReader (buffered b ++ got) src (bufSize b)
           (match e with Some _ => e | None => err b end).

(** [b.readErr()]: the pending error, which is cleared. *)
Definition clearErr (b : Reader) : Reader :=
  mkReader (buffered b) (source b) (bufSize b) None.

(** The loop of [Peek]: fill while fewer than [n] bytes are buffered, the
    buffer is not full and no error is pending. *)
Fixpoint peekLoop (fuel : nat) (n : nat) (b : Reader) : Reader :=
  match fuel with
  | O => b
  | S fuel' =>
      if decide ((length (buffered b) < n)%nat
                 /\ (length (buffered b) < bufSize b)%nat
                 /\ err b = None)
      then peekLoop fuel' n (fill b)
      else b
  end.

(** [b.Peek(n)]: the bytes, the error and the reader afterwards. Every
    turn of the loop takes a byte from the source or ends the loop, so the
    bound on the turns is never met ([peekLoop_done]). *)
Definition Peek (n : Z) (b : Reader) : list byte * option error * Reader :=
  if decide (n < 0) then ([], Some ErrNegativeCount, b) else
  let b1 := peekLoop (S (S (length (source b)))) (Z.to_nat n) b in
  if decide (bufSize b1 < Z.to_nat n)%nat
  then (buffered b1, Some ErrBufferFull, b1)
  else if decide (length (buffered b1) < Z.to_nat n)%nat
  then (buffered b1, Some (default ErrBufferFull (err b1)), clearErr b1)
  else (firstn (Z.to_nat n) (buffered b1), None, b1).

(** The loop of [Discard] with [remain] bytes to skip; [None] when the
    bound on the turns is met. *)
Fixpoint discardLoop (fuel : nat) (remain : nat) (b : Reader)
  : option (option error * Reader) :=
  match fuel with
  | O => None
  | S fuel' =>
      let b1 := match buffered b with [] => fill b | _ => b end in
      let skip := Nat.min (length (buffered b1)) remain in
      let b2 := mkReader (skipn skip (buffered b1)) (source b1)
                         (bufSize b1) (err b1) in
      if decide (remain - skip = 0)%nat then Some (None, b2)
      else match err b2 with
           | Some e => Some (Some e, clearErr b2)
           | None => discardLoop fuel' (remain - skip) b2
           end
  end.

(** [b.Discard(n)]: the error and the reader afterwards. *)
Definition Discard (n : Z) (b : Reader) : option (option error * Reader) :=
  if decide (n < 0) then Some (Some ErrNegativeCount, b) else
  if decide (n = 0) then Some (None, b) else
  discardLoop (S (length (buffered b) + length (source b))) (Z.to_nat n) b.

(** [b.Read(p)] with [len(p) = n]: the bytes read into [p], the error and
    the reader afterwards. The bytes come from the buffer when it holds
    some; from one [Read] of the source otherwise, into [p] itself when [p]
    is at least as large as the buffer. *)
Definition Read (n : nat) (b : Reader) : list byte * option error * Reader :=
  match n, buffered b with
  | O, [] => ([], err b, clearErr b)
  | O, _ => ([], None, b)
  | _, [] =>
      match err b with
      | Some e => ([], Some e, clearErr b)
      | None =>
          if decide (bufSize b <= n)%nat then
            let '(got, src, e) := sourceRead n (source b) in
            (got, e, mkReader [] src (bufSize b) None)
          else
            let '(got, src, e) := sourceRead (bufSize b) (source b) in
            match got with
            | [] => ([], e, mkReader [] src (bufSize b) None)
            | _ => (firstn n got, None,
                    mkReader (skipn n got) src (bufSize b) e)
            end
      end
  | _, _ => (firstn n (buffered b), None,
             mkReader (skipn n (buffered b)) (source b) (bufSize b) (err b))
  end.

End Bufio.

(** ** entry.go: readValue and readHash *)

(** The errors of [readValue] and [readHash]: an error of the reader, or
    fewer bytes read than expected. *)
Inductive readError : Type :=
| ReaderError (e : Bufio.error)
| ShortValue (n valSize : Z)   (* can't read value bytes *)
| ShortHash (n hashSize : Z).  (* can't read hash bytes *)

Inductive readResult : Type :=
| ReadOk (s : string)
| ReadErr (e : readError)
| ReadPanic.

(** [readValue(in)]: the result and the reader afterwards; [None] stands
    for a loop of the reader that met its bound. *)
Definition readValue (b : Bufio.Reader) : option (readResult * Bufio.Reader) :=
  let '(header, e, b) := Bufio.Peek 8 b in
  match e with Some e => Some (ReadErr (ReaderError e), b) | None =>
  match Bytes.sliceFrom 4 header ≫= Bytes.Uint32 with
  | None => Some (ReadPanic, b)
  | Some keySize =>
  match Bufio.Discard (keySize + 8) b with
  | None => None
  | Some (Some e, b) => Some (ReadErr (ReaderError e), b)
  | Some (None, b) =>
  let '(header, e, b) := Bufio.Peek 4 b in
  match e with Some e => Some (ReadErr (ReaderError e), b) | None =>
  match Bytes.Uint32 header with
  | None => Some (ReadPanic, b)
  | Some valSize =>
  match Bufio.Discard 4 b with
  | None => None
  | Some (Some e, b) => Some (ReadErr (ReaderError e), b)
  | Some (None, b) =>
  let '(data, e, b) := Bufio.Read (Z.to_nat valSize) b in
  match e with Some e => Some (ReadErr (ReaderError e), b) | None =>
  if decide (Z.of_nat (length data) = valSize)
  then Some (ReadOk (string_of_list_byte data), b)
  else Some (ReadErr (ShortValue (Z.of_nat (length data)) valSize), b)
  end end end end end end end.

(** [readHash(in)]. *)
Definition readHash (b : Bufio.Reader) : readResult * Bufio.Reader :=
  let '(hashData, e, b) := Bufio.Read 40 b in
  match e with
  | Some e => (ReadErr (ReaderError e), b)
  | None =>
      if decide (length hashData = 40%nat)
      then (ReadOk (string_of_list_byte hashData), b)
      else (ReadErr (ShortHash (Z.of_nat (length hashData)) 40), b)
  end.

(** ** db.go *)

Definition outFileName : string := "current-data".

Record Segment := mkSegment { index : gmap string Z; filePath : string }.

Record KeyPosition := mkKeyPosition { segment : Segment; position : Z }.

(** The fields of [Db] that carry state. [out] is the file opened for
    append, named by its directory entry; [closed] records that [Close] ran
    (the mutation queue is closed). The directory [db.dir] is fixed, so a
    [filePath] is the entry name inside it. *)
Record Db := mkDb {
  out : option string;
  segmentSize : Z;
  lastSegmentIndex : Z;
  segments : list Segment;
  closed : bool
}.

(** The directory of the store: entry name to file content. *)
Abbreviation Dir := (gmap string (list byte)).

Definition St : Type := Dir * Db.

(** [readNext] on a reader whose unread input is [r]: the outcome and the
    input left unread. [Peek(4)] reports [io.EOF] when fewer than four bytes
    remain; [io.ReadFull] of [size] bytes reports [io.ErrUnexpectedEOF] when
    the input ends early (at least four bytes were there to read), and reads
    nothing when [size] is zero. *)
Definition readNext (r : list byte) : result (list byte) * list byte :=
  if decide (length r < 4)%nat then (Err EOF, r) else
  match Bytes.Uint32 (firstn 4 r) with
  | None => (Panic, r)
  | Some size =>
      if decide (Z.of_nat (length r) < size) then (Err ErrUnexpectedEOF, [])
      else (Ok (firstn (Z.to_nat size) r), skipn (Z.to_nat size) r)
  end.

(** [(s *Segment) getFromSegment(position)]. *)
Definition getFromSegment (fs : Dir) (s : Segment) (position : Z)
  : result Entry :=
  match fs !! filePath s with
  | None => Err ErrNotExist
  | Some content =>
      if decide (position < 0) then Err ErrInvalid else
      data ← (readNext (skipn (Z.to_nat position) content)).1;
      Decode data
  end.

(** The loop of [getPos], newest segment first. *)
Fixpoint getPosFrom (newestFirst : list Segment) (k : string)
  : result KeyPosition :=
  match newestFirst with
  | [] => Err ErrNotFound
  | s :: older =>
      match index s !! k with
      | Some pos => Ok (mkKeyPosition s pos)
      | None => getPosFrom older k
      end
  end.

Definition getPos (db : Db) (k : string) : result KeyPosition :=
  getPosFrom (rev (segments db)) k.

Definition Get (st : St) (k : string) : result string :=
  keyPos ← getPos st.2 k;
  entry ← getFromSegment st.1 (segment keyPos) (position keyPos);
  if decide (calculateHash (value entry) = hash entry)
  then Ok (value entry)
  else Err ErrHashMismatch.

(** [fmt.Sprintf("%s%d", outFileName, db.lastSegmentIndex)]. *)
Definition generateNewFileName (lastSegmentIndex : Z) : string :=
  outFileName +:+ pretty lastSegmentIndex.

(** [os.OpenFile(path, O_WRONLY|O_CREATE|O_APPEND)]: the entry is created
    empty when it is missing and kept as it is otherwise. *)
Definition openAppendCreate (fs : Dir) (path : string) : Dir :=
  match fs !! path with
  | Some _ => fs
  | None => <[path := []]> fs
  end.

Definition createSegment (st : St) : St :=
  let (fs, db) := st in
  let idx := lastSegmentIndex db + 1 in
  let path := generateNewFileName idx in
  (openAppendCreate fs path,
   mkDb (Some path) (segmentSize db) idx
        (segments db ++ [mkSegment ∅ path]) (closed db)).

(** The file behind the append handle, if any. *)
Definition outFile (st : St) : option (list byte) :=
  name ← out st.2; st.1 !! name.

(** [setKey(key, n)], called when the [n] bytes of the record have been
    appended to the file behind [out]: the start offset of the record, the
    size of that file less [n], goes to the index of the last segment. The
    source drops the error of [Seek]; the offset is then zero. With an
    empty roster [getLastSegment] is nil and the assignment panics
    ([None]). *)
Definition setKey (st : St) (k : string) (n : Z) : option St :=
  let currentOffset :=
    match outFile st with
    | Some content => Z.of_nat (length content)
    | None => 0
    end in
  let startPosition := currentOffset - n in
  match rev (segments st.2) with
  | [] => None
  | s :: older =>
      Some (st.1,
            mkDb (out st.2) (segmentSize st.2) (lastSegmentIndex st.2)
                 (rev older
                    ++ [mkSegment (<[k := startPosition]> (index s))
                                  (filePath s)])
                 (closed st.2))
  end.

(** One operation of [startPutRoutine], as [Put] observes it: the size
    check, the rollover, the append and [setKey]. A [Put] after [Close]
    sends on a closed channel and panics. *)
Definition Put (st : St) (k v : string) : St * result unit :=
  if closed st.2 then (st, Panic) else
  let entry := mkEntry k v (calculateHash v) in
  match outFile st with
  | None => (st, Err ErrInvalid)
  | Some content =>
      let currentSize := Z.of_nat (length content) in
      let st1 :=
        if decide (currentSize + GetLength entry > segmentSize st.2)
        then createSegment st else st in
      match out st1.2, outFile st1 with
      | Some name, Some content1 =>
          let data := Encode entry in
          let n := Z.of_nat (length data) in
          let st2 := (<[name := content1 ++ data]> st1.1, st1.2) in
          match setKey st2 k n with
          | None => (st2, Panic)
          | Some st3 => (st3, Ok ())
          end
      | _, _ => (st1, Err ErrInvalid)
      end
  end.

(** The first loop of [Compact] for one segment: a key is recorded only if
    it is not there yet. *)
Definition keepSegment (keys : gmap string KeyPosition) (s : Segment)
  : gmap string KeyPosition :=
  map_fold (fun k pos acc =>
              match acc !! k with
              | Some _ => acc
              | None => <[k := mkKeyPosition s pos]> acc
              end) keys (index s).

Definition keysToKeep (segmentsToCompact : list Segment)
  : gmap string KeyPosition :=
  fold_left keepSegment (rev segmentsToCompact) ∅.

(** The state of the second loop of [Compact]: the directory, the index of
    the new segment and the running offset. *)
Definition CompactAcc : Type := Dir * gmap string Z * Z.

(** One iteration of the second loop: a failed read skips the key, a panic
    ends the program. *)
Definition compactStep (newFilePath : string) (acc : result CompactAcc)
  (kp : string * KeyPosition) : result CompactAcc :=
  a ← acc;
  let '(fs, idx, offset) := a in
  match getFromSegment fs (segment kp.2) (position kp.2) with
  | Panic => Panic
  | Err _ => Ok a
  | Ok entry =>
      let encoded := Encode (mkEntry kp.1 (value entry) (hash entry)) in
      match fs !! newFilePath with
      | None => Ok a
      | Some content =>
          Ok (<[newFilePath := content ++ encoded]> fs,
              <[kp.1 := offset]> idx,
              offset + Z.of_nat (length encoded))
      end
  end.

(** [Compact]. Go ranges over [keysToKeep] in an unspecified order:
    [order] is the order of that iteration. *)
Definition CompactWith
  (order : list (string * KeyPosition) -> list (string * KeyPosition))
  (st : St) : St * result unit :=
  let (fs, db) := st in
  if decide (length (segments db) < 2)%nat then (st, Ok ()) else
  let segmentsToCompact := firstn (length (segments db) - 1) (segments db) in
  match rev (segments db) with
  | [] => (st, Panic)
  | activeSegment :: _ =>
      let idx := lastSegmentIndex db + 1 in
      let newFilePath := generateNewFileName idx in
      let fs1 := openAppendCreate fs newFilePath in
      let keep := keysToKeep segmentsToCompact in
      match fold_left (compactStep newFilePath) (order (map_to_list keep))
                      (Ok (fs1, ∅, 0)) with
      | Ok (fs2, newIndex, _) =>
          let newSegment := mkSegment newIndex newFilePath in
          let fs3 := fold_left (fun d s => delete (filePath s) d)
                               segmentsToCompact fs2 in
          ((fs3, mkDb (out db) (segmentSize db) idx
                      [newSegment; activeSegment] (closed db)), Ok ())
      | Err e => (st, Err e)
      | Panic => (st, Panic)
      end
  end.

Definition Compact : St -> St * result unit := CompactWith id.

(** The loop of [recoverSegment]: [fuel] bounds the number of iterations,
    [None] means the bound was reached. *)
Fixpoint recoverLoop (fuel : nat) (r : list byte) (offset : Z)
  (idx : gmap string Z) : option (result (gmap string Z)) :=
  match fuel with
  | O => None
  | S fuel' =>
      match readNext r with
      | (Err EOF, _) => Some (Ok idx)
      | (Err e, _) => Some (Err e)
      | (Panic, _) => Some Panic
      | (Ok data, r') =>
          match Decode data with
          | Ok e =>
              recoverLoop fuel' r' (offset + Z.of_nat (length data))
                          (<[key e := offset]> idx)
          | Err e => Some (Err e)
          | Panic => Some Panic
          end
      end
  end.

(** [recoverSegment]: the index rebuilt from the file, or the error. One
    more iteration than the file has bytes is always enough
    ([recoverSegment_total]). *)
Definition recoverSegment (fs : Dir) (path : string)
  : option (result (gmap string Z)) :=
  match fs !! path with
  | None => Some (Err ErrNotExist)
  | Some content => recoverLoop (S (length content)) content 0 ∅
  end.

(** [strings.TrimPrefix]. *)
Definition TrimPrefix (s pre : string) : string :=
  if String.prefix pre s
  then String.substring (String.length pre) (String.length s - String.length pre) s
  else s.

Definition digitValue (c : ascii) : option Z :=
  let n := Z.of_N (N_of_ascii c) in
  if (48 <=? n) && (n <=? 57) then Some (n - 48) else None.

Fixpoint parseDigits (s : string) (acc : Z) : option Z :=
  match s with
  | EmptyString => Some acc
  | String c rest => d ← digitValue c; parseDigits rest (acc * 10 + d)
  end.

(** [strconv.Atoi] with its error dropped: [0] on a syntax error, the
    nearest [int] on a range error. *)
Definition Atoi (s : string) : Z :=
  let parse (neg : bool) (digits : string) : Z :=
    match digits with
    | EmptyString => 0
    | _ =>
        match parseDigits digits 0 with
        | None => 0
        | Some n =>
            let v := if neg then - n else n in
            Z.max (- 2 ^ 63) (Z.min (2 ^ 63 - 1) v)
        end
    end in
  match s with
  | String "-" rest => parse true rest
  | String "+" rest => parse false rest
  | _ => parse false s
  end.

Definition segmentNumber (fileName : string) : Z :=
  Atoi (TrimPrefix fileName outFileName).

(** [os.ReadDir]: the entry names, sorted by name. *)
Definition ReadDir (fs : Dir) : list string :=
  merge_sort String.le (map_to_list fs).*1.

(** [sort.Slice] as the insertion sort Go runs on short slices: an element
    moves left while [less] holds against its left neighbour. On keys that
    are pairwise different every sorting algorithm gives this order. *)
Fixpoint insertLeft {A} (less : A -> A -> bool) (x : A)
  (sortedRev : list A) : list A :=
  match sortedRev with
  | [] => [x]
  | y :: rest =>
      if less x y then y :: insertLeft less x rest else x :: sortedRev
  end.

Definition sortSlice {A} (less : A -> A -> bool) (l : list A) : list A :=
  rev (fold_left (fun acc x => insertLeft less x acc) l []).

(** The body of the last loop of [recoverAll] for one file. The scan of
    [recoverSegment] ends on [io.EOF] and never returns it, so the test
    [err != io.EOF] of the source lets no error through. *)
Definition recoverFile (fs : Dir) (acc : option (result Db))
  (fileName : string) : option (result Db) :=
  match acc with
  | Some (Ok db) =>
      match recoverSegment fs fileName with
      | None => None
      | Some (Ok idx) =>
          let n := segmentNumber fileName in
          Some (Ok (mkDb (out db) (segmentSize db)
                         (if decide (n > lastSegmentIndex db)
                          then n else lastSegmentIndex db)
                         (segments db ++ [mkSegment idx fileName])
                         (closed db)))
      | Some (Err e) => Some (Err e)
      | Some Panic => Some Panic
      end
  | _ => acc
  end.

Definition recoverAll (fs : Dir) (db : Db) : option (result Db) :=
  let segmentFiles := filter (fun n => String.prefix outFileName n = true)
                             (ReadDir fs) in
  let sorted := sortSlice (fun a b => segmentNumber a <? segmentNumber b)
                          segmentFiles in
  fold_left (recoverFile fs) sorted (Some (Ok db)).

(** [NewDb] on the directory [fs]; [None] only if a recovery scan ran out
    of iterations, which does not happen. *)
Definition NewDb (fs : Dir) (size : Z) : option (result St) :=
  let db := mkDb None size (-1) [] false in
  match recoverAll fs db with
  | None => None
  | Some (Err e) => Some (Err e)
  | Some Panic => Some Panic
  | Some (Ok db) =>
      match rev (segments db) with
      | [] => Some (Ok (createSegment (fs, db)))
      | lastSegment :: _ =>
          Some (Ok (fs, mkDb (Some (filePath lastSegment)) (segmentSize db)
                             (lastSegmentIndex db) (segments db)
                             (closed db)))
      end
  end.

(** [Close]: the queue and the append handle are closed; the files stay. *)
Definition Close (st : St) : St :=
  (st.1, mkDb (out st.2) (segmentSize st.2) (lastSegmentIndex st.2)
              (segments st.2) true).

(** ** cmd/lb/balancer.go *)

Module Balancer.

Record Balancer := mkBalancer {
  pool : list string;
  healthyPool : list string;
  serverTraffic : gmap string Z
}.

(** [b.serverTraffic[server]]: a missing key reads as zero. *)
Definition trafficOf (b : Balancer) (server : string) : Z :=
  default 0 (serverTraffic b !! server).

(** The body of the loop of [chooseServer] on the pair
    [(minTrafficServer, minTraffic)]. *)
Definition chooseStep (b : Balancer) (acc : string * Z) (server : string)
  : string * Z :=
  let traffic := trafficOf b server in
  if decide (acc.2 = -1 \/ traffic < acc.2) then (server, traffic) else acc.

Definition chooseServer (b : Balancer) : string :=
  match healthyPool b with
  | [] => ""
  | _ => (fold_left (chooseStep b) (healthyPool b) ("", -1)).1
  end.

(** What the front-end handler does with the selection. *)
Inductive action :=
| ServiceUnavailable   (* http.Error(rw, ..., 503) *)
| Forward (server : string).

Definition frontend (b : Balancer) : action :=
  let server := chooseServer b in
  if decide (server = "") then ServiceUnavailable else Forward server.

(** [NewBalancer]: the healthy pool starts as a copy of the pool, with no
    counter. *)
Definition NewBalancer (pool : list string) : Balancer :=
  mkBalancer pool pool ∅.

(** One round of the loop of [healthCheck]: the new healthy pool is made of
    the backends of the pool that pass the check, in the order of the pool.
    [check] is what [healthChecker.Check] answers in this round. *)
Definition healthCheck (check : string -> bool) (b : Balancer) : Balancer :=
  mkBalancer (pool b)
             (filter (fun server => check server = true) (pool b))
             (serverTraffic b).

(** What happens to one forwarded request: [requestSender.Send] fails, or
    it returns a response with status [status] and [io.Copy] copies [n]
    bytes of its body to the client, with or without an error. *)
Inductive exchange :=
| SendFailed
| Copied (status : Z) (n : Z) (copyFailed : bool).

(** [forward]: the balancer afterwards, the status written to the client
    and whether an error is returned. The counter of [dst] grows by the
    bytes copied when nothing failed. The headers and the bytes of the body
    are not part of the embedding. *)
Definition forward (b : Balancer) (dst : string) (x : exchange)
  : Balancer * Z * bool :=
  match x with
  | SendFailed => (b, 503, true)
  | Copied status n true => (b, status, true)
  | Copied status n false =>
      (mkBalancer (pool b) (healthyPool b)
                  (<[dst := trafficOf b dst + n]> (serverTraffic b)),
       status, false)
  end.

(** The handler of the front end for one request: the balancer afterwards
    and the status the client gets. *)
Definition serve (b : Balancer) (x : exchange) : Balancer * Z :=
  match frontend b with
  | ServiceUnavailable => (b, 503)
  | Forward server => (forward b server x).1
  end.

End Balancer.

(** ** Vocabulary of the statements *)

(** *** Frames *)

(** The bytes [Encode] stores for key [k], value [v] and hash field [h]. *)
Definition frame (k v h : string) : list byte :=
  Bytes.le32 (Bytes.uint32 (len k + len v + len h + 12))
    ++ Bytes.le32 (Bytes.uint32 (len k))
    ++ list_byte_of_string k
    ++ Bytes.le32 (Bytes.uint32 (len v))
    ++ list_byte_of_string v
    ++ list_byte_of_string h.

(** The [total_size] field at the head of [r]. *)
Definition totalSize (r : list byte) : Z :=
  default 0 (Bytes.Uint32 (firstn 4 r)).

(** The [key_len] and [val_len] fields of a frame. *)
Definition keyLen (data : list byte) : Z :=
  default 0 (Bytes.Uint32 (skipn 4 data)).

Definition valLen (data : list byte) : Z :=
  default 0 (Bytes.Uint32 (skipn (Z.to_nat (keyLen data + 8)) data)).

(** The record-reading path: [readNext], then [Decode]. *)
Definition readRecord (r : list byte) : result Entry :=
  data ← (readNext r).1; Decode data.

(** A record fits the frame when its total size fits the [total_size]
    field. *)
Definition fits (k v : string) : Prop := len k + len v + 52 < 2 ^ 32.

(** The content [c] holds at offset [pos] the record that [Encode] writes
    for key [k] and value [v]. *)
Definition recordIn (c : list byte) (pos : Z) (k v : string) : Prop :=
  exists pre post,
    c = pre ++ frame k v (calculateHash v) ++ post
    /\ pos = Z.of_nat (length pre).

(** Inequalities over [uint32] sums. *)
Ltac uint32_lia :=
  unfold Bytes.uint32 in *; change (2 ^ 32) with 4294967296 in *;
  Z.div_mod_to_equations; lia.

(** *** Stores *)

(** The store [NewDb] builds in an empty directory: one empty segment. *)
Definition freshDb (size : Z) : St :=
  createSegment (∅, mkDb None size (-1) [] false).

(** The store of a successful [NewDb]. *)
Definition openedStore (o : option (result St)) : option St :=
  match o with
  | Some (Ok st) => Some st
  | _ => None
  end.

(** A store that is open, with a roster whose last segment is the file
    open for append. [NewDb] returns such a store ([NewDb_wellFormed]) and
    [Put] keeps it so ([Put_wellFormed]). *)
Definition wellFormed (st : St) : Prop :=
  closed st.2 = false
  /\ exists older s content,
       segments st.2 = older ++ [s]
       /\ out st.2 = Some (filePath s)
       /\ st.1 !! filePath s = Some content.

(** The file of segment [s] holds at offset [pos] the record that [Encode]
    writes for key [k] and value [v]. *)
Definition storedAt (fs : Dir) (s : Segment) (pos : Z) (k v : string)
  : Prop :=
  exists pre post,
    fs !! filePath s = Some (pre ++ frame k v (calculateHash v) ++ post)
    /\ pos = Z.of_nat (length pre).

(** Every index entry of the segments [segs] points at a record of its key
    that fits the frame. *)
Definition validIn (fs : Dir) (segs : list Segment) : Prop :=
  forall s k pos, s ∈ segs -> index s !! k = Some pos ->
    exists v, storedAt fs s pos k v /\ fits k v.

(** Every file of [fs] is in [fs'], possibly longer at its end. *)
Definition extends (fs fs' : Dir) : Prop :=
  forall p c, fs !! p = Some c -> exists suffix, fs' !! p = Some (c ++ suffix).

(** The lookup of [Get] over the roster [segs] alone. *)
Definition GetIn (fs : Dir) (segs : list Segment) (k : string)
  : result string :=
  Get (fs, mkDb None 0 0 segs false) k.

(** A result as an option: the position found, if any. *)
Definition posOption (r : result KeyPosition) : option KeyPosition :=
  match r with
  | Ok kp => Some kp
  | _ => None
  end.

(** *** Sequences of Puts *)

(** The store after a [Put] that rolled over to a new segment. *)
Definition afterRollover (st : St) (k v : string) : St :=
  let path := generateNewFileName (lastSegmentIndex st.2 + 1) in
  let old := default [] (st.1 !! path) in
  (<[path := old ++ Encode (mkEntry k v (calculateHash v))]> st.1,
   mkDb (Some path) (segmentSize st.2) (lastSegmentIndex st.2 + 1)
        (segments st.2
           ++ [mkSegment (<[k := Z.of_nat (length old)]> ∅) path])
        false).

(** The store after a [Put] that appended to the active segment [s], whose
    file held [content]. *)
Definition afterAppend (st : St) (older : list Segment) (s : Segment)
  (content : list byte) (k v : string) : St :=
  (<[filePath s := content ++ Encode (mkEntry k v (calculateHash v))]> st.1,
   mkDb (out st.2) (segmentSize st.2) (lastSegmentIndex st.2)
        (older ++ [mkSegment (<[k := Z.of_nat (length content)]> (index s))
                             (filePath s)])
        false).

(** A sequence of [Put]s, stopping at the first that fails. *)
Fixpoint PutAll (st : St) (kvs : list (string * string)) : St * result unit :=
  match kvs with
  | [] => (st, Ok ())
  | (k, v) :: rest =>
      match Put st k v with
      | (st', Ok _) => PutAll st' rest
      | (st', Err e) => (st', Err e)
      | (st', Panic) => (st', Panic)
      end
  end.

(** The value of the last [Put] of key [k] in a sequence, if any. *)
Fixpoint latest (kvs : list (string * string)) (k : string) : option string :=
  match kvs with
  | [] => None
  | (k', v) :: rest =>
      match latest rest k with
      | Some w => Some w
      | None => if decide (k' = k) then Some v else None
      end
  end.

(** The number of bytes a sequence of [Put]s writes. *)
Definition totalLength (kvs : list (string * string)) : Z :=
  fold_right (fun kv acc => Z.of_nat (length (Encode (mkEntry kv.1 kv.2 ""))) + acc)
             0 kvs.

(** The name of the segment file of index [i]. *)
Definition segmentName (i : nat) : string :=
  generateNewFileName (Z.of_nat i).

(** The layout of a store that [NewDb] opened on an empty directory with
    budget [size] and that then took the [Put]s [kvs]: segments
    [0 .. n], one file each and no other file, the last one open for
    append; while there is one segment its file holds every byte written
    and stays within the budget. *)
Record layout (size : Z) (kvs : list (string * string)) (st : St) (n : nat)
  : Prop := {
  l_closed : closed st.2 = false;
  l_size : segmentSize st.2 = size;
  l_last : lastSegmentIndex st.2 = Z.of_nat n;
  l_out : out st.2 = Some (segmentName n);
  l_paths : filePath <$> segments st.2 = segmentName <$> seq 0 (S n);
  l_dom : dom st.1 = list_to_set (segmentName <$> seq 0 (S n));
  l_single : n = 0%nat ->
             exists c, st.1 !! segmentName 0 = Some c
                       /\ Z.of_nat (length c) = totalLength kvs;
  l_budget : n = 0%nat -> kvs <> [] -> totalLength kvs <= size
}.

(** The store answers every key with its last value in [kvs]. *)
Definition agrees (st : St) (kvs : list (string * string)) : Prop :=
  forall k,
    match latest kvs k with
    | Some v => exists s pos, getPos st.2 k = Ok (mkKeyPosition s pos)
                              /\ storedAt st.1 s pos k v
    | None => forall s, s ∈ segments st.2 -> index s !! k = None
    end.

(** *** The loops of Compact and chooseServer *)

(** The index [idx] of the segment being written by [Compact] points, for
    each of its keys, at a record in [c] whose value [R] describes. *)
Definition copied (R : string -> string -> Prop) (idx : gmap string Z)
  (c : list byte) : Prop :=
  forall k pos, idx !! k = Some pos ->
    exists v, R k v /\ fits k v /\ recordIn c pos k v.

(** What the loop of [chooseServer] has found after the non-empty prefix
    [l] of the healthy list: the first backend of least traffic. *)
Definition firstLeast (b : Balancer.Balancer) (l : list string)
  (acc : string * Z) : Prop :=
  acc.2 = Balancer.trafficOf b acc.1
  /\ exists i, l !! i = Some acc.1
     /\ (forall s, s ∈ l -> acc.2 <= Balancer.trafficOf b s)
     /\ (forall j s, (j < i)%nat -> l !! j = Some s ->
           acc.2 < Balancer.trafficOf b s).

(** *** Inputs of the examples *)

(** A string of [n] copies of one character, and a key of [2^32] bytes:
    the shortest key whose length does not fit the [key_len] field. *)
Fixpoint replicate (n : nat) (c : ascii) : string :=
  match n with
  | O => EmptyString
  | S m => String c (replicate m c)
  end.

Definition bigLen : nat := Z.to_nat (2 ^ 32).

Definition bigKey : string := replicate bigLen "a".

(** A value of [2^32 - 53] bytes: with the key ["k"] its record has a
    total size of [2^32]. *)
Definition bigValue : string := replicate (Z.to_nat (2 ^ 32 - 53)) "a".

(** Four zero bytes: a frame whose [total_size] field is zero. *)
Definition zeroFrame : list byte := [Byte.x00; Byte.x00; Byte.x00; Byte.x00].

(** A complete frame of twelve bytes: empty key, empty value, no hash. *)
Definition hashlessFrame : list byte :=
  Bytes.le32 12 ++ Bytes.le32 0 ++ Bytes.le32 0.

(** A store holding one record for key [k] whose value bytes were changed
    on disk from [v] to [w]: the hash field is still that of [v]. *)
Definition tamperedDb : St :=
  (<["current-data0" := frame "k" "w" (calculateHash "v")]> ∅,
   mkDb (Some "current-data0"%string) 100 0
        [mkSegment (<["k"%string := 0]> ∅) "current-data0"] false).

(** The store after [Put k old], [Put k new] (which rolls over) and
    [Compact], on an empty directory with a budget of 100 bytes; and what
    [NewDb] returns on the same directory after [Close]. *)
Definition compactedDb : St :=
  (Compact (PutAll (freshDb 100) [("k", "old"); ("k", "new")]%string).1).1.

Definition reopenedDb : option (result St) :=
  NewDb (Close compactedDb).1 100.

(** The balancer of [TestBalancer_ChooseServer_And_HealthCheck] after its
    health check. *)
Definition testBalancer : Balancer.Balancer :=
  Balancer.mkBalancer ["server1"; "server2"; "server3"]%string
    ["server1"; "server3"]%string
    (<["server1"%string := 100]>
       (<["server2"%string := 10]> (<["server3"%string := 200]> ∅))).

(** A balancer whose first healthy backend has the counter [-1]. *)
Definition sentinelBalancer : Balancer.Balancer :=
  Balancer.mkBalancer ["a"; "b"]%string ["a"; "b"]%string
    (<["a"%string := -1]> (<["b"%string := 5]> ∅)).

(** *** Decoded fields and settled answers *)

(** The three fields [Decode] cuts out of [data]. *)
Definition fieldsOf (data : list byte) : Entry :=
  let kl := keyLen data in
  let vl := valLen data in
  mkEntry
    (string_of_list_byte (firstn (Z.to_nat kl) (skipn 8 data)))
    (string_of_list_byte
       (firstn (Z.to_nat vl) (skipn (Z.to_nat (kl + 12)) data)))
    (string_of_list_byte (skipn (Z.to_nat (kl + 12 + vl)) data)).

(** The answers of [Get] that more bytes at the end of a file cannot
    change. *)
Definition settled (r : result string) : Prop :=
  match r with
  | Ok _ | Err ErrNotFound | Err ErrHashMismatch => True
  | _ => False
  end.

(** *** Segment files as sequences of records *)

(** The content of a file that holds the records [recs], one frame after
    the other, as [Put] writes them. *)
Fixpoint framesOf (recs : list (string * string)) : list byte :=
  match recs with
  | [] => []
  | (k, v) :: rest => frame k v (calculateHash v) ++ framesOf rest
  end.

(** The index of the records [recs] of a file, the first of them at
    [offset], on top of the index [idx]: each key points at the start of
    its last record. *)
Fixpoint indexOf (recs : list (string * string)) (offset : Z)
  (idx : gmap string Z) : gmap string Z :=
  match recs with
  | [] => idx
  | (k, v) :: rest =>
      indexOf rest
              (offset + Z.of_nat (length (frame k v (calculateHash v))))
              (<[k := offset]> idx)
  end.

(** *** Recovery *)

(** The index that the scan of the file [name] rebuilds; empty when the
    scan fails. *)
Definition recoveredIndex (fs : Dir) (name : string) : gmap string Z :=
  match recoverSegment fs name with
  | Some (Ok idx) => idx
  | _ => ∅
  end.

(** The step of [recoverAll] on [lastSegmentIndex] for one file. *)
Definition maxNumber (last : Z) (name : string) : Z :=
  if decide (segmentNumber name > last) then segmentNumber name else last.

(** The files [recoverAll] takes for segments. *)
Definition segmentFiles (fs : Dir) : list string :=
  filter (fun n => String.prefix outFileName n = true) (ReadDir fs).

(** [sort.Slice] on an integer key [f]: its [less], and the order of a
    list it has sorted, read from its end and from its start. *)
Definition lessBy {A} (f : A -> Z) (a b : A) : bool := f a <? f b.

Definition descendingBy {A} (f : A -> Z) (a b : A) : Prop := f b <= f a.

Definition ascendingBy {A} (f : A -> Z) (a b : A) : Prop := f a <= f b.

(** The order of [recoverAll]: by segment number. *)
Definition byNumber (a b : string) : Prop :=
  segmentNumber a <= segmentNumber b.

(** Every segment file is a sequence of frames of records that fit, and
    the index of the segment is the index of these records: the state of
    a store that took [Put]s only. *)
Definition journaled (st : St) : Prop :=
  forall s, s ∈ segments st.2 ->
    exists recs,
      Forall (fun kv => fits kv.1 kv.2) recs
      /\ st.1 !! filePath s = Some (framesOf recs)
      /\ index s = indexOf recs 0 ∅.

(** *** Requests through the balancer *)

(** The balancer after the requests [xs], one after the other. *)
Definition serveAll (b : Balancer.Balancer) (xs : list Balancer.exchange)
  : Balancer.Balancer :=
  fold_left (fun b x => (Balancer.serve b x).1) xs b.

(** A request that was forwarded without failure, with [n] bytes of body
    copied to the client. *)
Definition copies (n : Z) (x : Balancer.exchange) : Prop :=
  exists status, x = Balancer.Copied status n false.

(** After [q] full turns and [r] more requests of [n] bytes each, the
    backends of [l] before position [r] have served one request more than
    the others. *)
Definition turns (b : Balancer.Balancer) (l : list string) (n : Z)
  (q r : nat) : Prop :=
  forall i s, l !! i = Some s ->
    Balancer.trafficOf b s
    = (Z.of_nat q + (if decide (i < r)%nat then 1 else 0)) * n.

(** *** Stores with a damaged sealed segment *)

(** A store of two segments whose sealed segment holds one record for key
    [k] with the value bytes changed on disk from [v] to [w]. *)
Definition tamperedSealedDb : St :=
  (<["current-data0" := frame "k" "w" (calculateHash "v")]>
     (<["current-data1" := frame "j" "x" (calculateHash "x")]> ∅),
   mkDb (Some "current-data1"%string) 100 1
        [mkSegment (<["k"%string := 0]> ∅) "current-data0";
         mkSegment (<["j"%string := 0]> ∅) "current-data1"] false).

(** The same roster when the file of the sealed segment is gone. *)
Definition missingSealedDb : St :=
  (<["current-data1" := frame "j" "x" (calculateHash "x")]> ∅,
   mkDb (Some "current-data1"%string) 100 1
        [mkSegment (<["k"%string := 0]> ∅) "current-data0";
         mkSegment (<["j"%string := 0]> ∅) "current-data1"] false).

(** * Properties *)

(** ** Known digests and a codec test *)

Example sha1_abc :
  calculateHash "abc" = "a9993e364706816aba3e25717850c26c9cd0d89d"%string.
Proof. vm_compute. reflexivity. Qed.

Example sha1_empty :
  calculateHash "" = "da39a3ee5e6b4b0d3255bfef95601890afd80709"%string.
Proof. vm_compute. reflexivity. Qed.

Example sha1_two_blocks :
  calculateHash "abcdbcdecdefdefgefghfghighijhijkijkljklmklmnlmnomnopnopq"
  = "84983e441c3bd26ebaae4aa1f95129e5e54670f1"%string.
Proof. vm_compute. reflexivity. Qed.

Example decode_encode_test :
  Decode (Encode (mkEntry "key" "value" "")) =
  Ok (mkEntry "key" "value" (calculateHash "value")).
Proof. vm_compute. reflexivity. Qed.

(** ** Bytes and words *)

Lemma toZ_range b : 0 <= Bytes.toZ b < 256.
Proof.
  unfold Bytes.toZ. pose proof (Byte.to_N_bounded b). lia.
Qed.

Lemma toZ_ofZ v : Bytes.toZ (Bytes.ofZ v) = v mod 256.
Proof.
  unfold Bytes.toZ, Bytes.ofZ.
  pose proof (Z.mod_pos_bound v 256 ltac:(lia)) as Hr.
  destruct (Byte.of_N (Z.to_N (v mod 256))) as [b|] eqn:E.
  - apply Byte.to_of_N in E. rewrite E. lia.
  - apply Byte.of_N_None_iff in E. lia.
Qed.

Lemma ofZ_toZ b : Bytes.ofZ (Bytes.toZ b) = b.
Proof.
  unfold Bytes.ofZ, Bytes.toZ.
  pose proof (Byte.to_N_bounded b).
  rewrite Z.mod_small by lia. rewrite N2Z.id, Byte.of_to_N. reflexivity.
Qed.

Lemma Uint32_le32 v rest :
  Bytes.Uint32 (Bytes.le32 v ++ rest) = Some (Bytes.uint32 v).
Proof.
  unfold Bytes.le32, Bytes.Uint32, Bytes.uint32. cbn [app]. f_equal.
  rewrite !toZ_ofZ.
  change 256 with (2 ^ 8).
  apply Z.bits_inj'. intros n Hn.
  rewrite !Z.lor_spec, !Z.shiftl_spec by lia.
  rewrite !Z.testbit_mod_pow2 by lia.
  destruct (Z.ltb_spec n 8), (Z.ltb_spec (n - 8) 8), (Z.ltb_spec (n - 16) 8),
    (Z.ltb_spec (n - 24) 8), (Z.ltb_spec n 32); try lia; cbn [andb orb];
    rewrite ?(Z.testbit_neg_r _ (n - 8)), ?(Z.testbit_neg_r _ (n - 16)),
      ?(Z.testbit_neg_r _ (n - 24)) by lia;
    rewrite ?Z.shiftr_spec by lia; cbn [andb orb];
    rewrite ?orb_false_r; try reflexivity; f_equal; lia.
Qed.

Lemma length_bytes (s : string) :
  length (list_byte_of_string s) = String.length s.
Proof.
  unfold list_byte_of_string. rewrite length_map.
  induction s as [|c s IH]; cbn; [reflexivity | now rewrite IH].
Qed.

Lemma length_le32 v : length (Bytes.le32 v) = 4%nat.
Proof. reflexivity. Qed.

Lemma length_zeros n : length (Bytes.zeros n) = n.
Proof. apply repeat_length. Qed.

Lemma skipn_zeros m n : skipn m (Bytes.zeros n) = Bytes.zeros (n - m).
Proof.
  unfold Bytes.zeros. revert n.
  induction m as [|m IH]; intros [|n]; cbn; try reflexivity.
  apply IH.
Qed.

(** Writing [src] right after the part [a] already written, into zeros. *)
Lemma copyAt_zeros (a src : list byte) (n off : nat) :
  off = length a -> (length src <= n)%nat ->
  Bytes.copyAt off src (a ++ Bytes.zeros n)
  = (a ++ src) ++ Bytes.zeros (n - length src).
Proof.
  intros -> Hle. unfold Bytes.copyAt.
  rewrite firstn_app, firstn_all, Nat.sub_diag, firstn_O, app_nil_r.
  rewrite length_app, length_zeros.
  replace (length a + n - length a)%nat with n by lia.
  rewrite firstn_all2 by lia.
  rewrite skipn_app, skipn_all2 by lia.
  replace (length a + length src - length a)%nat with (length src) by lia.
  rewrite skipn_zeros. cbn [app]. now rewrite <- app_assoc.
Qed.

Lemma copyAt_full (src : list byte) n :
  length src = n -> Bytes.copyAt 0 src (Bytes.zeros n) = src.
Proof.
  intros <-. unfold Bytes.copyAt. cbn [firstn app].
  rewrite length_zeros, Nat.sub_0_r, firstn_all.
  rewrite skipn_all2 by (rewrite length_zeros; cbn; lia).
  apply app_nil_r.
Qed.

Lemma len_nonneg s : 0 <= len s.
Proof. unfold len. lia. Qed.

Lemma Encode_frame e :
  Encode e = frame (key e) (value e) (calculateHash (value e)).
Proof.
  unfold Encode, frame, Bytes.PutUint32, len.
  set (K := list_byte_of_string (key e)).
  set (V := list_byte_of_string (value e)).
  set (H := list_byte_of_string (calculateHash (value e))).
  assert (HK : length K = String.length (key e)) by apply length_bytes.
  assert (HV : length V = String.length (value e)) by apply length_bytes.
  assert (HH : length H = String.length (calculateHash (value e)))
    by apply length_bytes.
  rewrite <- HK, <- HV, <- HH.
  change (Bytes.zeros (length K + length V + length H + 12))
    with ([] ++ Bytes.zeros (length K + length V + length H + 12)).
  rewrite copyAt_zeros by (cbn; lia).
  rewrite copyAt_zeros by (rewrite ?length_app; cbn; lia).
  rewrite copyAt_zeros by (rewrite ?length_app; cbn; lia).
  rewrite copyAt_zeros by (rewrite ?length_app; cbn; lia).
  rewrite copyAt_zeros by (rewrite ?length_app; cbn; lia).
  rewrite copyAt_zeros by (rewrite ?length_app; cbn; lia).
  rewrite !length_le32.
  replace (length K + length V + length H + 12 - 4 - 4 - length K - 4
           - length V - length H)%nat with 0%nat by lia.
  cbn [Bytes.zeros repeat]. rewrite app_nil_r, <- !app_assoc. cbn [app].
  repeat f_equal; lia.
Qed.

Lemma length_be n x : length (Sha1.be n x) = n.
Proof. induction n as [|n IH]; cbn; [reflexivity | now rewrite IH]. Qed.

Lemma length_hex bs : String.length (Sha1.hex bs) = (2 * length bs)%nat.
Proof. induction bs as [|b bs IH]; cbn; [reflexivity | rewrite IH; lia]. Qed.

Lemma length_sum msg : length (Sha1.sum msg) = 20%nat.
Proof. unfold Sha1.sum. rewrite !length_app, !length_be. reflexivity. Qed.

Lemma calculateHash_length v : String.length (calculateHash v) = 40%nat.
Proof. unfold calculateHash. rewrite length_hex, length_sum. reflexivity. Qed.

Lemma len_calculateHash v : len (calculateHash v) = 40.
Proof. unfold len. now rewrite calculateHash_length. Qed.

Lemma uint32_small v : 0 <= v < 2 ^ 32 -> Bytes.uint32 v = v.
Proof. intros. unfold Bytes.uint32. now apply Z.mod_small. Qed.

Lemma uint32_idemp v : Bytes.uint32 (Bytes.uint32 v) = Bytes.uint32 v.
Proof. unfold Bytes.uint32. apply Z.mod_mod. lia. Qed.

(** Slices of a list given as three parts. *)
Lemma slice_mid (a b c : list byte) lo hi :
  lo = Z.of_nat (length a) -> hi = lo + Z.of_nat (length b) ->
  Bytes.slice lo hi (a ++ b ++ c) = Some b.
Proof.
  intros -> ->. unfold Bytes.slice.
  rewrite decide_True by (rewrite !length_app; lia).
  rewrite Nat2Z.id.
  replace (Z.to_nat (Z.of_nat (length a) + Z.of_nat (length b)
                     - Z.of_nat (length a))) with (length b) by lia.
  rewrite skipn_app, skipn_all, Nat.sub_diag. cbn [app].
  rewrite skipn_O, firstn_app, firstn_all, Nat.sub_diag, firstn_O.
  now rewrite app_nil_r.
Qed.

Lemma sliceFrom_app (a b : list byte) lo :
  lo = Z.of_nat (length a) -> Bytes.sliceFrom lo (a ++ b) = Some b.
Proof.
  intros ->. unfold Bytes.sliceFrom.
  replace (a ++ b) with (a ++ b ++ []) by now rewrite app_nil_r.
  apply slice_mid; [reflexivity |].
  rewrite !length_app. cbn. lia.
Qed.

Lemma Decode_frame k v h :
  len k + len v + 12 < 2 ^ 32 ->
  Decode (frame k v h) = Ok (mkEntry k v h).
Proof.
  intros Hfit. pose proof (len_nonneg k). pose proof (len_nonneg v).
  unfold Decode, frame.
  set (K := list_byte_of_string k).
  set (V := list_byte_of_string v).
  set (H' := list_byte_of_string h).
  assert (HK : Z.of_nat (length K) = len k) by (unfold len, K; now rewrite length_bytes).
  assert (HV : Z.of_nat (length V) = len v) by (unfold len, V; now rewrite length_bytes).
  set (sz := Bytes.le32 _).
  rewrite (sliceFrom_app sz) by reflexivity. cbn [orPanic mbind result_bind].
  rewrite Uint32_le32, uint32_idemp. cbn [orPanic mbind result_bind].
  rewrite !(uint32_small (len k)) by lia.
  rewrite (uint32_small (len k + 8)) by lia.
  rewrite (uint32_small (len k + 12)) by lia.
  replace (sz ++ Bytes.le32 (len k) ++ K ++ Bytes.le32 (Bytes.uint32 (len v)) ++ V ++ H')
    with ((sz ++ Bytes.le32 (len k)) ++ K ++ (Bytes.le32 (Bytes.uint32 (len v)) ++ V ++ H'))
    by (now rewrite <- !app_assoc).
  rewrite (slice_mid _ K) by (rewrite ?length_app; cbn; lia).
  cbn [orPanic mbind result_bind].
  replace ((sz ++ Bytes.le32 (len k)) ++ K ++ (Bytes.le32 (Bytes.uint32 (len v)) ++ V ++ H'))
    with (((sz ++ Bytes.le32 (len k)) ++ K) ++ (Bytes.le32 (Bytes.uint32 (len v)) ++ V ++ H'))
    by (now rewrite <- !app_assoc).
  rewrite (sliceFrom_app _ _ (len k + 8)) by (rewrite ?length_app; cbn; lia).
  cbn [orPanic mbind result_bind].
  rewrite Uint32_le32, uint32_idemp. cbn [orPanic mbind result_bind].
  rewrite !(uint32_small (len v)) by lia.
  rewrite (uint32_small (len k + 12 + len v)) by lia.
  replace (((sz ++ Bytes.le32 (len k)) ++ K) ++ Bytes.le32 (len v) ++ V ++ H')
    with ((((sz ++ Bytes.le32 (len k)) ++ K) ++ Bytes.le32 (len v)) ++ V ++ H')
    by (now rewrite <- !app_assoc).
  rewrite (slice_mid _ V) by (rewrite ?length_app; cbn; lia).
  cbn [orPanic mbind result_bind].
  rewrite decide_False by (rewrite ?length_app; cbn; lia).
  replace ((((sz ++ Bytes.le32 (len k)) ++ K) ++ Bytes.le32 (len v)) ++ V ++ H')
    with (((((sz ++ Bytes.le32 (len k)) ++ K) ++ Bytes.le32 (len v)) ++ V) ++ H')
    by (now rewrite <- !app_assoc).
  rewrite (sliceFrom_app _ H') by (rewrite ?length_app; cbn; lia).
  cbn [orPanic mbind result_bind].
  rewrite !copyAt_full by (rewrite ?length_app; cbn; lia).
  unfold K, V, H'. now rewrite !string_of_list_byte_of_string.
Qed.

Lemma length_frame k v h :
  Z.of_nat (length (frame k v h)) = len k + len v + len h + 12.
Proof.
  unfold frame, len. rewrite !length_app, !length_le32, !length_bytes. lia.
Qed.

Lemma Uint32_le32_exact v : Bytes.Uint32 (Bytes.le32 v) = Some (Bytes.uint32 v).
Proof. rewrite <- (app_nil_r (Bytes.le32 v)). apply Uint32_le32. Qed.

Lemma Uint32_range b v : Bytes.Uint32 b = Some v -> 0 <= v < 2 ^ 32.
Proof.
  destruct b as [|b0 [|b1 [|b2 [|b3 rest]]]]; try discriminate.
  intros [= <-].
  set (x := Z.lor _ _).
  pose proof (toZ_range b0). pose proof (toZ_range b1).
  pose proof (toZ_range b2). pose proof (toZ_range b3).
  assert (Hm : x mod 2 ^ 32 = x).
  { apply Z.bits_inj'. intros n Hn. rewrite Z.testbit_mod_pow2 by lia.
    destruct (Z.ltb_spec n 32); [reflexivity |]. cbn [andb]. unfold x.
    rewrite !Z.lor_spec, !Z.shiftl_spec by lia.
    rewrite <- (Z.mod_small (Bytes.toZ b0) (2 ^ 8)) by lia.
    rewrite <- (Z.mod_small (Bytes.toZ b1) (2 ^ 8)) by lia.
    rewrite <- (Z.mod_small (Bytes.toZ b2) (2 ^ 8)) by lia.
    rewrite <- (Z.mod_small (Bytes.toZ b3) (2 ^ 8)) by lia.
    rewrite !Z.testbit_mod_pow2 by lia.
    destruct (Z.ltb_spec n 8), (Z.ltb_spec (n - 8) 8),
      (Z.ltb_spec (n - 16) 8), (Z.ltb_spec (n - 24) 8); try lia;
      reflexivity. }
  pose proof (Z.mod_pos_bound x (2 ^ 32) ltac:(lia)). lia.
Qed.

Lemma readNext_short r : (length r < 4)%nat -> readNext r = (Err EOF, r).
Proof. intros H. unfold readNext. now rewrite decide_True. Qed.

Lemma Uint32_firstn4 r :
  (4 <= length r)%nat -> Bytes.Uint32 (firstn 4 r) = Some (totalSize r).
Proof.
  unfold totalSize.
  destruct r as [|b0 [|b1 [|b2 [|b3 rest]]]]; cbn [length]; try lia.
  reflexivity.
Qed.

Lemma totalSize_range r : 0 <= totalSize r < 2 ^ 32.
Proof.
  unfold totalSize. destruct (Bytes.Uint32 (firstn 4 r)) eqn:E; cbn.
  - eapply Uint32_range; eauto.
  - lia.
Qed.

Lemma readNext_truncated r :
  (4 <= length r)%nat -> Z.of_nat (length r) < totalSize r ->
  readNext r = (Err ErrUnexpectedEOF, []).
Proof.
  intros H4 Hlt. unfold readNext.
  rewrite decide_False by lia. rewrite Uint32_firstn4 by lia.
  now rewrite decide_True.
Qed.

Lemma readNext_complete r :
  (4 <= length r)%nat -> totalSize r <= Z.of_nat (length r) ->
  readNext r = (Ok (firstn (Z.to_nat (totalSize r)) r),
                skipn (Z.to_nat (totalSize r)) r).
Proof.
  intros H4 Hle. unfold readNext.
  rewrite decide_False by lia. rewrite Uint32_firstn4 by lia.
  now rewrite decide_False by lia.
Qed.

Lemma totalSize_frame k v h rest :
  totalSize (frame k v h ++ rest) = Bytes.uint32 (len k + len v + len h + 12).
Proof.
  unfold totalSize, frame.
  rewrite <- app_assoc.
  change (firstn 4 (Bytes.le32 ?x ++ ?y)) with (Bytes.le32 x).
  rewrite Uint32_le32_exact. cbn. apply uint32_idemp.
Qed.

Lemma readNext_frame k v h rest :
  len k + len v + len h + 12 < 2 ^ 32 ->
  readNext (frame k v h ++ rest) = (Ok (frame k v h), rest).
Proof.
  intros Hfit.
  pose proof (len_nonneg k). pose proof (len_nonneg v). pose proof (len_nonneg h).
  pose proof (length_frame k v h) as Hl.
  rewrite readNext_complete.
  - rewrite totalSize_frame, uint32_small by lia. rewrite <- Hl, Nat2Z.id.
    rewrite firstn_app, firstn_all, Nat.sub_diag, firstn_O, app_nil_r.
    rewrite skipn_app, skipn_all, Nat.sub_diag. reflexivity.
  - rewrite length_app. lia.
  - rewrite totalSize_frame, uint32_small by lia. rewrite length_app. lia.
Qed.

Lemma readRecord_frame k v h rest :
  len k + len v + len h + 12 < 2 ^ 32 ->
  readRecord (frame k v h ++ rest) = Ok (mkEntry k v h).
Proof.
  intros Hfit. pose proof (len_nonneg h). unfold readRecord.
  rewrite readNext_frame by assumption. cbn.
  apply Decode_frame. lia.
Qed.

Lemma slice_Some lo hi s x :
  Bytes.slice lo hi s = Some x ->
  0 <= lo /\ lo <= hi /\ hi <= Z.of_nat (length s)
  /\ x = firstn (Z.to_nat (hi - lo)) (skipn (Z.to_nat lo) s).
Proof.
  unfold Bytes.slice. case_decide; [|discriminate].
  intros [= <-]. tauto.
Qed.

Lemma sliceFrom_Some lo s x :
  Bytes.sliceFrom lo s = Some x ->
  0 <= lo <= Z.of_nat (length s) /\ x = skipn (Z.to_nat lo) s.
Proof.
  unfold Bytes.sliceFrom. intros H. apply slice_Some in H.
  destruct H as (H0 & H1 & _ & ->). split; [lia|].
  apply firstn_all2. rewrite length_skipn. lia.
Qed.

Lemma Uint32_Some_length b v : Bytes.Uint32 b = Some v -> (4 <= length b)%nat.
Proof.
  destruct b as [|b0 [|b1 [|b2 [|b3 rest]]]]; try discriminate.
  cbn. lia.
Qed.

Lemma Uint32_firstn m b : (4 <= m)%nat -> Bytes.Uint32 (firstn m b) = Bytes.Uint32 b.
Proof.
  intros Hm.
  destruct m as [|[|[|[|m]]]]; try lia.
  destruct b as [|b0 [|b1 [|b2 [|b3 rest]]]]; reflexivity.
Qed.

Lemma Decode_Ok_fields data e :
  Decode data = Ok e -> Z.of_nat (length data) < 2 ^ 32 ->
  keyLen data + valLen data + 12 <= Z.of_nat (length data).
Proof.
  unfold Decode. intros H Hlen.
  destruct (Bytes.sliceFrom 4 data) as [s4|] eqn:E1; [|discriminate].
  cbn [orPanic mbind result_bind] in H.
  destruct (Bytes.Uint32 s4) as [kl|] eqn:E2; [|discriminate].
  cbn [orPanic mbind result_bind] in H.
  destruct (Bytes.slice 8 _ data) as [ks|] eqn:E3; [|discriminate].
  cbn [orPanic mbind result_bind] in H.
  destruct (Bytes.sliceFrom (Bytes.uint32 (kl + 8)) data) as [sv|] eqn:E4;
    [|discriminate].
  cbn [orPanic mbind result_bind] in H.
  destruct (Bytes.Uint32 sv) as [vl|] eqn:E5; [|discriminate].
  cbn [orPanic mbind result_bind] in H.
  destruct (Bytes.slice (Bytes.uint32 (kl + 12)) _ data) as [vs|] eqn:E6;
    [|discriminate].
  clear H.
  apply sliceFrom_Some in E1 as [_ ->].
  change (Z.to_nat 4) with 4%nat in E2.
  pose proof (Uint32_range _ _ E2) as Rk.
  pose proof (Uint32_range _ _ E5) as Rv.
  apply slice_Some in E3 as (_ & E3 & E3' & _).
  assert (Hk8 : Bytes.uint32 (kl + 8) = kl + 8) by uint32_lia.
  rewrite Hk8 in *.
  apply sliceFrom_Some in E4 as [_ ->].
  pose proof (Uint32_Some_length _ _ E5) as L5. rewrite length_skipn in L5.
  apply slice_Some in E6 as (_ & E6 & E6' & _).
  assert (HkL : keyLen data = kl) by (unfold keyLen; now rewrite E2).
  assert (HvL : valLen data = vl) by (unfold valLen; now rewrite HkL, E5).
  rewrite HkL, HvL.
  uint32_lia.
Qed.

Lemma Decode_no_error data e : Decode data <> Err e.
Proof.
  unfold Decode.
  repeat (match goal with
          | |- context [orPanic ?o] => destruct o; cbn [orPanic mbind result_bind]
          | |- context [decide ?P] => destruct (decide P)
          end; try discriminate).
Qed.

(** ** The entry codec *)

Lemma replicate_length n c : String.length (replicate n c) = n.
Proof. induction n as [|n IH]; cbn; [reflexivity | now rewrite IH]. Qed.

Lemma len_bigKey : len bigKey = 2 ^ 32.
Proof.
  unfold len, bigKey. rewrite replicate_length. unfold bigLen.
  apply Z2Nat.id. lia.
Qed.

(** A key whose length is a multiple of [2^32] is stored with a [key_len]
    field of zero and decodes to the empty key. *)
Lemma Decode_Encode_key_wrap e e' :
  Bytes.uint32 (len (key e)) = 0 -> Decode (Encode e) = Ok e' ->
  key e' = EmptyString.
Proof.
  intros Hw. rewrite Encode_frame. unfold Decode, frame.
  set (sz := Bytes.le32 _).
  rewrite (sliceFrom_app sz) by reflexivity. cbn [orPanic mbind result_bind].
  rewrite Uint32_le32, uint32_idemp, Hw. cbn [orPanic mbind result_bind].
  change (Bytes.uint32 (0 + 8)) with 8.
  destruct (Bytes.slice 8 8 _) as [ks|] eqn:Ek;
    cbn [orPanic mbind result_bind]; [|discriminate].
  apply slice_Some in Ek as (_ & _ & _ & ->).
  change (Z.to_nat (8 - 8)) with 0%nat. cbn [firstn].
  repeat (match goal with
          | |- context [orPanic ?o] =>
              destruct o; cbn [orPanic mbind result_bind]
          | |- context [decide ?P] => destruct (decide P)
          end; try discriminate).
  intros [= <-]. reflexivity.
Qed.

(** C3, as amended: for every key [k] and value [v] whose lengths fit the
    32-bit fields of the frame ([len k + len v + 12 < 2^32]), decoding the
    encoding of an entry with key [k] and value [v] yields key [k], value
    [v] and the hash [calculateHash v], the 40-character hexadecimal SHA-1
    digest of [v]; the hash [h] supplied by the caller is ignored. *)
Theorem codec_round_trip (k v h : string) :
  len k + len v + 12 < 2 ^ 32 ->
  Decode (Encode (mkEntry k v h)) = Ok (mkEntry k v (calculateHash v))
  /\ calculateHash v = Sha1.hex (Sha1.sum (list_byte_of_string v))
  /\ String.length (calculateHash v) = 40%nat.
Proof.
  intros Hfit. split; [|split].
  - rewrite Encode_frame. cbn [key value]. now apply Decode_frame.
  - reflexivity.
  - apply calculateHash_length.
Qed.

Lemma codec_round_trip_witness :
  Decode (Encode (mkEntry "key" "value" "caller-supplied"))
  = Ok (mkEntry "key" "value" (calculateHash "value"))
  /\ calculateHash "value"
     = Sha1.hex (Sha1.sum (list_byte_of_string "value"))
  /\ String.length (calculateHash "value") = 40%nat.
Proof.
  apply (codec_round_trip "key" "value" "caller-supplied").
  vm_compute. reflexivity.
Defined.

Lemma round_trip_fails_on_wrap (k : string) :
  len k = 2 ^ 32 ->
  Decode (Encode (mkEntry k "" "")) <> Ok (mkEntry k "" (calculateHash "")).
Proof.
  intros L H. apply Decode_Encode_key_wrap in H.
  - cbn [key] in H. rewrite H in L. unfold len in L. cbn in L. lia.
  - cbn [key]. rewrite L. reflexivity.
Qed.

(** C3, as stated, fails on a key of [2^32] bytes: its [key_len] field
    wraps to zero and the decoded key is empty. *)
Lemma codec_round_trip_key_wraps :
  Decode (Encode (mkEntry bigKey "" ""))
  <> Ok (mkEntry bigKey "" (calculateHash "")).
Proof. exact (round_trip_fails_on_wrap bigKey len_bigKey). Qed.

(** ** The record-reading path *)

Lemma readRecord_Ok_fields r e :
  readRecord r = Ok e ->
  (4 <= length r)%nat
  /\ totalSize r <= Z.of_nat (length r)
  /\ keyLen r + valLen r + 12 <= totalSize r.
Proof.
  unfold readRecord. intros H.
  destruct (decide (length r < 4)%nat) as [Hs|Hs].
  { rewrite readNext_short in H by assumption. discriminate. }
  destruct (decide (Z.of_nat (length r) < totalSize r)) as [Ht|Ht].
  { rewrite readNext_truncated in H by lia. discriminate. }
  rewrite readNext_complete in H by lia. cbn [fst mbind result_bind] in H.
  pose proof (totalSize_range r) as R.
  set (n := Z.to_nat (totalSize r)) in *.
  assert (Hn : Z.of_nat (length (firstn n r)) = totalSize r)
    by (rewrite length_firstn; lia).
  pose proof (Decode_Ok_fields _ _ H ltac:(lia)) as F.
  assert (Hge : 0 <= keyLen (firstn n r) /\ 0 <= valLen (firstn n r)).
  { unfold keyLen, valLen.
    split; (destruct (Bytes.Uint32 _) eqn:E; cbn;
            [apply Uint32_range in E; lia | lia]). }
  assert (HkL : keyLen (firstn n r) = keyLen r).
  { unfold keyLen. rewrite skipn_firstn_comm, Uint32_firstn by lia.
    reflexivity. }
  assert (HvL : valLen (firstn n r) = valLen r).
  { unfold valLen. rewrite HkL.
    rewrite skipn_firstn_comm, Uint32_firstn; [reflexivity|].
    rewrite <- HkL. lia. }
  rewrite HkL, HvL in F. lia.
Qed.

Lemma readRecord_Err_cases r err :
  readRecord r = Err err ->
  (err = EOF /\ (length r < 4)%nat)
  \/ (err = ErrUnexpectedEOF /\ Z.of_nat (length r) < totalSize r).
Proof.
  intros H. unfold readRecord in H.
  destruct (decide (length r < 4)%nat) as [Hs|Hs].
  { rewrite readNext_short in H by assumption. injection H as <-. auto. }
  destruct (decide (Z.of_nat (length r) < totalSize r)) as [Ht|Ht].
  { rewrite readNext_truncated in H by lia. injection H as <-. auto. }
  rewrite readNext_complete in H by lia. cbn [fst mbind result_bind] in H.
  now apply Decode_no_error in H.
Qed.

(** C4, as amended: the path reports an error exactly for truncated input,
    [io.EOF] when fewer than four bytes remain and [io.ErrUnexpectedEOF]
    when fewer than [total_size] bytes remain; there is no corrupt-record
    error; it succeeds only on a complete frame whose length fields satisfy
    [key_len + val_len + 12 <= total_size]. *)
Theorem read_path_outcomes (r : list byte) :
  ((length r < 4)%nat -> readRecord r = Err EOF)
  /\ ((4 <= length r)%nat -> Z.of_nat (length r) < totalSize r ->
      readRecord r = Err ErrUnexpectedEOF)
  /\ (forall err, readRecord r = Err err ->
      (err = EOF /\ (length r < 4)%nat)
      \/ (err = ErrUnexpectedEOF /\ Z.of_nat (length r) < totalSize r))
  /\ (forall e, readRecord r = Ok e ->
      (4 <= length r)%nat
      /\ totalSize r <= Z.of_nat (length r)
      /\ keyLen r + valLen r + 12 <= totalSize r).
Proof.
  split; [|split; [|split]].
  - intros H. unfold readRecord. now rewrite readNext_short.
  - intros H4 Ht. unfold readRecord. now rewrite readNext_truncated.
  - apply readRecord_Err_cases.
  - apply readRecord_Ok_fields.
Qed.

Lemma read_path_outcomes_witness :
  readRecord [Byte.x34; Byte.x00; Byte.x00] = Err EOF
  /\ readRecord [Byte.x34; Byte.x00; Byte.x00; Byte.x00; Byte.x01]
     = Err ErrUnexpectedEOF.
Proof.
  split.
  - apply (proj1 (read_path_outcomes [Byte.x34; Byte.x00; Byte.x00])).
    cbn. lia.
  - apply (proj1 (proj2 (read_path_outcomes
                           [Byte.x34; Byte.x00; Byte.x00; Byte.x00; Byte.x01]))).
    + cbn. lia.
    + vm_compute. reflexivity.
Defined.

(** C4, as stated, fails: a frame whose [total_size] is zero makes the
    path panic, and a complete frame of twelve bytes, shorter than any
    frame that carries a hash, is accepted. *)
Lemma read_path_no_corrupt_error :
  totalSize zeroFrame = 0
  /\ readRecord zeroFrame = Panic
  /\ totalSize hashlessFrame = 12
  /\ readRecord hashlessFrame = Ok (mkEntry "" "" "").
Proof. vm_compute. repeat split; reflexivity. Qed.

(** ** Termination of the recovery scan *)

Lemma Decode_Ok_nonempty data e : Decode data = Ok e -> (4 <= length data)%nat.
Proof.
  unfold Decode.
  destruct (Bytes.sliceFrom 4 data) as [s4|] eqn:E; [|discriminate].
  intros _. apply sliceFrom_Some in E. lia.
Qed.

Lemma readNext_Ok_length r data r' :
  readNext r = (Ok data, r') ->
  (length r = length data + length r')%nat.
Proof.
  unfold readNext. case_decide; [discriminate|].
  destruct (Bytes.Uint32 _) as [size|]; [|discriminate].
  case_decide; [discriminate|]. intros [= <- <-].
  rewrite length_firstn, length_skipn. lia.
Qed.

Lemma recoverLoop_result fuel : forall r offset idx,
  (length r < fuel)%nat ->
  exists res, recoverLoop fuel r offset idx = Some res
    /\ (res = Panic \/ res = Err ErrUnexpectedEOF \/ exists idx', res = Ok idx').
Proof.
  induction fuel as [|fuel IH]; intros r offset idx Hlt; [lia|].
  cbn [recoverLoop].
  destruct (readNext r) as [[data|err|] r'] eqn:E.
  - destruct (Decode data) as [e|err|] eqn:D.
    + apply IH. apply readNext_Ok_length in E.
      apply Decode_Ok_nonempty in D. lia.
    + now apply Decode_no_error in D.
    + eexists; split; [reflexivity | auto].
  - unfold readNext in E. case_decide.
    + injection E as <- <-. eexists; split; [reflexivity | eauto].
    + destruct (Bytes.Uint32 _); [|discriminate].
      case_decide; [|discriminate]. injection E as <- <-.
      eexists; split; [reflexivity | auto].
  - eexists; split; [reflexivity | auto].
Qed.

Lemma recoverLoop_more_fuel fuel : forall r offset idx res fuel',
  recoverLoop fuel r offset idx = Some res -> (fuel <= fuel')%nat ->
  recoverLoop fuel' r offset idx = Some res.
Proof.
  induction fuel as [|fuel IH]; intros r offset idx res fuel' H Hle;
    [discriminate|].
  destruct fuel' as [|fuel']; [lia|]. cbn [recoverLoop] in *.
  destruct (readNext r) as [[data|err|] r']; try assumption.
  destruct (Decode data); try assumption.
  eapply IH; [eassumption | lia].
Qed.

Lemma recoverLoop_small_frame fuel r offset idx :
  (4 <= length r)%nat -> totalSize r < 12 ->
  totalSize r <= Z.of_nat (length r) ->
  recoverLoop (S fuel) r offset idx = Some Panic.
Proof.
  intros H4 Hs Hle. cbn [recoverLoop].
  rewrite readNext_complete by assumption.
  pose proof (totalSize_range r) as R.
  destruct (Decode _) as [e|err|] eqn:D; [| now apply Decode_no_error in D | reflexivity].
  exfalso. pose proof (Decode_Ok_nonempty _ _ D) as Hn.
  pose proof (Decode_Ok_fields _ _ D) as F.
  rewrite length_firstn in F, Hn.
  assert (Hge : 0 <= keyLen (firstn (Z.to_nat (totalSize r)) r)
                /\ 0 <= valLen (firstn (Z.to_nat (totalSize r)) r)).
  { unfold keyLen, valLen.
    split; (destruct (Bytes.Uint32 _) eqn:E; cbn;
            [apply Uint32_range in E; lia | lia]). }
  lia.
Qed.

(** C10, as amended: the scan of [recoverSegment] terminates on every
    finite input: one more iteration than the input has bytes is enough,
    and with any such bound the scan ends the same way, at end-of-file
    with the rebuilt index, with [io.ErrUnexpectedEOF], or with the panic
    of [Decode]; a complete frame whose [total_size] is below twelve, zero
    included, ends it with that panic. *)
Theorem recoverLoop_terminates (r : list byte) (offset : Z)
  (idx : gmap string Z) :
  exists res,
    (forall fuel, (length r < fuel)%nat ->
       recoverLoop fuel r offset idx = Some res)
    /\ (res = Panic \/ res = Err ErrUnexpectedEOF \/ exists idx', res = Ok idx')
    /\ ((4 <= length r)%nat -> totalSize r < 12 ->
        totalSize r <= Z.of_nat (length r) -> res = Panic).
Proof.
  destruct (recoverLoop_result (S (length r)) r offset idx) as (res & H & C);
    [lia|].
  exists res. split; [|split].
  - intros fuel Hlt. eapply recoverLoop_more_fuel; [exact H | lia].
  - exact C.
  - intros H4 Hs Hle.
    rewrite recoverLoop_small_frame in H by assumption. congruence.
Qed.

Lemma recoverSegment_total fs path : exists res, recoverSegment fs path = Some res.
Proof.
  unfold recoverSegment. destruct (fs !! path) as [content|]; [|eauto].
  destruct (recoverLoop_result (S (length content)) content 0 ∅) as (res & H & _);
    [lia | eauto].
Qed.

(** C10, as stated, fails on a frame whose [total_size] is zero: with
    every bound on the iterations the scan neither reaches end-of-file nor
    returns an error; it ends with the panic of [Decode]. *)
Lemma recovery_of_zero_frame_panics :
  recoverLoop 5 zeroFrame 0 ∅ = Some Panic
  /\ ~ (exists fuel res, recoverLoop fuel zeroFrame 0 ∅ = Some res
                         /\ res <> Panic).
Proof.
  split; [reflexivity|].
  intros (fuel & res & H & Hne). destruct fuel as [|fuel]; [discriminate|].
  rewrite recoverLoop_small_frame in H;
    [congruence | cbn; lia | vm_compute; reflexivity
    | vm_compute; discriminate].
Qed.

(** ** Lookup *)

Lemma elem_of_rev {A} (l : list A) (x : A) : x ∈ rev l <-> x ∈ l.
Proof. rewrite !list_elem_of_In. symmetry. apply in_rev. Qed.

Lemma getPosFrom_Ok l k kp :
  getPosFrom l k = Ok kp ->
  segment kp ∈ l /\ index (segment kp) !! k = Some (position kp).
Proof.
  induction l as [|s l IH]; cbn; [discriminate|].
  destruct (index s !! k) as [pos|] eqn:E.
  - intros [= <-]. cbn. split; [left | assumption].
  - intros H. destruct (IH H). split; [now right | assumption].
Qed.

Lemma getPosFrom_cases l k :
  (getPosFrom l k = Err ErrNotFound /\ forall s, s ∈ l -> index s !! k = None)
  \/ (exists kp, getPosFrom l k = Ok kp).
Proof.
  induction l as [|s l IH]; cbn.
  - left. split; [reflexivity|]. intros s H. inversion H.
  - destruct (index s !! k) as [pos|] eqn:E; [right; eauto|].
    destruct IH as [[H1 H2]|H]; [left|right; assumption].
    split; [assumption|]. intros s' Hs'.
    apply elem_of_cons in Hs' as [->|Hs']; auto.
Qed.

Lemma getFromSegment_readRecord fs s pos content :
  fs !! filePath s = Some content -> 0 <= pos ->
  getFromSegment fs s pos = readRecord (skipn (Z.to_nat pos) content).
Proof.
  intros Hf Hp. unfold getFromSegment, readRecord. rewrite Hf.
  now rewrite decide_False by lia.
Qed.

Lemma getFromSegment_not_NotFound fs s pos :
  getFromSegment fs s pos <> Err ErrNotFound.
Proof.
  unfold getFromSegment. destruct (fs !! filePath s) as [content|];
    [|discriminate].
  case_decide; [discriminate|].
  intros HE. apply readRecord_Err_cases in HE.
  destruct HE as [[? _]|[? _]]; discriminate.
Qed.

(** C8: [Get] fails with [ErrNotFound] if and only if the key is absent
    from the index of every segment of the roster. *)
Theorem Get_NotFound_iff (st : St) (k : string) :
  Get st k = Err ErrNotFound
  <-> forall s, s ∈ segments st.2 -> index s !! k = None.
Proof.
  unfold Get, getPos.
  destruct (getPosFrom_cases (rev (segments st.2)) k) as [[H1 H2]|[kp H]].
  - rewrite H1. cbn. split; [|reflexivity].
    intros _ s Hs. apply H2. now apply elem_of_rev.
  - rewrite H. cbn [mbind result_bind].
    pose proof (getPosFrom_Ok _ _ _ H) as [Hin Hidx].
    split.
    + intros HG. exfalso.
      destruct (getFromSegment st.1 (segment kp) (position kp)) as [e|err|] eqn:E;
        cbn [mbind result_bind] in HG.
      * case_decide; discriminate.
      * injection HG as ->. now apply getFromSegment_not_NotFound in E.
      * discriminate.
    + intros Hall. apply elem_of_rev in Hin; rewrite ?rev_involutive in Hin.
      rewrite (Hall _ Hin) in Hidx. discriminate.
Qed.

Lemma getFromSegment_frame fs s pos pre post k v h :
  fs !! filePath s = Some (pre ++ frame k v h ++ post) ->
  pos = Z.of_nat (length pre) ->
  len k + len v + len h + 12 < 2 ^ 32 ->
  getFromSegment fs s pos = Ok (mkEntry k v h).
Proof.
  intros Hf -> Hfit.
  rewrite (getFromSegment_readRecord _ _ _ _ Hf) by lia.
  rewrite Nat2Z.id, skipn_app, skipn_all, Nat.sub_diag. cbn [app skipn].
  now apply readRecord_frame.
Qed.

(** C5: when the index sends [k] to a stored record whose hash field [h]
    (40 characters) differs from the SHA-1 digest of the stored value [v],
    as after a change of the value bytes on disk, [Get] fails with
    [ErrHashMismatch]; when the two agree, [Get] returns [v]. *)
Theorem Get_verifies_hash (st : St) (k : string) (s : Segment) (pos : Z)
  (pre post : list byte) (k' v h : string) :
  getPos st.2 k = Ok (mkKeyPosition s pos) ->
  st.1 !! filePath s = Some (pre ++ frame k' v h ++ post) ->
  pos = Z.of_nat (length pre) ->
  String.length h = 40%nat ->
  len k' + len v + 52 < 2 ^ 32 ->
  (h <> calculateHash v -> Get st k = Err ErrHashMismatch)
  /\ (h = calculateHash v -> Get st k = Ok v).
Proof.
  intros Hp Hf Hpos Hh Hfit. unfold Get. rewrite Hp.
  cbn [mbind result_bind segment position].
  rewrite (getFromSegment_frame _ _ _ _ _ _ _ _ Hf Hpos)
    by (unfold len at 3; rewrite Hh; lia).
  cbn [mbind result_bind value hash].
  split; intros H.
  - now rewrite decide_False by congruence.
  - now rewrite decide_True by congruence.
Qed.

Lemma Get_verifies_hash_witness :
  Get tamperedDb "k" = Err ErrHashMismatch.
Proof.
  apply (Get_verifies_hash tamperedDb "k"
           (mkSegment (<["k"%string := 0]> ∅) "current-data0") 0 [] []
           "k" "w" (calculateHash "v")).
  - reflexivity.
  - reflexivity.
  - reflexivity.
  - vm_compute. reflexivity.
  - vm_compute. reflexivity.
  - vm_compute. discriminate.
Defined.

(** ** The selector of the load balancer *)

Module BalancerFacts.
Import Balancer.

Lemma chooseStep_firstLeast b l acc x :
  firstLeast b l acc -> trafficOf b acc.1 <> -1 ->
  firstLeast b (l ++ [x]) (chooseStep b acc x).
Proof.
  intros (Ht & i & Hi & Hmin & Hfirst) Hne. unfold chooseStep.
  case_decide as Hd.
  - destruct Hd as [Hd|Hd]; [congruence|].
    split; [reflexivity|]. exists (length l). cbn [fst snd].
    split; [|split].
    + rewrite lookup_app_r by lia. now rewrite Nat.sub_diag.
    + intros s Hs. apply elem_of_app in Hs as [Hs|Hs].
      * specialize (Hmin s Hs). lia.
      * apply list_elem_of_singleton in Hs as ->. lia.
    + intros j s Hj Hs. rewrite lookup_app_l in Hs by lia.
      assert (Hsl : s ∈ l) by (apply list_elem_of_lookup; eauto).
      specialize (Hmin s Hsl). lia.
  - split; [assumption|]. exists i. split; [|split].
    + apply lookup_app_l_Some. assumption.
    + intros s Hs. apply elem_of_app in Hs as [Hs|Hs]; [auto|].
      apply list_elem_of_singleton in Hs as ->. lia.
    + intros j s Hj Hs.
      assert (i < length l)%nat by (eapply lookup_lt_Some; eauto).
      rewrite lookup_app_l in Hs by lia. eauto.
Qed.

Lemma fold_chooseStep_firstLeast b l x :
  (forall s, s ∈ x :: l -> trafficOf b s <> -1) ->
  firstLeast b (x :: l) (fold_left (chooseStep b) (x :: l) (""%string, -1)).
Proof.
  intros Hne. induction l as [|y l IH] using rev_ind.
  - cbn. unfold chooseStep. cbn. rewrite decide_True by auto.
    split; [reflexivity|]. exists 0%nat. cbn. split; [reflexivity|].
    split.
    + intros s Hs. apply list_elem_of_singleton in Hs as ->. lia.
    + intros j s Hj. lia.
  - rewrite app_comm_cons, fold_left_app. cbn [fold_left].
    assert (IH' : firstLeast b (x :: l)
                    (fold_left (chooseStep b) (x :: l) (""%string, -1))).
    { apply IH. intros s Hs. apply Hne. rewrite app_comm_cons.
      apply elem_of_app. now left. }
    apply chooseStep_firstLeast; [exact IH'|].
    destruct IH' as (_ & i & Hi & _). apply Hne.
    rewrite app_comm_cons. apply elem_of_app. left.
    apply list_elem_of_lookup. eauto.
Qed.

(** C9, as amended: when no healthy backend has the counter [-1] (the
    value the loop uses for "nothing chosen yet"; byte counts are never
    negative), the selector returns the backend of the healthy list with
    the least counter, the first such backend in list order; on an empty
    healthy list it returns the empty string and the front end answers
    503. *)
Theorem chooseServer_least_traffic (b : Balancer) :
  (forall s, s ∈ healthyPool b -> trafficOf b s <> -1) ->
  (healthyPool b = [] ->
     chooseServer b = ""%string /\ frontend b = ServiceUnavailable)
  /\ (healthyPool b <> [] ->
      exists i, healthyPool b !! i = Some (chooseServer b)
        /\ (forall s, s ∈ healthyPool b ->
              trafficOf b (chooseServer b) <= trafficOf b s)
        /\ (forall j s, (j < i)%nat -> healthyPool b !! j = Some s ->
              trafficOf b (chooseServer b) < trafficOf b s)).
Proof.
  intros Hne. split.
  - intros He. unfold frontend, chooseServer. rewrite He. auto.
  - intros Hnil. unfold chooseServer.
    destruct (healthyPool b) as [|x l] eqn:E; [congruence|].
    destruct (fold_chooseStep_firstLeast b l x Hne) as (Ht & i & Hi & H1 & H2).
    rewrite <- Ht. eauto.
Qed.

Lemma chooseServer_least_traffic_witness :
  (healthyPool testBalancer = [] ->
     chooseServer testBalancer = ""%string
     /\ frontend testBalancer = ServiceUnavailable)
  /\ (healthyPool testBalancer <> [] ->
      exists i, healthyPool testBalancer !! i
                = Some (chooseServer testBalancer)
        /\ (forall s, s ∈ healthyPool testBalancer ->
              trafficOf testBalancer (chooseServer testBalancer)
              <= trafficOf testBalancer s)
        /\ (forall j s, (j < i)%nat ->
              healthyPool testBalancer !! j = Some s ->
              trafficOf testBalancer (chooseServer testBalancer)
              < trafficOf testBalancer s)).
Proof.
  apply (chooseServer_least_traffic testBalancer).
  intros s Hs. cbn in Hs.
  apply elem_of_cons in Hs as [->|Hs]; [vm_compute; discriminate|].
  apply list_elem_of_singleton in Hs as ->. vm_compute. discriminate.
Defined.

(** C9, as stated, fails when a healthy backend has the counter [-1]:
    the loop takes the next backend whatever its counter is. *)
Lemma chooseServer_sentinel :
  chooseServer sentinelBalancer = "b"%string
  /\ "a"%string ∈ healthyPool sentinelBalancer
  /\ trafficOf sentinelBalancer "a" < trafficOf sentinelBalancer "b".
Proof.
  split; [reflexivity|]. split; [left|]. vm_compute. reflexivity.
Qed.

End BalancerFacts.

(** ** Put *)

Lemma length_Encode e :
  Z.of_nat (length (Encode e)) = len (key e) + len (value e) + 52.
Proof. rewrite Encode_frame, length_frame, len_calculateHash. lia. Qed.

Lemma GetLength_Put k v :
  GetLength (mkEntry k v (calculateHash v))
  = Z.of_nat (length (Encode (mkEntry k v (calculateHash v)))).
Proof.
  rewrite length_Encode. unfold GetLength, getLength. cbn [key value hash].
  rewrite len_calculateHash. lia.
Qed.

Lemma Encode_hash_irrelevant k v h h' :
  Encode (mkEntry k v h) = Encode (mkEntry k v h').
Proof. now rewrite !Encode_frame. Qed.

Lemma setKey_snoc fs db older s k n name content :
  segments db = older ++ [s] -> out db = Some name ->
  fs !! name = Some content ->
  setKey (fs, db) k n
  = Some (fs, mkDb (out db) (segmentSize db) (lastSegmentIndex db)
                   (older ++ [mkSegment
                                (<[k := Z.of_nat (length content) - n]>
                                   (index s))
                                (filePath s)])
                   (closed db)).
Proof.
  intros Hs Ho Hf. unfold setKey, outFile. cbn [fst snd mbind option_bind].
  rewrite Ho. cbn [mbind option_bind]. rewrite Hf, Hs, rev_unit.
  now rewrite rev_involutive.
Qed.

Lemma openAppendCreate_lookup fs path :
  openAppendCreate fs path !! path = Some (default [] (fs !! path)).
Proof.
  unfold openAppendCreate. destruct (fs !! path) as [c|] eqn:E; cbn.
  - exact E.
  - apply lookup_insert_eq.
Qed.

Lemma insert_openAppendCreate fs path (c : list byte) :
  <[path := c]> (openAppendCreate fs path) = <[path := c]> fs.
Proof.
  unfold openAppendCreate. destruct (fs !! path); [reflexivity|].
  apply insert_insert_eq.
Qed.

(** A [Put] on an open store whose append handle names a file. *)
Lemma Put_rollover st k v content :
  closed st.2 = false -> outFile st = Some content ->
  Z.of_nat (length content)
    + Z.of_nat (length (Encode (mkEntry k v (calculateHash v))))
    > segmentSize st.2 ->
  Put st k v = (afterRollover st k v, Ok ()).
Proof.
  destruct st as [fs db]. cbn [fst snd]. intros Hc Ho Hgt.
  unfold Put. cbn [fst snd]. rewrite Hc, Ho.
  rewrite decide_True by (rewrite GetLength_Put; lia).
  cbn [createSegment fst snd out segments].
  unfold outFile. cbn [fst snd out mbind option_bind].
  rewrite openAppendCreate_lookup.
  erewrite setKey_snoc;
    [| reflexivity | reflexivity | apply lookup_insert_eq].
  cbn [index filePath segmentSize lastSegmentIndex closed out].
  unfold afterRollover. cbn [fst snd].
  rewrite insert_openAppendCreate, Hc.
  repeat f_equal. rewrite length_app. lia.
Qed.

Lemma Put_append st k v older s content :
  closed st.2 = false ->
  segments st.2 = older ++ [s] ->
  out st.2 = Some (filePath s) ->
  st.1 !! filePath s = Some content ->
  Z.of_nat (length content)
    + Z.of_nat (length (Encode (mkEntry k v (calculateHash v))))
    <= segmentSize st.2 ->
  Put st k v = (afterAppend st older s content k v, Ok ()).
Proof.
  destruct st as [fs db]. cbn [fst snd]. intros Hc Hs Ho Hf Hle.
  unfold Put. cbn [fst snd].
  assert (HoF : outFile (fs, db) = Some content).
  { unfold outFile. cbn [fst snd]. rewrite Ho. exact Hf. }
  rewrite Hc, HoF.
  rewrite decide_False by (rewrite GetLength_Put; lia).
  cbn [fst snd]. rewrite Ho, HoF.
  erewrite setKey_snoc; [| exact Hs | exact Ho | apply lookup_insert_eq].
  unfold afterAppend. cbn [fst snd]. rewrite Hc, Ho.
  repeat f_equal. rewrite length_app. lia.
Qed.

Lemma wellFormed_outFile st :
  wellFormed st -> exists content, outFile st = Some content.
Proof.
  intros (_ & older & s & content & _ & Ho & Hf).
  exists content. unfold outFile. rewrite Ho. exact Hf.
Qed.

(** A [Put] on a well-formed store succeeds, leaves the store well formed,
    and leaves the new record last in the file of the last segment, at the
    offset the index of that segment gives for the key. *)
Lemma Put_wellFormed st k v :
  wellFormed st ->
  exists st', Put st k v = (st', Ok ())
    /\ wellFormed st'
    /\ exists older s pre,
         segments st'.2 = older ++ [s]
         /\ index s !! k = Some (Z.of_nat (length pre))
         /\ st'.1 !! filePath s
            = Some (pre ++ Encode (mkEntry k v (calculateHash v))).
Proof.
  intros (Hc & older & s & content & Hs & Ho & Hf).
  destruct (decide (Z.of_nat (length content)
    + Z.of_nat (length (Encode (mkEntry k v (calculateHash v))))
    > segmentSize st.2)) as [Hgt|Hle].
  - exists (afterRollover st k v). split; [|split].
    + eapply Put_rollover;
        [exact Hc | unfold outFile; rewrite Ho; exact Hf | lia].
    + split; [reflexivity|]. unfold afterRollover. cbn [fst snd segments out].
      eexists _, _, _. split; [reflexivity|]. cbn [filePath].
      split; [reflexivity|]. apply lookup_insert_eq.
    + unfold afterRollover. cbn [fst snd segments].
      eexists _, _, _. split; [reflexivity|]. cbn [index filePath].
      split; [apply lookup_insert_eq|]. apply lookup_insert_eq.
  - exists (afterAppend st older s content k v). split; [|split].
    + eapply Put_append; [exact Hc | exact Hs | exact Ho | exact Hf | lia].
    + split; [reflexivity|]. unfold afterAppend. cbn [fst snd segments out].
      eexists _, _, _. split; [reflexivity|]. cbn [filePath].
      split; [exact Ho|]. apply lookup_insert_eq.
    + unfold afterAppend. cbn [fst snd segments].
      eexists _, _, _. split; [reflexivity|]. cbn [index filePath].
      split; [apply lookup_insert_eq|]. apply lookup_insert_eq.
Qed.

Lemma getPos_last (db : Db) older s k pos :
  segments db = older ++ [s] -> index s !! k = Some pos ->
  getPos db k = Ok (mkKeyPosition s pos).
Proof.
  intros Hs Hi. unfold getPos. rewrite Hs, rev_unit. cbn. now rewrite Hi.
Qed.

(** What [Get] returns for a key whose newest index entry points at the
    last record of a file: the outcome of reading that record back. *)
Lemma Get_last_record st k older s pre data :
  segments st.2 = older ++ [s] ->
  index s !! k = Some (Z.of_nat (length pre)) ->
  st.1 !! filePath s = Some (pre ++ data) ->
  Get st k
  = (entry ← readRecord data;
     if decide (calculateHash (value entry) = hash entry)
     then Ok (value entry) else Err ErrHashMismatch).
Proof.
  intros Hs Hi Hf. unfold Get.
  rewrite (getPos_last _ _ _ _ _ Hs Hi). cbn [mbind result_bind segment position].
  rewrite (getFromSegment_readRecord _ _ _ _ Hf) by lia.
  now rewrite Nat2Z.id, skipn_app, skipn_all, Nat.sub_diag.
Qed.

Lemma Get_after_Put st st' k v :
  wellFormed st -> Put st k v = (st', Ok ()) -> fits k v ->
  Get st' k = Ok v.
Proof.
  intros Hwf HP Hfit.
  destruct (Put_wellFormed st k v Hwf) as (st'' & HP' & _ & older & s & pre & Hs & Hi & Hf).
  rewrite HP in HP'. injection HP' as <-.
  rewrite (Get_last_record _ _ _ _ _ _ Hs Hi Hf).
  rewrite Encode_frame. cbn [key value].
  rewrite <- (app_nil_r (frame _ _ _)).
  rewrite readRecord_frame
    by (rewrite len_calculateHash; unfold fits in Hfit; lia).
  cbn [mbind result_bind value hash]. now rewrite decide_True.
Qed.

(** ** The store that NewDb returns *)

Lemma recoverFile_Ok fs acc fileName db' :
  recoverFile fs acc fileName = Some (Ok db') ->
  exists db idx,
    acc = Some (Ok db)
    /\ is_Some (fs !! fileName)
    /\ closed db' = closed db
    /\ segments db' = segments db ++ [mkSegment idx fileName].
Proof.
  unfold recoverFile. destruct acc as [[db| |]|]; try discriminate.
  unfold recoverSegment. destruct (fs !! fileName) as [content|] eqn:E;
    [|discriminate].
  destruct (recoverLoop _ _ _ _) as [[idx| |]|]; try discriminate.
  intros [= <-]. exists db, idx. cbn. eauto.
Qed.

Lemma fold_recoverFile_files fs l : forall acc db',
  fold_left (recoverFile fs) l acc = Some (Ok db') ->
  exists db,
    acc = Some (Ok db)
    /\ closed db' = closed db
    /\ ((forall s, s ∈ segments db -> is_Some (fs !! filePath s)) ->
        forall s, s ∈ segments db' -> is_Some (fs !! filePath s)).
Proof.
  induction l as [|name l IH]; intros acc db' H; cbn [fold_left] in H.
  - exists db'. auto.
  - destruct (IH _ _ H) as (db1 & H1 & Hc & Hf).
    destruct (recoverFile_Ok _ _ _ _ H1) as (db & idx & -> & Hn & Hc1 & Hs1).
    exists db. split; [reflexivity|]. split; [congruence|].
    intros Hdb. apply Hf. intros s Hin. rewrite Hs1 in Hin.
    apply elem_of_app in Hin as [Hin|Hin]; [auto|].
    apply list_elem_of_singleton in Hin as ->. exact Hn.
Qed.

(** Whatever the directory holds, the store of a successful [NewDb] is
    well formed. *)
Lemma NewDb_wellFormed fs budget st :
  NewDb fs budget = Some (Ok st) -> wellFormed st.
Proof.
  unfold NewDb, recoverAll.
  destruct (fold_left _ _ _) as [[db| |]|] eqn:E; try discriminate.
  destruct (fold_recoverFile_files _ _ _ _ E) as (db0 & [= <-] & Hc & Hf).
  cbn [closed segments] in Hc, Hf.
  assert (Hfiles : forall s, s ∈ segments db -> is_Some (fs !! filePath s)).
  { apply Hf. intros s Hin. inversion Hin. }
  destruct (rev (segments db)) as [|lastSegment older] eqn:Er.
  - intros [= <-]. split; [exact Hc|].
    exists (segments db), (mkSegment ∅ (generateNewFileName
                                          (lastSegmentIndex db + 1))), 
      (default [] (fs !! generateNewFileName (lastSegmentIndex db + 1))).
    cbn [createSegment fst snd segments out filePath].
    split; [reflexivity|]. split; [reflexivity|].
    apply openAppendCreate_lookup.
  - intros [= <-]. split; [exact Hc|].
    assert (Hs : segments db = rev older ++ [lastSegment]).
    { rewrite <- (rev_involutive (segments db)), Er. reflexivity. }
    destruct (Hfiles lastSegment) as [content Hcont].
    { rewrite Hs. apply elem_of_app. right. left. }
    exists (rev older), lastSegment, content. cbn [fst snd segments out].
    auto.
Qed.

Lemma NewDb_empty size : NewDb ∅ size = Some (Ok (freshDb size)).
Proof. reflexivity. Qed.

Lemma wellFormed_freshDb size : wellFormed (freshDb size).
Proof.
  split; [reflexivity|].
  exists [], (mkSegment ∅ (generateNewFileName 0)), [].
  split; [reflexivity|]. split; [reflexivity|]. apply lookup_insert_eq.
Qed.

(** C6, as amended: on a well-formed store, after [Put k v1] and then
    [Put k v2] have both succeeded, if the record of [k] and [v2] fits the
    frame ([len k + len v2 + 52 < 2^32]), [Get k] returns [v2]: the lookup
    scans the roster newest first, and the index of the last segment sends
    [k] to the start of the record appended last. *)
Theorem latest_put_wins (st st1 st2 : St) (k v1 v2 : string) :
  wellFormed st -> fits k v2 ->
  Put st k v1 = (st1, Ok ()) -> Put st1 k v2 = (st2, Ok ()) ->
  Get st2 k = Ok v2
  /\ exists older s pre,
       segments st2.2 = older ++ [s]
       /\ getPos st2.2 k = Ok (mkKeyPosition s (Z.of_nat (length pre)))
       /\ st2.1 !! filePath s
          = Some (pre ++ Encode (mkEntry k v2 (calculateHash v2))).
Proof.
  intros Hwf Hfit H1 H2.
  destruct (Put_wellFormed st k v1 Hwf) as (st1' & H1' & Hwf1 & _).
  rewrite H1 in H1'. injection H1' as <-.
  split; [eapply Get_after_Put; eauto|].
  destruct (Put_wellFormed st1 k v2 Hwf1)
    as (st2' & H2' & _ & older & s & pre & Hs & Hi & Hf).
  rewrite H2 in H2'. injection H2' as <-.
  exists older, s, pre. split; [exact Hs|]. split; [|exact Hf].
  eapply getPos_last; eauto.
Qed.

Lemma latest_put_wins_witness :
  Get (Put (Put (freshDb 100) "k" "old").1 "k" "new").1 "k" = Ok "new"%string.
Proof.
  apply (latest_put_wins (freshDb 100) (Put (freshDb 100) "k" "old").1
           (Put (Put (freshDb 100) "k" "old").1 "k" "new").1
           "k" "old" "new").
  - apply wellFormed_freshDb.
  - vm_compute. reflexivity.
  - vm_compute. reflexivity.
  - vm_compute. reflexivity.
Defined.

Lemma readRecord_zero_size r :
  (4 <= length r)%nat -> totalSize r = 0 -> readRecord r = Panic.
Proof.
  intros H4 H0. unfold readRecord.
  rewrite readNext_complete by (rewrite ?H0; lia).
  rewrite H0. reflexivity.
Qed.

Lemma Get_after_Put_wrapped (st : St) (k v : string) :
  wellFormed st -> len k + len v + 52 = 2 ^ 32 ->
  (Put st k v).2 = Ok () /\ Get (Put st k v).1 k = Panic.
Proof.
  intros Hwf Hlen.
  destruct (Put_wellFormed st k v Hwf)
    as (st' & HP & _ & older & s & pre & Hs & Hi & Hf).
  rewrite HP. cbn [fst snd]. split; [reflexivity|].
  rewrite (Get_last_record _ _ _ _ _ _ Hs Hi Hf).
  rewrite readRecord_zero_size; [reflexivity | |].
  - pose proof (length_Encode (mkEntry k v (calculateHash v))) as L.
    cbn [key value] in L. pose proof (len_nonneg k). pose proof (len_nonneg v).
    lia.
  - rewrite Encode_frame. cbn [key value].
    rewrite <- (app_nil_r (frame _ _ _)), totalSize_frame, len_calculateHash.
    replace (len k + len v + 40 + 12) with (2 ^ 32) by lia. reflexivity.
Qed.

Lemma len_bigValue : len bigValue = 2 ^ 32 - 53.
Proof.
  unfold len, bigValue. rewrite replicate_length. apply Z2Nat.id. lia.
Qed.

Lemma wrapped_put_lost (v : string) :
  len v = 2 ^ 32 - 53 ->
  (Put (Put (freshDb 100) "k" "old").1 "k" v).2 = Ok ()
  /\ Get (Put (Put (freshDb 100) "k" "old").1 "k" v).1 "k" = Panic.
Proof.
  intros L. apply Get_after_Put_wrapped.
  - destruct (Put_wellFormed (freshDb 100) "k" "old" (wellFormed_freshDb 100))
      as (st' & HP & Hwf & _).
    rewrite HP. exact Hwf.
  - rewrite L. reflexivity.
Qed.

(** C6, as stated, fails when the second record does not fit the frame:
    after [Put k old] and [Put k bigValue], both successful, the
    [total_size] field of the second record has wrapped to zero and [Get k]
    panics in [Decode]. *)
Lemma latest_put_lost_on_wrap :
  (Put (Put (freshDb 100) "k" "old").1 "k" bigValue).2 = Ok ()
  /\ Get (Put (Put (freshDb 100) "k" "old").1 "k" bigValue).1 "k" = Panic.
Proof. exact (wrapped_put_lost bigValue len_bigValue). Qed.

(** ** Segment files of a store opened on an empty directory *)

Lemma segmentName_inj i j : segmentName i = segmentName j -> i = j.
Proof.
  unfold segmentName, generateNewFileName. intros H.
  apply (inj (String.app outFileName)) in H.
  apply (inj pretty) in H. lia.
Qed.

Lemma segmentName_succ n :
  generateNewFileName (Z.of_nat n + 1) = segmentName (S n).
Proof. unfold segmentName. f_equal. lia. Qed.

Lemma NoDup_segmentNames n : NoDup (segmentName <$> seq 0 n).
Proof.
  apply NoDup_fmap_2; [|apply NoDup_seq].
  intros i j. apply segmentName_inj.
Qed.

Lemma totalLength_snoc kvs k v :
  totalLength (kvs ++ [(k, v)])
  = totalLength kvs
    + Z.of_nat (length (Encode (mkEntry k v (calculateHash v)))).
Proof.
  unfold totalLength. induction kvs as [|kv kvs IH]; cbn [app fold_right fst snd].
  - rewrite (Encode_hash_irrelevant k v "" (calculateHash v)). lia.
  - rewrite IH. lia.
Qed.

Lemma layout_freshDb size : layout size [] (freshDb size) 0.
Proof.
  split; try reflexivity.
  - intros _. exists []. split; [|reflexivity]. apply lookup_insert_eq.
  - intros _ H. congruence.
Qed.

Lemma layout_active size kvs st n :
  layout size kvs st n ->
  exists older s content,
    segments st.2 = older ++ [s]
    /\ filePath s = segmentName n
    /\ st.1 !! segmentName n = Some content.
Proof.
  intros L. pose proof (l_paths _ _ _ _ L) as Hp.
  rewrite seq_S, fmap_app in Hp. cbn [fmap list_fmap Nat.add] in Hp.
  apply fmap_app_inv in Hp as (older & last & _ & Hl & Hs).
  destruct last as [|s [|s' last]]; try discriminate.
  injection Hl as Hl.
  assert (Hin : segmentName n ∈ dom st.1).
  { rewrite (l_dom _ _ _ _ L). apply elem_of_list_to_set.
    apply list_elem_of_fmap. exists n. split; [reflexivity|].
    apply elem_of_seq. lia. }
  apply elem_of_dom in Hin as [content Hc].
  exists older, s, content. auto.
Qed.

Lemma layout_Put size kvs st n k v :
  layout size kvs st n ->
  exists st' n',
    Put st k v = (st', Ok ())
    /\ layout size (kvs ++ [(k, v)]) st' n'
    /\ (n <= n')%nat.
Proof.
  intros L.
  destruct (layout_active _ _ _ _ L) as (older & s & content & Hs & Hp & Hf).
  pose proof (l_closed _ _ _ _ L) as Hc.
  pose proof (l_out _ _ _ _ L) as Ho.
  pose proof (l_size _ _ _ _ L) as Hz.
  pose proof (l_last _ _ _ _ L) as Hl.
  destruct (decide (Z.of_nat (length content)
                    + Z.of_nat (length (Encode (mkEntry k v (calculateHash v))))
                    > segmentSize st.2)) as [Hgt|Hle].
  - exists (afterRollover st k v), (S n). split; [|split; [|lia]].
    + eapply Put_rollover; [exact Hc | | exact Hgt].
      unfold outFile. rewrite Ho. exact Hf.
    + unfold afterRollover. rewrite Hl, segmentName_succ.
      split; cbn [fst snd closed segmentSize lastSegmentIndex out segments].
      * reflexivity.
      * exact Hz.
      * lia.
      * reflexivity.
      * rewrite fmap_app, (l_paths _ _ _ _ L).
        rewrite (seq_S (S n)), fmap_app. reflexivity.
      * rewrite dom_insert_L, (l_dom _ _ _ _ L).
        rewrite (seq_S (S n)), fmap_app, list_to_set_app_L.
        cbn [fmap list_fmap Nat.add]. rewrite list_to_set_singleton_L.
        apply (comm_L (∪)).
      * intros H. discriminate H.
      * intros H. discriminate H.
  - exists (afterAppend st older s content k v), n. split; [|split; [|lia]].
    + eapply Put_append; [exact Hc | exact Hs | | | lia].
      * rewrite Ho. now rewrite Hp.
      * now rewrite Hp.
    + unfold afterAppend. rewrite Hp.
      split; cbn [fst snd closed segmentSize lastSegmentIndex out segments].
      * reflexivity.
      * exact Hz.
      * exact Hl.
      * exact Ho.
      * rewrite <- (l_paths _ _ _ _ L), Hs, !fmap_app. cbn. now rewrite Hp.
      * rewrite dom_insert_L, (l_dom _ _ _ _ L).
        apply subseteq_union_1_L, singleton_subseteq_l.
        apply elem_of_list_to_set, list_elem_of_fmap. exists n.
        split; [reflexivity|]. apply elem_of_seq. lia.
      * intros ->. rewrite lookup_insert_eq. eexists. split; [reflexivity|].
        destruct (l_single _ _ _ _ L eq_refl) as (c & Hc0 & Hlen).
        rewrite Hf in Hc0. injection Hc0 as <-.
        rewrite length_app, totalLength_snoc. lia.
      * intros -> _.
        destruct (l_single _ _ _ _ L eq_refl) as (c & Hc0 & Hlen).
        rewrite Hf in Hc0. injection Hc0 as <-.
        rewrite totalLength_snoc. lia.
Qed.

Lemma layout_PutAll size kvs : forall kvs0 st n,
  layout size kvs0 st n ->
  exists st' n',
    PutAll st kvs = (st', Ok ())
    /\ layout size (kvs0 ++ kvs) st' n'
    /\ (n <= n')%nat.
Proof.
  induction kvs as [|[k v] kvs IH]; intros kvs0 st n L.
  - exists st, n. rewrite app_nil_r. auto.
  - destruct (layout_Put _ _ _ _ k v L) as (st1 & n1 & HP & L1 & Hn).
    destruct (IH _ _ _ L1) as (st' & n' & HA & L' & Hn').
    exists st', n'. cbn [PutAll]. rewrite HP.
    rewrite <- app_assoc in L'. cbn [app] in L'.
    split; [exact HA|]. split; [exact L' | lia].
Qed.

Lemma layout_files budget kvs st n :
  layout budget kvs st n -> size (dom st.1) = S n.
Proof.
  intros L. rewrite (l_dom _ _ _ _ L).
  rewrite size_list_to_set by apply NoDup_segmentNames.
  now rewrite length_fmap, length_seq.
Qed.

(** C7: a [Put] on an open store whose roster ends with the file open for
    append first compares the size of that file plus the length of the
    encoded record with [segmentSize]. If the sum is strictly greater, the
    segment file named by the next index is created, becomes the append
    target and the last segment of the roster, and the record is written to
    it; otherwise, also when the record exactly fills the budget, the
    record is appended to the active file. Consequently, on a store opened
    on an empty directory, a non-empty sequence of [Put]s that writes more
    than [segmentSize] bytes succeeds and leaves more than one file. *)
Theorem rollover_before_write :
  (forall (st : St) (k v : string) (older : list Segment) (s : Segment)
          (content : list byte),
     closed st.2 = false ->
     segments st.2 = older ++ [s] ->
     out st.2 = Some (filePath s) ->
     st.1 !! filePath s = Some content ->
     let n := Z.of_nat (length (Encode (mkEntry k v (calculateHash v)))) in
     (Z.of_nat (length content) + n > segmentSize st.2 ->
      Put st k v = (afterRollover st k v, Ok ()))
     /\ (Z.of_nat (length content) + n <= segmentSize st.2 ->
         Put st k v = (afterAppend st older s content k v, Ok ())))
  /\ (forall (budget : Z) (kvs : list (string * string)),
        kvs <> [] -> totalLength kvs > budget ->
        (PutAll (freshDb budget) kvs).2 = Ok ()
        /\ (1 < size (dom (PutAll (freshDb budget) kvs).1.1))%nat).
Proof.
  split.
  - intros st k v older s content Hc Hs Ho Hf n. split.
    + intros Hgt. eapply Put_rollover; [exact Hc | | exact Hgt].
      unfold outFile. rewrite Ho. exact Hf.
    + intros Hle. now apply Put_append.
  - intros budget kvs Hne Hgt.
    destruct (layout_PutAll budget kvs [] _ _ (layout_freshDb budget))
      as (st' & n' & HA & L & _).
    rewrite HA. cbn [fst snd app] in *. split; [reflexivity|].
    rewrite (layout_files _ _ _ _ L).
    destruct n' as [|n']; [|lia].
    pose proof (l_budget _ _ _ _ L eq_refl Hne). lia.
Qed.

Lemma rollover_before_write_witness :
  Put (Put (freshDb 100) "k" "old").1 "k" "new"
  = (afterRollover (Put (freshDb 100) "k" "old").1 "k" "new", Ok ())
  /\ (1 < size (dom (PutAll (freshDb 100)
                       [("k", "old"); ("k", "new")]%string).1.1))%nat.
Proof.
  split.
  - pose proof (proj1 rollover_before_write
                  (Put (freshDb 100) "k" "old").1 "k" "new" []
                  (mkSegment (<["k"%string := 0]> ∅) "current-data0")
                  (Encode (mkEntry "k" "old" ""))) as H.
    assert (H1 : closed (Put (freshDb 100) "k" "old").1.2 = false)
      by (vm_compute; reflexivity).
    assert (H2 : segments (Put (freshDb 100) "k" "old").1.2
                 = [] ++ [mkSegment (<["k"%string := 0]> ∅) "current-data0"])
      by (vm_compute; reflexivity).
    assert (H3 : out (Put (freshDb 100) "k" "old").1.2
                 = Some (filePath (mkSegment (<["k"%string := 0]> ∅)
                                             "current-data0")))
      by (vm_compute; reflexivity).
    assert (H4 : (Put (freshDb 100) "k" "old").1.1
                   !! filePath (mkSegment (<["k"%string := 0]> ∅)
                                          "current-data0")
                 = Some (Encode (mkEntry "k" "old" "")))
      by (vm_compute; reflexivity).
    specialize (H H1 H2 H3 H4). cbv zeta in H. destruct H as [H _].
    apply H. vm_compute. reflexivity.
  - apply (proj2 rollover_before_write 100
             [("k", "old"); ("k", "new")]%string).
    + discriminate.
    + vm_compute. reflexivity.
Defined.

(** ** Compaction *)

Lemma keepSegment_lookup keys s k :
  keepSegment keys s !! k
  = match keys !! k with
    | Some kp => Some kp
    | None => mkKeyPosition s <$> index s !! k
    end.
Proof.
  unfold keepSegment. revert k.
  apply (map_fold_weak_ind
    (fun r (m : gmap string Z) => forall k,
       r !! k = match keys !! k with
                | Some kp => Some kp
                | None => mkKeyPosition s <$> m !! k
                end)).
  - intros k. rewrite lookup_empty. now destruct (keys !! k).
  - intros i x m r Hm IH k.
    pose proof (IH i) as IHi. rewrite Hm in IHi.
    destruct (r !! i) as [kp|] eqn:Er.
    + destruct (keys !! i) as [kp'|] eqn:Ek; [|discriminate].
      rewrite IH. destruct (decide (k = i)) as [->|Hne].
      * now rewrite Ek.
      * now rewrite lookup_insert_ne by auto.
    + destruct (keys !! i) as [kp'|] eqn:Ek; [discriminate|].
      destruct (decide (k = i)) as [->|Hne].
      * rewrite !lookup_insert_eq, Ek. reflexivity.
      * rewrite !lookup_insert_ne by auto. apply IH.
Qed.

Lemma fold_keepSegment_lookup l : forall keys k,
  fold_left keepSegment l keys !! k
  = match keys !! k with
    | Some kp => Some kp
    | None => posOption (getPosFrom l k)
    end.
Proof.
  induction l as [|s l IH]; intros keys k; cbn [fold_left getPosFrom].
  - now destruct (keys !! k).
  - rewrite IH, keepSegment_lookup.
    destruct (keys !! k) as [kp|]; [reflexivity|].
    now destruct (index s !! k).
Qed.

Lemma keysToKeep_lookup sealed k :
  keysToKeep sealed !! k = posOption (getPosFrom (rev sealed) k).
Proof.
  unfold keysToKeep. rewrite fold_keepSegment_lookup.
  now rewrite lookup_empty.
Qed.

Lemma lookup_fold_delete (l : list Segment) : forall (d : Dir) p,
  fold_left (fun d s => delete (filePath s) d) l d !! p
  = if decide (p ∈ filePath <$> l) then None else d !! p.
Proof.
  induction l as [|s l IH]; intros d p; cbn [fold_left fmap list_fmap].
  - rewrite decide_False; [reflexivity|]. intros H. inversion H.
  - rewrite IH. destruct (decide (p ∈ filePath <$> l)) as [Hin|Hnin].
    + rewrite decide_True; [reflexivity|]. now right.
    + destruct (decide (p = filePath s)) as [->|Hne].
      * rewrite lookup_delete_eq. rewrite decide_True; [reflexivity|]. left.
      * rewrite lookup_delete_ne by auto.
        rewrite decide_False; [reflexivity|].
        intros H. apply elem_of_cons in H as [H|H]; auto.
Qed.

Lemma recordIn_app c c' pos k v :
  recordIn c pos k v -> recordIn (c ++ c') pos k v.
Proof.
  intros (pre & post & -> & ->). exists pre, (post ++ c').
  split; [|reflexivity]. now rewrite <- !app_assoc.
Qed.

Lemma storedAt_read fs s pos k v :
  storedAt fs s pos k v -> fits k v ->
  getFromSegment fs s pos = Ok (mkEntry k v (calculateHash v)).
Proof.
  intros (pre & post & Hf & ->) Hfit.
  eapply getFromSegment_frame; [exact Hf | reflexivity |].
  rewrite len_calculateHash. unfold fits in Hfit. lia.
Qed.

Lemma getFromSegment_same_file fs fs' s s' pos :
  fs' !! filePath s' = fs !! filePath s ->
  getFromSegment fs' s' pos = getFromSegment fs s pos.
Proof. intros H. unfold getFromSegment. now rewrite H. Qed.

Section CompactLoop.
Variable fs0 : Dir.
Variable newFilePath : string.
(** What is known of the value of a key that the loop copies. *)
Variable R : string -> string -> Prop.

Lemma compactLoop_spec (l : list (string * KeyPosition)) :
  forall (c : list byte) (idx : gmap string Z),
  NoDup l.*1 ->
  (forall k kp, (k, kp) ∈ l ->
     filePath (segment kp) <> newFilePath
     /\ exists v, storedAt fs0 (segment kp) (position kp) k v
                  /\ fits k v /\ R k v) ->
  copied R idx c ->
  exists c' idx',
    fold_left (compactStep newFilePath) l
      (Ok (<[newFilePath := c]> fs0, idx, Z.of_nat (length c)))
    = Ok (<[newFilePath := c']> fs0, idx', Z.of_nat (length c'))
    /\ copied R idx' c'
    /\ dom idx' = dom idx ∪ list_to_set l.*1.
Proof.
  induction l as [|[k kp] l IH]; intros c idx Hnd Hl Hc.
  - exists c, idx. split; [reflexivity|]. split; [exact Hc|].
    cbn [fmap list_fmap]. now rewrite list_to_set_nil, union_empty_r_L.
  - cbn [fold_left]. unfold compactStep at 2.
    cbn [mbind result_bind fst snd].
    destruct (Hl k kp ltac:(left)) as (Hne & v & Hst & Hfit & HR).
    rewrite (getFromSegment_same_file fs0 _ (segment kp) (segment kp))
      by (now rewrite lookup_insert_ne by auto).
    rewrite (storedAt_read _ _ _ _ _ Hst Hfit). cbn [value hash].
    rewrite lookup_insert_eq, insert_insert_eq.
    rewrite Encode_frame. cbn [key value].
    replace (Z.of_nat (length c)
             + Z.of_nat (length (frame k v (calculateHash v))))
      with (Z.of_nat (length (c ++ frame k v (calculateHash v))))
      by (rewrite length_app; lia).
    cbn [fmap list_fmap fst] in Hnd. apply NoDup_cons in Hnd as [Hk Hnd].
    destruct (IH (c ++ frame k v (calculateHash v))
                 (<[k := Z.of_nat (length c)]> idx) Hnd)
      as (c' & idx' & Hfold & Hc' & Hdom).
    + intros k' kp' Hin. apply Hl. now right.
    + intros k' pos Hi. destruct (decide (k' = k)) as [->|Hne'].
      * rewrite lookup_insert_eq in Hi. injection Hi as <-.
        exists v. split; [exact HR|]. split; [exact Hfit|].
        exists c, []. split; [now rewrite app_nil_r | reflexivity].
      * rewrite lookup_insert_ne in Hi by auto.
        destruct (Hc k' pos Hi) as (v' & ? & ? & ?).
        exists v'. split; [assumption|]. split; [assumption|].
        now apply recordIn_app.
    + exists c', idx'. split; [exact Hfold|]. split; [exact Hc'|].
      rewrite Hdom, dom_insert_L. cbn [fmap list_fmap fst].
      rewrite list_to_set_cons, (comm_L (∪) {[k]} (dom idx)).
      now rewrite (assoc_L (∪)).
Qed.
End CompactLoop.

Lemma Get_snoc fs db older s k :
  segments db = older ++ [s] ->
  Get (fs, db) k
  = match index s !! k with
    | Some pos =>
        entry ← getFromSegment fs s pos;
        if decide (calculateHash (value entry) = hash entry)
        then Ok (value entry) else Err ErrHashMismatch
    | None => GetIn fs older k
    end.
Proof.
  intros Hs. unfold GetIn, Get, getPos. cbn [fst snd segments].
  rewrite Hs, rev_unit. cbn [getPosFrom].
  now destruct (index s !! k).
Qed.

Lemma GetIn_stored fs segs k kp v :
  getPosFrom (rev segs) k = Ok kp ->
  storedAt fs (segment kp) (position kp) k v -> fits k v ->
  GetIn fs segs k = Ok v.
Proof.
  intros Hp Hst Hfit. unfold GetIn, Get, getPos. cbn [fst snd segments].
  rewrite Hp. cbn [mbind result_bind].
  rewrite (storedAt_read _ _ _ _ _ Hst Hfit). cbn [mbind result_bind value hash].
  now rewrite decide_True.
Qed.

Lemma GetIn_absent fs segs k :
  getPosFrom (rev segs) k = Err ErrNotFound ->
  GetIn fs segs k = Err ErrNotFound.
Proof.
  intros Hp. unfold GetIn, Get, getPos. cbn [fst snd segments].
  now rewrite Hp.
Qed.

(** [Compact] on a roster of a sealed part and an active segment, when the
    file of every segment exists, the file of the active segment is not
    the file of a sealed one, the name of the new segment is free and the
    sealed index entries are valid: the roster becomes the new segment and
    the active one, the sealed files go, and every key is answered as
    before. *)
Lemma CompactWith_spec order (st : St) sealed active :
  (forall l, order l ≡ₚ l) ->
  segments st.2 = sealed ++ [active] -> sealed <> [] ->
  (forall s, s ∈ segments st.2 -> is_Some (st.1 !! filePath s)) ->
  st.1 !! generateNewFileName (lastSegmentIndex st.2 + 1) = None ->
  filePath active ∉ filePath <$> sealed ->
  validIn st.1 sealed ->
  exists fs' idx' c',
    CompactWith order st
    = ((fs', mkDb (out st.2) (segmentSize st.2) (lastSegmentIndex st.2 + 1)
                  [mkSegment idx'
                     (generateNewFileName (lastSegmentIndex st.2 + 1));
                   active]
                  (closed st.2)), Ok ())
    /\ (forall p, fs' !! p
                  = if decide (p ∈ filePath <$> sealed) then None
                    else if decide
                              (p = generateNewFileName
                                     (lastSegmentIndex st.2 + 1))
                         then Some c' else st.1 !! p)
    /\ (forall k,
          GetIn fs' [mkSegment idx'
                       (generateNewFileName (lastSegmentIndex st.2 + 1))] k
          = GetIn st.1 sealed k)
    /\ (forall k,
          Get (fs', mkDb (out st.2) (segmentSize st.2)
                         (lastSegmentIndex st.2 + 1)
                         [mkSegment idx'
                            (generateNewFileName (lastSegmentIndex st.2 + 1));
                          active]
                         (closed st.2)) k
          = Get st k).
Proof.
  destruct st as [fs db]. cbn [fst snd].
  intros Hperm Hs Hne Hfiles Hnew Hact Hval.
  set (new := generateNewFileName (lastSegmentIndex db + 1)) in *.
  assert (Hnewseg : forall s, s ∈ segments db -> filePath s <> new).
  { intros s Hin Heq. destruct (Hfiles s Hin) as [c Hc].
    rewrite Heq, Hnew in Hc. discriminate. }
  set (keep := keysToKeep sealed).
  set (R := fun k v => exists kp, getPosFrom (rev sealed) k = Ok kp
                        /\ storedAt fs (segment kp) (position kp) k v).
  assert (Hkeep : forall k kp, keep !! k = Some kp ->
                               getPosFrom (rev sealed) k = Ok kp).
  { intros k kp H. unfold keep in H. rewrite keysToKeep_lookup in H.
    destruct (getPosFrom (rev sealed) k); cbn in H; congruence. }
  destruct (compactLoop_spec fs new R (order (map_to_list keep)) [] ∅)
    as (c' & idx' & Hfold & Hcop & Hdom).
  { rewrite (Hperm (map_to_list keep)). apply NoDup_fst_map_to_list. }
  { intros k kp Hin. rewrite (Hperm (map_to_list keep)) in Hin.
    apply elem_of_map_to_list in Hin. apply Hkeep in Hin.
    destruct (getPosFrom_Ok _ _ _ Hin) as [Hseg Hidx].
    apply (proj1 (elem_of_rev _ _)) in Hseg.
    split.
    - apply Hnewseg. rewrite Hs. apply elem_of_app. now left.
    - destruct (Hval _ _ _ Hseg Hidx) as (v & Hst & Hfit).
      exists v. split; [exact Hst|]. split; [exact Hfit|].
      exists kp. auto. }
  { intros k pos H. rewrite lookup_empty in H. discriminate. }
  set (fs' := fold_left (fun d s => delete (filePath s) d) sealed
                        (<[new := c']> fs)).
  exists fs', idx', c'.
  assert (Hlook : forall p, fs' !! p
            = if decide (p ∈ filePath <$> sealed) then None
              else if decide (p = new) then Some c' else fs !! p).
  { intros p. unfold fs'. rewrite lookup_fold_delete.
    destruct (decide (p ∈ filePath <$> sealed)); [reflexivity|].
    destruct (decide (p = new)) as [->|Hp].
    - apply lookup_insert_eq.
    - now rewrite lookup_insert_ne by auto. }
  assert (Hnewsealed : new ∉ filePath <$> sealed).
  { intros Hin. apply list_elem_of_fmap in Hin as (s & Heq & Hin).
    apply (Hnewseg s); [|now symmetry].
    rewrite Hs. apply elem_of_app. now left. }
  assert (Hsealed : forall k,
    GetIn fs' [mkSegment idx' new] k = GetIn fs sealed k).
  { intros k.
    destruct (idx' !! k) as [pos|] eqn:Ei.
    - destruct (Hcop k pos Ei) as (v & (kp & Hp & Hst) & Hfit & Hrec).
      rewrite (GetIn_stored fs sealed k kp v Hp Hst Hfit).
      apply (GetIn_stored fs' [mkSegment idx' new] k
               (mkKeyPosition (mkSegment idx' new) pos) v).
      + cbn. now rewrite Ei.
      + destruct Hrec as (pre & post & -> & ->). exists pre, post.
        split; [|reflexivity]. cbn [segment filePath]. rewrite Hlook.
        rewrite decide_False by exact Hnewsealed.
        now rewrite decide_True.
      + exact Hfit.
    - rewrite !GetIn_absent; [reflexivity | |].
      + destruct (getPosFrom_cases (rev sealed) k) as [[H _]|[kp H]];
          [exact H|].
        exfalso. apply not_elem_of_dom in Ei. apply Ei. rewrite Hdom.
        apply elem_of_union. right. apply elem_of_list_to_set.
        rewrite (Hperm (map_to_list keep)).
        apply list_elem_of_fmap. exists (k, kp). split; [reflexivity|].
        apply elem_of_map_to_list. unfold keep.
        rewrite keysToKeep_lookup, H. reflexivity.
      + cbn. now rewrite Ei. }
  split; [|split; [exact Hlook | split; [exact Hsealed|]]].
  - unfold CompactWith. rewrite Hs.
    rewrite decide_False
      by (rewrite length_app; destruct sealed; [congruence | cbn; lia]).
    rewrite rev_unit.
    replace (firstn (length (sealed ++ [active]) - 1) (sealed ++ [active]))
      with sealed
      by (rewrite length_app; cbn [length];
          replace (length sealed + 1 - 1)%nat with (length sealed) by lia;
          now rewrite firstn_app, firstn_all, Nat.sub_diag, firstn_O, app_nil_r).
    fold new. fold keep.
    unfold openAppendCreate. rewrite Hnew.
    change 0 with (Z.of_nat (length (@nil byte))) at 1.
    rewrite Hfold. reflexivity.
  - intros k.
    rewrite (Get_snoc fs' _ [mkSegment idx' new] active k) by reflexivity.
    rewrite (Get_snoc fs db sealed active k Hs).
    destruct (index active !! k) as [pos|]; [|apply Hsealed].
    rewrite (getFromSegment_same_file fs fs' active active); [reflexivity|].
    rewrite Hlook. rewrite decide_False by exact Hact.
    rewrite decide_False; [reflexivity|].
    apply Hnewseg. rewrite Hs. apply elem_of_app. right. left.
Qed.

(** ** The records of a store after a sequence of Puts *)

Lemma extends_insert (fs : Dir) p (c : list byte) :
  extends fs (<[p := default [] (fs !! p) ++ c]> fs).
Proof.
  intros q d Hq. destruct (decide (q = p)) as [->|Hne].
  - rewrite lookup_insert_eq, Hq. cbn. eauto.
  - rewrite lookup_insert_ne by auto. exists []. now rewrite app_nil_r.
Qed.

Lemma storedAt_extends fs fs' s s' pos k v :
  extends fs fs' -> filePath s' = filePath s ->
  storedAt fs s pos k v -> storedAt fs' s' pos k v.
Proof.
  intros He Hp (pre & post & Hf & ->).
  destruct (He _ _ Hf) as (suffix & Hf').
  exists pre, (post ++ suffix). split; [|reflexivity].
  rewrite Hp, Hf'. now rewrite <- !app_assoc.
Qed.

Lemma storedAt_last fs s pre k v :
  fs !! filePath s = Some (pre ++ Encode (mkEntry k v (calculateHash v))) ->
  storedAt fs s (Z.of_nat (length pre)) k v.
Proof.
  intros Hf. exists pre, []. split; [|reflexivity].
  rewrite Hf, Encode_frame. cbn [key value]. now rewrite app_nil_r.
Qed.

Lemma latest_snoc kvs k v k0 :
  latest (kvs ++ [(k, v)]) k0
  = if decide (k = k0) then Some v else latest kvs k0.
Proof.
  induction kvs as [|[k1 v1] kvs IH]; cbn [app latest].
  - reflexivity.
  - rewrite IH. destruct (decide (k = k0)); [reflexivity|].
    reflexivity.
Qed.

Lemma getPos_snoc db older s k :
  segments db = older ++ [s] ->
  getPos db k
  = match index s !! k with
    | Some pos => Ok (mkKeyPosition s pos)
    | None => getPosFrom (rev older) k
    end.
Proof. intros Hs. unfold getPos. now rewrite Hs, rev_unit. Qed.

Lemma history_append st kvs older s content k v :
  segments st.2 = older ++ [s] ->
  st.1 !! filePath s = Some content ->
  validIn st.1 (segments st.2) -> agrees st kvs -> fits k v ->
  validIn (afterAppend st older s content k v).1
          (segments (afterAppend st older s content k v).2)
  /\ agrees (afterAppend st older s content k v) (kvs ++ [(k, v)]).
Proof.
  destruct st as [fs db]. cbn [fst snd]. intros Hs Hf Hval Hag Hfit.
  unfold afterAppend. cbn [fst snd segments].
  set (s' := mkSegment (<[k := Z.of_nat (length content)]> (index s))
                       (filePath s)).
  set (fs' := <[filePath s := content
                  ++ Encode (mkEntry k v (calculateHash v))]> fs).
  assert (He : extends fs fs').
  { pose proof (extends_insert fs (filePath s)
                  (Encode (mkEntry k v (calculateHash v)))) as H.
    now rewrite Hf in H. }
  assert (Hnew : storedAt fs' s' (Z.of_nat (length content)) k v).
  { apply storedAt_last. unfold fs', s'. cbn [filePath]. apply lookup_insert_eq. }
  split.
  - intros s0 k0 pos0 Hin Hi. apply elem_of_app in Hin as [Hin|Hin].
    + destruct (Hval s0 k0 pos0) as (v0 & Hst & Hfit0); [|exact Hi|].
      * rewrite Hs. apply elem_of_app. now left.
      * exists v0. split; [|exact Hfit0].
        eapply storedAt_extends; [exact He | reflexivity | exact Hst].
    + apply list_elem_of_singleton in Hin as ->.
      destruct (decide (k0 = k)) as [->|Hne].
      * unfold s' in Hi; cbn [index] in Hi. rewrite lookup_insert_eq in Hi. injection Hi as <-.
        eauto.
      * unfold s' in Hi; cbn [index] in Hi. rewrite lookup_insert_ne in Hi by auto.
        destruct (Hval s k0 pos0) as (v0 & Hst & Hfit0); [|exact Hi|].
        -- rewrite Hs. apply elem_of_app. right. left.
        -- exists v0. split; [|exact Hfit0].
           eapply storedAt_extends; [exact He | reflexivity | exact Hst].
  - intros k0. rewrite latest_snoc. destruct (decide (k = k0)) as [<-|Hne].
    + exists s', (Z.of_nat (length content)). split; [|exact Hnew].
      eapply getPos_last; [reflexivity|]. unfold s'. apply lookup_insert_eq.
    + specialize (Hag k0). cbn [fst snd] in Hag.
      assert (Hi' : index s' !! k0 = index s !! k0)
        by (unfold s'; cbn [index]; now rewrite lookup_insert_ne).
      destruct (latest kvs k0) as [v0|].
      * destruct Hag as (s0 & pos0 & Hp & Hst).
        rewrite (getPos_snoc _ older s k0 Hs) in Hp.
        destruct (index s !! k0) as [p|] eqn:Ei.
        -- injection Hp as <- <-. exists s', p. split.
           ++ rewrite (getPos_snoc _ older s' k0) by reflexivity.
              now rewrite Hi'.
           ++ eapply storedAt_extends; [exact He | reflexivity | exact Hst].
        -- exists s0, pos0. split.
           ++ rewrite (getPos_snoc _ older s' k0) by reflexivity.
              now rewrite Hi'.
           ++ eapply storedAt_extends; [exact He | reflexivity | exact Hst].
      * intros s0 Hin. cbn [segments] in Hin.
        apply elem_of_app in Hin as [Hin|Hin].
        -- apply Hag. rewrite Hs. apply elem_of_app. now left.
        -- apply list_elem_of_singleton in Hin as ->. rewrite Hi'.
           apply Hag. rewrite Hs. apply elem_of_app. right. left.
Qed.

Lemma history_rollover st kvs k v :
  validIn st.1 (segments st.2) -> agrees st kvs -> fits k v ->
  validIn (afterRollover st k v).1 (segments (afterRollover st k v).2)
  /\ agrees (afterRollover st k v) (kvs ++ [(k, v)]).
Proof.
  destruct st as [fs db]. cbn [fst snd]. intros Hval Hag Hfit.
  unfold afterRollover. cbn [fst snd segments].
  set (path := generateNewFileName (lastSegmentIndex db + 1)).
  set (old := default [] (fs !! path)).
  set (s' := mkSegment (<[k := Z.of_nat (length old)]> ∅) path).
  set (fs' := <[path := old ++ Encode (mkEntry k v (calculateHash v))]> fs).
  assert (He : extends fs fs') by apply extends_insert.
  assert (Hnew : storedAt fs' s' (Z.of_nat (length old)) k v).
  { apply storedAt_last. unfold fs', s'. cbn [filePath]. apply lookup_insert_eq. }
  assert (Hi' : forall k0, k0 <> k -> index s' !! k0 = None).
  { intros k0 Hne. unfold s'. cbn [index]. rewrite lookup_insert_ne by auto.
    apply lookup_empty. }
  split.
  - intros s0 k0 pos0 Hin Hi. apply elem_of_app in Hin as [Hin|Hin].
    + destruct (Hval s0 k0 pos0 Hin Hi) as (v0 & Hst & Hfit0).
      exists v0. split; [|exact Hfit0].
      eapply storedAt_extends; [exact He | reflexivity | exact Hst].
    + apply list_elem_of_singleton in Hin as ->.
      destruct (decide (k0 = k)) as [->|Hne].
      * unfold s' in Hi; cbn [index] in Hi. rewrite lookup_insert_eq in Hi. injection Hi as <-.
        eauto.
      * rewrite Hi' in Hi by exact Hne. discriminate.
  - intros k0. rewrite latest_snoc. destruct (decide (k = k0)) as [<-|Hne].
    + exists s', (Z.of_nat (length old)). split; [|exact Hnew].
      eapply getPos_last; [reflexivity|]. unfold s'. apply lookup_insert_eq.
    + specialize (Hag k0). cbn [fst snd] in Hag.
      destruct (latest kvs k0) as [v0|].
      * destruct Hag as (s0 & pos0 & Hp & Hst).
        exists s0, pos0. split.
        -- rewrite (getPos_snoc _ (segments db) s' k0) by reflexivity.
           rewrite Hi' by auto. exact Hp.
        -- eapply storedAt_extends; [exact He | reflexivity | exact Hst].
      * intros s0 Hin. cbn [segments] in Hin.
        apply elem_of_app in Hin as [Hin|Hin]; [now apply Hag|].
        apply list_elem_of_singleton in Hin as ->. apply Hi'. auto.
Qed.

Lemma Get_stored st k s pos v :
  getPos st.2 k = Ok (mkKeyPosition s pos) ->
  storedAt st.1 s pos k v -> fits k v -> Get st k = Ok v.
Proof.
  intros Hp Hst Hfit. unfold Get. rewrite Hp.
  cbn [mbind result_bind segment position].
  rewrite (storedAt_read _ _ _ _ _ Hst Hfit).
  cbn [mbind result_bind value hash]. now rewrite decide_True.
Qed.

Lemma Get_absent st k :
  (forall s, s ∈ segments st.2 -> index s !! k = None) ->
  Get st k = Err ErrNotFound.
Proof.
  intros Hall. unfold Get, getPos.
  destruct (getPosFrom_cases (rev (segments st.2)) k) as [[H _]|[kp H]].
  - now rewrite H.
  - destruct (getPosFrom_Ok _ _ _ H) as [Hin Hi].
    apply (proj1 (elem_of_rev _ _)) in Hin.
    rewrite (Hall _ Hin) in Hi. discriminate.
Qed.

Lemma latest_elem_of kvs k v : latest kvs k = Some v -> (k, v) ∈ kvs.
Proof.
  induction kvs as [|[k1 v1] kvs IH]; cbn [latest]; [discriminate|].
  destruct (latest kvs k) as [w|].
  - intros [= ->]. right. now apply IH.
  - case_decide; [|discriminate]. intros [= ->]. subst. left.
Qed.

Lemma layout_Put_state budget kvs st n k v :
  layout budget kvs st n ->
  Put st k v = (afterRollover st k v, Ok ())
  \/ exists older s content,
       segments st.2 = older ++ [s]
       /\ st.1 !! filePath s = Some content
       /\ Put st k v = (afterAppend st older s content k v, Ok ()).
Proof.
  intros L.
  destruct (layout_active _ _ _ _ L) as (older & s & content & Hs & Hp & Hf).
  pose proof (l_closed _ _ _ _ L) as Hc.
  pose proof (l_out _ _ _ _ L) as Ho.
  destruct (decide (Z.of_nat (length content)
                    + Z.of_nat (length (Encode (mkEntry k v (calculateHash v))))
                    > segmentSize st.2)) as [Hgt|Hle].
  - left. eapply Put_rollover; [exact Hc | | exact Hgt].
    unfold outFile. rewrite Ho. exact Hf.
  - right. exists older, s, content. split; [exact Hs|].
    rewrite Hp. split; [exact Hf|].
    eapply Put_append; [exact Hc | exact Hs | | | lia].
    + now rewrite Ho, Hp.
    + now rewrite Hp.
Qed.

Lemma history_PutAll budget kvs : forall kvs0 st n,
  layout budget kvs0 st n ->
  validIn st.1 (segments st.2) -> agrees st kvs0 ->
  Forall (fun kv => fits kv.1 kv.2) kvs ->
  exists st' n',
    PutAll st kvs = (st', Ok ())
    /\ layout budget (kvs0 ++ kvs) st' n'
    /\ validIn st'.1 (segments st'.2)
    /\ agrees st' (kvs0 ++ kvs).
Proof.
  induction kvs as [|[k v] kvs IH]; intros kvs0 st n L Hval Hag Hfit.
  - exists st, n. rewrite app_nil_r. auto.
  - apply Forall_cons in Hfit as [Hkv Hfit]. cbn [fst snd] in Hkv.
    destruct (layout_Put _ _ _ _ k v L) as (st1 & n1 & HP & L1 & _).
    assert (H1 : validIn st1.1 (segments st1.2)
                 /\ agrees st1 (kvs0 ++ [(k, v)])).
    { destruct (layout_Put_state _ _ _ _ k v L)
        as [HR|(older & s & content & Hs & Hf & HA)].
      - rewrite HP in HR. injection HR as ->.
        now apply history_rollover.
      - rewrite HP in HA. injection HA as ->.
        now apply history_append. }
    destruct H1 as [Hval1 Hag1].
    destruct (IH _ _ _ L1 Hval1 Hag1 Hfit) as (st' & n' & HA & L' & Hv' & Ha').
    exists st', n'. cbn [PutAll]. rewrite HP.
    rewrite <- app_assoc in L', Ha'. cbn [app] in L', Ha'. auto.
Qed.

Lemma history_freshDb budget :
  validIn (freshDb budget).1 (segments (freshDb budget).2)
  /\ agrees (freshDb budget) [].
Proof.
  split.
  - intros s k pos Hin Hi. cbn in Hin.
    apply list_elem_of_singleton in Hin as ->. cbn in Hi.
    rewrite lookup_empty in Hi. discriminate.
  - intros k. cbn [latest]. intros s Hin. cbn in Hin.
    apply list_elem_of_singleton in Hin as ->. apply lookup_empty.
Qed.

(** [Compact] on a store with the layout of a sequence of [Put]s and at
    least two segments, when the sealed index entries are valid. *)
Lemma layout_Compact order budget kvs st n :
  (forall l, order l ≡ₚ l) ->
  layout budget kvs st n -> (1 <= n)%nat ->
  (forall sealed active, segments st.2 = sealed ++ [active] ->
     validIn st.1 sealed) ->
  exists sealed active compacted st',
    segments st.2 = sealed ++ [active]
    /\ CompactWith order st = (st', Ok ())
    /\ segments st'.2 = [compacted; active]
    /\ dom st'.1 = {[filePath compacted]} ∪ {[filePath active]}
    /\ size (dom st'.1) = 2%nat
    /\ st'.1 !! filePath active = st.1 !! filePath active
    /\ out st'.2 = out st.2
    /\ (forall k, GetIn st'.1 [compacted] k = GetIn st.1 sealed k)
    /\ (forall k, Get st' k = Get st k).
Proof.
  intros Hperm L Hn Hval.
  destruct (layout_active _ _ _ _ L) as (sealed & active & content & Hs & Hp & Hf).
  pose proof (l_paths _ _ _ _ L) as Hpaths.
  pose proof (l_dom _ _ _ _ L) as Hdom.
  pose proof (l_last _ _ _ _ L) as Hlast.
  assert (Hsealed : filePath <$> sealed = segmentName <$> seq 0 n).
  { rewrite Hs, fmap_app, seq_S, fmap_app in Hpaths.
    apply app_inj_2 in Hpaths; [tauto | reflexivity]. }
  assert (Hin : forall p, p ∈ dom st.1
                 <-> p ∈ filePath <$> sealed \/ p = filePath active).
  { intros p. rewrite Hdom, elem_of_list_to_set, seq_S, fmap_app.
    rewrite elem_of_app, <- Hsealed. cbn [fmap list_fmap Nat.add].
    rewrite list_elem_of_singleton, Hp. reflexivity. }
  assert (Hact : filePath active ∉ filePath <$> sealed).
  { rewrite Hp, Hsealed. intros H.
    apply list_elem_of_fmap in H as (i & Hi & Hseq).
    apply segmentName_inj in Hi. apply elem_of_seq in Hseq. lia. }
  assert (Hnew : generateNewFileName (lastSegmentIndex st.2 + 1)
                 = segmentName (S n)).
  { rewrite Hlast. apply segmentName_succ. }
  assert (Hfresh : segmentName (S n) ∉ dom st.1).
  { rewrite Hdom, elem_of_list_to_set. intros H.
    apply list_elem_of_fmap in H as (i & Hi & Hseq).
    apply segmentName_inj in Hi. apply elem_of_seq in Hseq. lia. }
  destruct (CompactWith_spec order st sealed active Hperm Hs)
    as (fs' & idx' & c' & HC & Hlook & Hsl & HG).
  { intros ->. cbn in Hsealed.
    destruct n; [lia | discriminate]. }
  { intros s Hin'. apply elem_of_dom, Hin. rewrite Hs in Hin'.
    apply elem_of_app in Hin' as [H|H].
    - left. apply list_elem_of_fmap. eauto.
    - right. apply list_elem_of_singleton in H. now subst. }
  { rewrite Hnew. now apply not_elem_of_dom. }
  { exact Hact. }
  { now apply (Hval sealed active). }
  rewrite Hnew in *.
  assert (Hna : segmentName (S n) <> filePath active).
  { intros H. apply Hfresh, Hin. now right. }
  assert (Hns : segmentName (S n) ∉ filePath <$> sealed).
  { intros H. apply Hfresh, Hin. now left. }
  assert (Hd : dom fs' = {[segmentName (S n)]} ∪ {[filePath active]}).
  { apply set_eq. intros p.
    rewrite elem_of_dom, Hlook, elem_of_union, !elem_of_singleton.
    destruct (decide (p ∈ filePath <$> sealed)) as [Hps|Hps].
    - split; [intros [? ?]; discriminate|].
      intros [->| ->]; contradiction.
    - destruct (decide (p = segmentName (S n))) as [->|Hpn].
      + split; [auto | eauto].
      + rewrite <- elem_of_dom, Hin. tauto. }
  eexists sealed, active, _, _.
  split; [exact Hs|]. split; [exact HC|]. cbn [fst snd segments out filePath].
  split; [reflexivity|]. split; [exact Hd|].
  split; [|split; [|split; [reflexivity | split; [exact Hsl | exact HG]]]].
  - rewrite Hd, size_union, !size_singleton; [reflexivity|].
    apply disjoint_singleton_l. rewrite elem_of_singleton. exact Hna.
  - rewrite Hlook. rewrite decide_False by exact Hact.
    rewrite decide_False by auto. reflexivity.
Qed.

(** C2, as amended: on a store opened on an empty directory, after a
    sequence of [Put]s whose records all fit the frame
    ([len k + len v + 52 < 2^32]) and that left at least two segments,
    [Compact], whatever the order in which it ranges over the keys, succeeds
    and leaves exactly two files: the file of the compacted segment, which
    answers every key as the sealed segments did, and the file of the
    active segment, unchanged and still the append target; afterwards
    [Get] returns the last value put for every key that was put. With
    fewer than two segments [Compact] succeeds and changes nothing. *)
Theorem compact_correct :
  (forall order (st : St),
     (length (segments st.2) < 2)%nat -> CompactWith order st = (st, Ok ()))
  /\ (forall order (budget : Z) (kvs : list (string * string)),
        (forall l, order l ≡ₚ l) ->
        Forall (fun kv => fits kv.1 kv.2) kvs ->
        (2 <= length (segments (PutAll (freshDb budget) kvs).1.2))%nat ->
        (PutAll (freshDb budget) kvs).2 = Ok ()
        /\ exists sealed active compacted st',
             segments (PutAll (freshDb budget) kvs).1.2 = sealed ++ [active]
             /\ CompactWith order (PutAll (freshDb budget) kvs).1
                = (st', Ok ())
             /\ segments st'.2 = [compacted; active]
             /\ dom st'.1 = {[filePath compacted]} ∪ {[filePath active]}
             /\ size (dom st'.1) = 2%nat
             /\ st'.1 !! filePath active
                = (PutAll (freshDb budget) kvs).1.1 !! filePath active
             /\ out st'.2 = out (PutAll (freshDb budget) kvs).1.2
             /\ (forall k, GetIn st'.1 [compacted] k
                           = GetIn (PutAll (freshDb budget) kvs).1.1 sealed k)
             /\ (forall k v, latest kvs k = Some v -> Get st' k = Ok v)
             /\ (forall k, latest kvs k = None ->
                           Get st' k = Err ErrNotFound)).
Proof.
  split.
  - intros order [fs db] Hlt. unfold CompactWith. cbn [fst snd] in Hlt.
    now rewrite decide_True.
  - intros order budget kvs Hperm Hfit Hlen.
    destruct (history_freshDb budget) as [Hv0 Ha0].
    destruct (history_PutAll budget kvs [] _ _ (layout_freshDb budget)
                Hv0 Ha0 Hfit) as (st & n & HA & L & Hval & Hag).
    cbn [app] in L, Hag. rewrite HA in *. cbn [fst snd] in *.
    split; [reflexivity|].
    assert (Hn : (1 <= n)%nat).
    { pose proof (f_equal length (l_paths _ _ _ _ L)) as Hl.
      rewrite !length_fmap, length_seq in Hl. lia. }
    destruct (layout_Compact order budget kvs st n Hperm L Hn)
      as (sealed & active & compacted & st' & Hs & HC & Hs' & Hd & Hsz
          & Hfa & Ho & Hsl & HG).
    { intros sealed active Hs s k pos Hin Hi.
      apply (Hval s k pos); [|exact Hi].
      rewrite Hs. apply elem_of_app. now left. }
    exists sealed, active, compacted, st'.
    repeat (split; [assumption|]). split.
    + intros k v Hl. rewrite HG. specialize (Hag k). rewrite Hl in Hag.
      destruct Hag as (s & pos & Hp & Hst).
      apply (Get_stored st k s pos v Hp Hst).
      apply latest_elem_of in Hl.
      rewrite Forall_forall in Hfit. apply (Hfit (k, v)). exact Hl.
    + intros k Hl. rewrite HG. specialize (Hag k). rewrite Hl in Hag.
      now apply Get_absent.
Qed.

Lemma compact_correct_witness :
  (PutAll (freshDb 100) [("a", "1"); ("b", "2"); ("a", "3")]%string).2
  = Ok ()
  /\ exists sealed active compacted st',
       segments (PutAll (freshDb 100)
                   [("a", "1"); ("b", "2"); ("a", "3")]%string).1.2
       = sealed ++ [active]
       /\ CompactWith id (PutAll (freshDb 100)
                            [("a", "1"); ("b", "2"); ("a", "3")]%string).1
          = (st', Ok ())
       /\ segments st'.2 = [compacted; active]
       /\ dom st'.1 = {[filePath compacted]} ∪ {[filePath active]}
       /\ size (dom st'.1) = 2%nat
       /\ st'.1 !! filePath active
          = (PutAll (freshDb 100)
               [("a", "1"); ("b", "2"); ("a", "3")]%string).1.1
              !! filePath active
       /\ out st'.2
          = out (PutAll (freshDb 100)
                   [("a", "1"); ("b", "2"); ("a", "3")]%string).1.2
       /\ (forall k,
             GetIn st'.1 [compacted] k
             = GetIn (PutAll (freshDb 100)
                        [("a", "1"); ("b", "2"); ("a", "3")]%string).1.1
                     sealed k)
       /\ (forall k v,
             latest [("a", "1"); ("b", "2"); ("a", "3")]%string k = Some v ->
             Get st' k = Ok v)
       /\ (forall k,
             latest [("a", "1"); ("b", "2"); ("a", "3")]%string k = None ->
             Get st' k = Err ErrNotFound).
Proof.
  apply (proj2 compact_correct id 100
           [("a", "1"); ("b", "2"); ("a", "3")]%string).
  - intros l. reflexivity.
  - repeat constructor; vm_compute; reflexivity.
  - vm_compute. lia.
Defined.

Lemma compact_wrapped (v : string) :
  len v = 2 ^ 32 - 53 ->
  (PutAll (freshDb 100) [("k"%string, v)]).2 = Ok ()
  /\ length (segments (PutAll (freshDb 100) [("k"%string, v)]).1.2) = 2%nat
  /\ (Compact (PutAll (freshDb 100) [("k"%string, v)]).1).2 = Ok ()
  /\ Get (Compact (PutAll (freshDb 100) [("k"%string, v)]).1).1 "k" = Panic.
Proof.
  intros Lv.
  assert (HP : Put (freshDb 100) "k" v
               = (afterRollover (freshDb 100) "k" v, Ok ())).
  { apply (Put_rollover (freshDb 100) "k" v []);
      [reflexivity | reflexivity |].
    rewrite length_Encode. cbn [key value length segmentSize freshDb
      createSegment snd]. rewrite Lv. change (len "k") with 1. lia. }
  destruct (Get_after_Put_wrapped (freshDb 100) "k" v
              (wellFormed_freshDb 100)) as [_ HG].
  { rewrite Lv. reflexivity. }
  rewrite HP in HG. cbn [fst] in HG.
  destruct (layout_Put 100 [] (freshDb 100) 0 "k" v (layout_freshDb 100))
    as (st1 & n1 & HP' & L1 & _).
  rewrite HP in HP'. injection HP' as <-.
  cbn [PutAll]. rewrite HP. cbn [fst snd].
  split; [reflexivity|]. split; [reflexivity|].
  assert (Hn : (1 <= n1)%nat).
  { pose proof (f_equal length (l_paths _ _ _ _ L1)) as Hl.
    rewrite !length_fmap, length_seq in Hl. cbn in Hl. lia. }
  destruct (layout_Compact id 100 _ _ n1 (fun l => reflexivity _) L1 Hn)
    as (sealed & active & compacted & st' & Hs & HC & _ & _ & _ & _ & _ & _ & HGet).
  { intros sealed active Hs s k pos Hin Hi.
    change (segments (afterRollover (freshDb 100) "k" v).2)
      with ([mkSegment ∅ (generateNewFileName 0)]
              ++ [mkSegment (<["k"%string := 0]> ∅)
                            (generateNewFileName 1)]) in Hs.
    apply app_inj_tail in Hs as [<- _].
    apply list_elem_of_singleton in Hin as ->. cbn [index] in Hi.
    rewrite lookup_empty in Hi. discriminate. }
  unfold Compact. rewrite HC. cbn [fst snd]. split; [reflexivity|].
  rewrite HGet. exact HG.
Qed.

(** C2, as stated, fails when a record does not fit the frame: one [Put]
    of a value of [2^32 - 53] bytes under the key ["k"] succeeds and rolls
    over, so there are two segments; [Compact] succeeds; [Get k] then
    panics in [Decode], the [total_size] field of the record being zero. *)
Lemma compact_loses_wrapped_record :
  (PutAll (freshDb 100) [("k"%string, bigValue)]).2 = Ok ()
  /\ length (segments (PutAll (freshDb 100) [("k"%string, bigValue)]).1.2)
     = 2%nat
  /\ (Compact (PutAll (freshDb 100) [("k"%string, bigValue)]).1).2 = Ok ()
  /\ Get (Compact (PutAll (freshDb 100) [("k"%string, bigValue)]).1).1 "k"
     = Panic.
Proof. exact (compact_wrapped bigValue len_bigValue). Qed.

(** ** Recovery after a compaction *)

(** C1 fails on the code: on an empty directory with a budget of 100
    bytes, [Put k old], [Put k new] and [Compact] all succeed and [Get k]
    returns [new]; [Compact] has written the old value to the file
    [current-data2] while the active segment is [current-data1]. After
    [Close], [NewDb] orders the segments by file index, the compacted one
    last, opens it for append, and [Get k] returns [old]. *)
Theorem reopen_after_compact_returns_old_value :
  NewDb ∅ 100 = Some (Ok (freshDb 100))
  /\ (PutAll (freshDb 100) [("k", "old"); ("k", "new")]%string).2 = Ok ()
  /\ (Compact (PutAll (freshDb 100)
                 [("k", "old"); ("k", "new")]%string).1).2 = Ok ()
  /\ filePath <$> segments compactedDb.2
     = ["current-data2"; "current-data1"]%string
  /\ Get compactedDb "k" = Ok "new"%string
  /\ (fun st : St => filePath <$> segments st.2) <$> openedStore reopenedDb
     = Some ["current-data1"; "current-data2"]%string
  /\ (fun st : St => out st.2) <$> openedStore reopenedDb
     = Some (Some "current-data2"%string)
  /\ (fun st : St => Get st "k") <$> openedStore reopenedDb
     = Some (Ok "old"%string).
Proof.
  split; [reflexivity|].
  repeat (split; [vm_compute; reflexivity|]).
  vm_compute. reflexivity.
Qed.

(** ** A store built by Puts alone *)

(** X1. On a store opened on an empty directory, after any sequence of
    [Put]s whose records fit the frame, every [Put] has succeeded and
    [Get] answers each key with the value of its last [Put], and
    [ErrNotFound] for a key that was never put. *)
Theorem Get_after_PutAll (budget : Z) (kvs : list (string * string)) :
  Forall (fun kv => fits kv.1 kv.2) kvs ->
  (PutAll (freshDb budget) kvs).2 = Ok ()
  /\ forall k,
       Get (PutAll (freshDb budget) kvs).1 k
       = match latest kvs k with
         | Some v => Ok v
         | None => Err ErrNotFound
         end.
Proof.
  intros Hfit.
  destruct (history_freshDb budget) as [Hv0 Ha0].
  destruct (history_PutAll budget kvs [] _ _ (layout_freshDb budget)
              Hv0 Ha0 Hfit) as (st & n & HA & L & Hval & Hag).
  cbn [app] in L, Hag. rewrite HA. cbn [fst snd].
  split; [reflexivity|]. intros k.
  specialize (Hag k). destruct (latest kvs k) as [v|] eqn:Hl.
  - destruct Hag as (s & pos & Hp & Hst).
    apply (Get_stored st k s pos v Hp Hst).
    apply latest_elem_of in Hl.
    rewrite Forall_forall in Hfit. apply (Hfit (k, v)). exact Hl.
  - now apply Get_absent.
Qed.

Lemma Get_after_PutAll_witness :
  (PutAll (freshDb 100) [("a", "1"); ("b", "2"); ("a", "3")]%string).2
  = Ok ()
  /\ forall k,
       Get (PutAll (freshDb 100)
              [("a", "1"); ("b", "2"); ("a", "3")]%string).1 k
       = match latest [("a", "1"); ("b", "2"); ("a", "3")]%string k with
         | Some v => Ok v
         | None => Err ErrNotFound
         end.
Proof.
  apply (Get_after_PutAll 100 [("a", "1"); ("b", "2"); ("a", "3")]%string).
  repeat constructor; vm_compute; reflexivity.
Defined.

(** ** What a Put leaves alone *)

Lemma readNext_app r suffix data r' :
  readNext r = (Ok data, r') ->
  readNext (r ++ suffix) = (Ok data, r' ++ suffix).
Proof.
  unfold readNext. intros H.
  destruct (decide (length r < 4)%nat) as [|Hlen]; [discriminate|].
  rewrite decide_False by (rewrite length_app; lia).
  rewrite firstn_app.
  replace (4 - length r)%nat with 0%nat by lia.
  rewrite firstn_O, app_nil_r.
  destruct (Bytes.Uint32 (firstn 4 r)) as [size|] eqn:Hu; [|discriminate].
  destruct (decide (Z.of_nat (length r) < size)) as [|Hsz]; [discriminate|].
  pose proof (Uint32_range _ _ Hu) as Hr.
  rewrite decide_False by (rewrite length_app; lia).
  injection H as <- <-.
  rewrite firstn_app, skipn_app.
  replace (Z.to_nat size - length r)%nat with 0%nat by lia.
  now rewrite firstn_O, app_nil_r, skipn_O.
Qed.

Lemma readRecord_app r suffix e :
  readRecord r = Ok e -> readRecord (r ++ suffix) = Ok e.
Proof.
  unfold readRecord. intros H.
  destruct (readNext r) as [[data| |] r'] eqn:Hn; try discriminate.
  now rewrite (readNext_app _ suffix _ _ Hn).
Qed.

Lemma getFromSegment_extends fs fs' s pos e :
  extends fs fs' ->
  getFromSegment fs s pos = Ok e -> getFromSegment fs' s pos = Ok e.
Proof.
  intros Hext H. unfold getFromSegment in *.
  destruct (fs !! filePath s) as [c|] eqn:Hc; [|discriminate].
  destruct (Hext _ _ Hc) as [suffix ->].
  destruct (decide (pos < 0)) as [|Hpos]; [discriminate|].
  rewrite skipn_app. now apply readRecord_app.
Qed.

Lemma Get_extends fs fs' db k :
  extends fs fs' -> settled (Get (fs, db) k) ->
  Get (fs', db) k = Get (fs, db) k.
Proof.
  intros Hext. unfold Get. cbn [fst snd].
  destruct (getPos db k) as [kp| |]; cbn [mbind result_bind]; try reflexivity.
  destruct (getFromSegment fs (segment kp) (position kp)) as [e|err|] eqn:Hg.
  - now rewrite (getFromSegment_extends _ _ _ _ _ Hext Hg).
  - cbn [mbind result_bind settled]. intros Hs.
    exfalso. destruct err; try exact Hs.
    + now apply getFromSegment_not_NotFound in Hg.
    + clear Hs. revert Hg. unfold getFromSegment.
      destruct (fs !! filePath (segment kp)); [|discriminate].
      destruct (decide (position kp < 0)); [discriminate|].
      intros Hg. change (readRecord (skipn (Z.to_nat (position kp)) l)
                         = Err ErrHashMismatch) in Hg.
      apply readRecord_Err_cases in Hg as [[? _]|[? _]]; discriminate.
  - cbn [mbind result_bind settled]. tauto.
Qed.

Lemma Put_cases st k v :
  wellFormed st ->
  Put st k v = (afterRollover st k v, Ok ())
  \/ exists older s content,
       segments st.2 = older ++ [s]
       /\ out st.2 = Some (filePath s)
       /\ st.1 !! filePath s = Some content
       /\ Put st k v = (afterAppend st older s content k v, Ok ()).
Proof.
  intros (Hc & older & s & content & Hs & Ho & Hf).
  destruct (decide (Z.of_nat (length content)
    + Z.of_nat (length (Encode (mkEntry k v (calculateHash v))))
    > segmentSize st.2)) as [Hgt|Hle].
  - left. eapply Put_rollover;
      [exact Hc | unfold outFile; rewrite Ho; exact Hf | lia].
  - right. exists older, s, content. repeat (split; [assumption|]).
    eapply Put_append; [exact Hc | exact Hs | exact Ho | exact Hf | lia].
Qed.

Lemma Get_segments fs fs' db db' k :
  fs' = fs -> segments db' = segments db -> Get (fs', db') k = Get (fs, db) k.
Proof. intros -> Hs. unfold Get, getPos. cbn [fst snd]. now rewrite Hs. Qed.

Lemma Get_other_key_append fs db db' older s k p k' :
  segments db = older ++ [s] ->
  segments db' = older ++ [mkSegment (<[k := p]> (index s)) (filePath s)] ->
  k' <> k ->
  Get (fs, db') k' = Get (fs, db) k'.
Proof.
  intros Hs Hs' Hne.
  rewrite (Get_snoc _ _ _ _ _ Hs), (Get_snoc _ _ _ _ _ Hs').
  cbn [index]. rewrite lookup_insert_ne by congruence.
  destruct (index s !! k') as [pos|]; [|reflexivity].
  now rewrite (getFromSegment_same_file fs fs
                 s (mkSegment (<[k := p]> (index s)) (filePath s)) pos).
Qed.

Lemma Get_other_key_rollover fs db db' k p path k' :
  segments db' = segments db ++ [mkSegment (<[k := p]> ∅) path] ->
  k' <> k ->
  Get (fs, db') k' = Get (fs, db) k'.
Proof.
  intros Hs' Hne. rewrite (Get_snoc _ _ _ _ _ Hs'). cbn [index].
  rewrite lookup_insert_ne by congruence. rewrite lookup_empty.
  unfold GetIn. now apply Get_segments.
Qed.

(** X2. A [Put] on a well-formed store succeeds and only appends: the
    directory afterwards is the one before with the bytes of the record
    added at the end of the file that is open for append afterwards, every
    file keeps the bytes it had, and the roster keeps its file names,
    with one more at its end when the [Put] rolled over. *)
Theorem Put_appends_only (st : St) (k v : string) :
  wellFormed st ->
  exists st' name,
    Put st k v = (st', Ok ())
    /\ wellFormed st'
    /\ out st'.2 = Some name
    /\ st'.1 = <[name := default [] (st.1 !! name)
                            ++ Encode (mkEntry k v (calculateHash v))]> st.1
    /\ extends st.1 st'.1
    /\ (filePath <$> segments st'.2 = filePath <$> segments st.2
        \/ filePath <$> segments st'.2
           = (filePath <$> segments st.2)
               ++ [generateNewFileName (lastSegmentIndex st.2 + 1)]).
Proof.
  intros Hwf.
  destruct (Put_wellFormed st k v Hwf) as (st' & HP & Hwf' & _).
  destruct (Put_cases st k v Hwf)
    as [HR|(older & s & content & Hs & Ho & Hf & HA)].
  - exists st', (generateNewFileName (lastSegmentIndex st.2 + 1)).
    rewrite HP in HR. injection HR as ->.
    split; [exact HP|]. split; [exact Hwf'|].
    unfold afterRollover. cbn [fst snd out segments].
    split; [reflexivity|]. split; [reflexivity|].
    split; [apply extends_insert|]. right.
    now rewrite fmap_app.
  - exists st', (filePath s).
    rewrite HP in HA. injection HA as ->.
    split; [exact HP|]. split; [exact Hwf'|].
    unfold afterAppend. cbn [fst snd out segments].
    split; [exact Ho|]. rewrite Hf. cbn [default].
    split; [reflexivity|]. split.
    + pose proof (extends_insert st.1 (filePath s)
                    (Encode (mkEntry k v (calculateHash v)))) as He.
      now rewrite Hf in He.
    + left. now rewrite Hs, !fmap_app.
Qed.

Lemma Put_appends_only_witness :
  exists st' name,
    Put (freshDb 100) "k" "v" = (st', Ok ())
    /\ wellFormed st'
    /\ out st'.2 = Some name
    /\ st'.1 = <[name := default [] ((freshDb 100).1 !! name)
                            ++ Encode (mkEntry "k" "v" (calculateHash "v"))]>
                 (freshDb 100).1
    /\ extends (freshDb 100).1 st'.1
    /\ (filePath <$> segments st'.2 = filePath <$> segments (freshDb 100).2
        \/ filePath <$> segments st'.2
           = (filePath <$> segments (freshDb 100).2)
               ++ [generateNewFileName
                     (lastSegmentIndex (freshDb 100).2 + 1)]).
Proof.
  apply (Put_appends_only (freshDb 100) "k" "v").
  apply wellFormed_freshDb.
Defined.

(** X3. A [Put] of key [k] on a well-formed store does not change what
    [Get] answers for another key, when that answer is a value,
    [ErrNotFound] or [ErrHashMismatch]; whether the record of [k] fits the
    frame does not matter. *)
Theorem Put_keeps_other_keys (st : St) (k v k' : string) :
  wellFormed st -> k' <> k -> settled (Get st k') ->
  Get (Put st k v).1 k' = Get st k'.
Proof.
  intros Hwf Hne Hset. destruct st as [fs db].
  destruct (Put_cases (fs, db) k v Hwf)
    as [HR|(older & s & content & Hs & Ho & Hf & HA)].
  - rewrite HR. unfold afterRollover. cbn [fst snd].
    etrans; [eapply (Get_other_key_rollover _ db);
             [reflexivity|exact Hne]|].
    apply Get_extends; [apply extends_insert|exact Hset].
  - rewrite HA. unfold afterAppend. cbn [fst snd] in *.
    etrans; [eapply (Get_other_key_append _ db);
             [exact Hs|reflexivity|exact Hne]|].
    apply Get_extends; [|exact Hset].
    pose proof (extends_insert fs (filePath s)
                  (Encode (mkEntry k v (calculateHash v)))) as He.
    now rewrite Hf in He.
Qed.

Lemma Put_keeps_other_keys_witness :
  Get (Put (Put (freshDb 100) "a" "1").1 "b" "2").1 "a"
  = Get (Put (freshDb 100) "a" "1").1 "a".
Proof.
  apply (Put_keeps_other_keys (Put (freshDb 100) "a" "1").1 "b" "2" "a").
  - destruct (Put_wellFormed (freshDb 100) "a" "1" (wellFormed_freshDb 100))
      as (st' & HP & Hwf & _).
    rewrite HP. exact Hwf.
  - discriminate.
  - vm_compute. exact I.
Defined.

(** ** What Decode accepts *)

Lemma slice_eq lo hi (s : list byte) :
  0 <= lo -> lo <= hi -> hi <= Z.of_nat (length s) ->
  Bytes.slice lo hi s
  = Some (firstn (Z.to_nat (hi - lo)) (skipn (Z.to_nat lo) s)).
Proof. intros. unfold Bytes.slice. now rewrite decide_True. Qed.

Lemma sliceFrom_eq lo (s : list byte) :
  0 <= lo <= Z.of_nat (length s) ->
  Bytes.sliceFrom lo s = Some (skipn (Z.to_nat lo) s).
Proof.
  intros. unfold Bytes.sliceFrom. rewrite slice_eq by lia.
  f_equal. apply firstn_all2. rewrite length_skipn. lia.
Qed.

Lemma Uint32_default b :
  (4 <= length b)%nat -> Bytes.Uint32 b = Some (default 0 (Bytes.Uint32 b)).
Proof.
  destruct b as [|b0 [|b1 [|b2 [|b3 b]]]]; cbn [length]; try lia.
  reflexivity.
Qed.

Lemma keyLen_range data : 0 <= keyLen data < 2 ^ 32.
Proof.
  unfold keyLen. destruct (Bytes.Uint32 _) eqn:H; cbn [default]; [|lia].
  eapply Uint32_range, H.
Qed.

Lemma valLen_range data : 0 <= valLen data < 2 ^ 32.
Proof.
  unfold valLen. destruct (Bytes.Uint32 _) eqn:H; cbn [default]; [|lia].
  eapply Uint32_range, H.
Qed.

Lemma Decode_fields data :
  keyLen data + valLen data + 12 <= Z.of_nat (length data) ->
  Z.of_nat (length data) < 2 ^ 32 ->
  Decode data = Ok (fieldsOf data).
Proof.
  intros Hle Hlt.
  pose proof (keyLen_range data) as Hk.
  pose proof (valLen_range data) as Hv.
  unfold Decode.
  rewrite sliceFrom_eq by lia. cbn [orPanic mbind result_bind].
  change (Z.to_nat 4) with 4%nat.
  rewrite (Uint32_default (skipn 4 data)) by (rewrite length_skipn; lia).
  fold (keyLen data). cbn [orPanic mbind result_bind].
  rewrite (uint32_small (keyLen data + 8)) by lia.
  rewrite slice_eq by lia. cbn [orPanic mbind result_bind].
  rewrite sliceFrom_eq by lia. cbn [orPanic mbind result_bind].
  rewrite (Uint32_default (skipn (Z.to_nat (keyLen data + 8)) data))
    by (rewrite length_skipn; lia).
  fold (valLen data). cbn [orPanic mbind result_bind].
  rewrite (uint32_small (keyLen data + 12)) by lia.
  rewrite (uint32_small (keyLen data + 12 + valLen data)) by lia.
  rewrite slice_eq by lia. cbn [orPanic mbind result_bind].
  rewrite decide_False by lia.
  rewrite sliceFrom_eq by lia. cbn [orPanic mbind result_bind].
  rewrite !copyAt_full.
  - unfold fieldsOf. change (Z.to_nat 8) with 8%nat.
    repeat f_equal; lia.
  - rewrite length_skipn. lia.
  - rewrite length_firstn, length_skipn. lia.
  - rewrite length_firstn, length_skipn. lia.
Qed.

(** X4. [Decode] on an input shorter than [2^32] bytes returns the key, the
    value and the hash as the byte ranges that [key_len] and [val_len]
    delimit, the hash being all that follows the value, exactly when
    [key_len + val_len + 12] is at most the length of the input; otherwise
    it panics. The [total_size] field is not read. *)
Theorem Decode_spec (data : list byte) :
  Z.of_nat (length data) < 2 ^ 32 ->
  Decode data
  = if decide (keyLen data + valLen data + 12 <= Z.of_nat (length data))
    then Ok (fieldsOf data) else Panic.
Proof.
  intros Hlt. destruct (decide _) as [Hle|Hgt].
  - now apply Decode_fields.
  - destruct (Decode data) as [e|e|] eqn:HD; [| |reflexivity].
    + apply Decode_Ok_fields in HD; [lia|exact Hlt].
    + now apply Decode_no_error in HD.
Qed.

Lemma Decode_spec_witness :
  Decode hashlessFrame
  = if decide (keyLen hashlessFrame + valLen hashlessFrame + 12
               <= Z.of_nat (length hashlessFrame))
    then Ok (fieldsOf hashlessFrame) else Panic.
Proof. apply (Decode_spec hashlessFrame). vm_compute. reflexivity. Defined.

(** ** Segment file names *)

Lemma digitValue_pretty x :
  (x < 10)%N -> digitValue (pretty_N_char x) = Some (Z.of_N x).
Proof.
  intros H.
  assert (x = 0 \/ x = 1 \/ x = 2 \/ x = 3 \/ x = 4 \/ x = 5 \/ x = 6
          \/ x = 7 \/ x = 8 \/ x = 9)%N as Hx by lia.
  repeat destruct Hx as [->|Hx]; try reflexivity. now subst.
Qed.

Lemma parseDigits_pretty x : forall s,
  parseDigits (pretty_N_go x s) 0 = parseDigits s (Z.of_N x).
Proof.
  induction (N.lt_wf_0 x) as [x _ IH]. intros s.
  destruct (decide (x = 0)%N) as [->|Hx]; [now rewrite pretty_N_go_0|].
  rewrite pretty_N_go_step by lia.
  rewrite IH by (apply N.div_lt; lia).
  cbn [parseDigits].
  rewrite digitValue_pretty by (apply N.mod_lt; lia).
  cbn [mbind option_bind]. f_equal.
  pose proof (N.div_mod x 10). lia.
Qed.

Lemma pretty_N_go_nonempty x : forall s,
  s <> EmptyString -> pretty_N_go x s <> EmptyString.
Proof.
  induction (N.lt_wf_0 x) as [x _ IH]. intros s Hs.
  destruct (decide (x = 0)%N) as [->|Hx]; [now rewrite pretty_N_go_0|].
  rewrite pretty_N_go_step by lia.
  apply IH; [apply N.div_lt; lia|discriminate].
Qed.

Lemma pretty_pos_digits p :
  pretty (N.pos p) <> EmptyString
  /\ parseDigits (pretty (N.pos p)) 0 = Some (Z.pos p).
Proof.
  unfold pretty, pretty_N. rewrite decide_False by discriminate. split.
  - rewrite pretty_N_go_step by lia.
    apply pretty_N_go_nonempty. discriminate.
  - now rewrite parseDigits_pretty.
Qed.

Lemma Atoi_digits s n :
  s <> EmptyString -> parseDigits s 0 = Some n ->
  Atoi s = Z.max (- 2 ^ 63) (Z.min (2 ^ 63 - 1) n).
Proof.
  destruct s as [|c rest]; [congruence|]. intros _ H.
  assert (Hd : is_Some (digitValue c)).
  { cbn [parseDigits] in H. destruct (digitValue c); [eauto|discriminate]. }
  unfold Atoi.
  destruct c as [[] [] [] [] [] [] [] []];
    try (destruct Hd as [? Hd]; vm_compute in Hd; discriminate);
    now rewrite H.
Qed.

Lemma Atoi_minus_digits s n :
  s <> EmptyString -> parseDigits s 0 = Some n ->
  Atoi (String "-" s) = Z.max (- 2 ^ 63) (Z.min (2 ^ 63 - 1) (- n)).
Proof.
  intros Hs H. unfold Atoi. destruct s; [congruence|]. now rewrite H.
Qed.

Lemma Atoi_pretty (i : Z) :
  - 2 ^ 63 <= i <= 2 ^ 63 - 1 -> Atoi (pretty i) = i.
Proof.
  intros Hi. destruct i as [|p|p].
  - reflexivity.
  - destruct (pretty_pos_digits p) as [Hne Hp].
    change (pretty (Z.pos p)) with (pretty (N.pos p)).
    rewrite (Atoi_digits _ _ Hne Hp). lia.
  - destruct (pretty_pos_digits p) as [Hne Hp].
    change (pretty (Z.neg p)) with (String "-" (pretty (N.pos p))).
    rewrite (Atoi_minus_digits _ _ Hne Hp). lia.
Qed.

Lemma substring_all s : substring 0 (String.length s) s = s.
Proof. induction s as [|c s IH]; cbn; [reflexivity|now rewrite IH]. Qed.

Lemma outFileName_app s :
  outFileName +:+ s
  = String "c" (String "u" (String "r" (String "r" (String "e"
      (String "n" (String "t" (String "-" (String "d" (String "a"
        (String "t" (String "a" s))))))))))).
Proof. reflexivity. Qed.

Lemma prefix_empty s : String.prefix EmptyString s = true.
Proof. now destruct s. Qed.

Lemma TrimPrefix_outFileName s :
  TrimPrefix (outFileName +:+ s) outFileName = s.
Proof.
  rewrite outFileName_app. unfold TrimPrefix, outFileName. cbn.
  rewrite prefix_empty, Nat.sub_0_r. apply substring_all.
Qed.

Lemma prefix_generateNewFileName i :
  String.prefix outFileName (generateNewFileName i) = true.
Proof.
  unfold generateNewFileName. rewrite outFileName_app.
  unfold outFileName. cbn. apply prefix_empty.
Qed.

(** X5. The number [recoverAll] reads back from the name that
    [generateNewFileName] gives to the segment of index [i] is [i], for
    every index of the range of [int]; the name starts with
    [outFileName], so that [recoverAll] takes the file for a segment. *)
Theorem segmentNumber_generateNewFileName (i : Z) :
  - 2 ^ 63 <= i <= 2 ^ 63 - 1 ->
  segmentNumber (generateNewFileName i) = i
  /\ String.prefix outFileName (generateNewFileName i) = true.
Proof.
  intros Hi. split; [|apply prefix_generateNewFileName].
  unfold segmentNumber, generateNewFileName.
  rewrite TrimPrefix_outFileName. now apply Atoi_pretty.
Qed.

Lemma segmentNumber_generateNewFileName_witness :
  segmentNumber (generateNewFileName 12) = 12
  /\ String.prefix outFileName (generateNewFileName 12) = true.
Proof. apply (segmentNumber_generateNewFileName 12). lia. Defined.

(** ** The scan of a segment file *)

Lemma framesOf_app recs recs' :
  framesOf (recs ++ recs') = framesOf recs ++ framesOf recs'.
Proof.
  induction recs as [|[k v] recs IH]; cbn [framesOf app]; [reflexivity|].
  now rewrite IH, app_assoc.
Qed.

Lemma indexOf_snoc recs k v : forall offset idx,
  indexOf (recs ++ [(k, v)]) offset idx
  = <[k := offset + Z.of_nat (length (framesOf recs))]>
      (indexOf recs offset idx).
Proof.
  induction recs as [|[k0 v0] recs IH]; intros offset idx;
    cbn [indexOf framesOf app length].
  - f_equal. lia.
  - rewrite IH. f_equal. rewrite length_app. lia.
Qed.

Lemma length_framesOf recs :
  (length recs <= length (framesOf recs))%nat.
Proof.
  induction recs as [|[k v] recs IH]; cbn [framesOf length]; [lia|].
  rewrite length_app.
  pose proof (length_frame k v (calculateHash v)) as Hl.
  pose proof (len_nonneg k). pose proof (len_nonneg v).
  rewrite len_calculateHash in Hl. lia.
Qed.

(** The scan reads the frames of [recs] one by one and goes on with what
    follows them. *)
Lemma recoverLoop_frames recs : forall fuel tail offset idx,
  Forall (fun kv => fits kv.1 kv.2) recs ->
  (length recs <= fuel)%nat ->
  recoverLoop fuel (framesOf recs ++ tail) offset idx
  = recoverLoop (fuel - length recs) tail
      (offset + Z.of_nat (length (framesOf recs))) (indexOf recs offset idx).
Proof.
  induction recs as [|[k v] recs IH]; intros fuel tail offset idx Hfit Hfuel.
  - cbn [framesOf app length indexOf]. f_equal; lia.
  - apply Forall_cons in Hfit as [Hkv Hfit]. cbn [fst snd] in Hkv.
    unfold fits in Hkv.
    destruct fuel as [|fuel]; [cbn [length] in Hfuel; lia|].
    cbn [framesOf length indexOf recoverLoop]. rewrite <- app_assoc.
    rewrite readNext_frame by (rewrite len_calculateHash; lia).
    rewrite Decode_frame by lia. cbn [key].
    rewrite IH by (try exact Hfit; cbn [length] in Hfuel; lia).
    rewrite length_app. f_equal; [lia..].
Qed.

(** Where the index of a sequence of records points. *)
Lemma indexOf_lookup recs k :
  match indexOf recs 0 ∅ !! k with
  | Some pos =>
      exists pre v post,
        recs = pre ++ (k, v) :: post
        /\ (k ∉ post.*1)
        /\ pos = Z.of_nat (length (framesOf pre))
  | None => k ∉ (recs.*1)
  end.
Proof.
  induction recs as [|[k0 v0] recs IH] using rev_ind.
  - cbn. rewrite lookup_empty. apply not_elem_of_nil.
  - rewrite indexOf_snoc. destruct (decide (k0 = k)) as [->|Hne].
    + rewrite lookup_insert_eq. exists recs, v0, [].
      split; [reflexivity|]. split; [apply not_elem_of_nil|lia].
    + rewrite lookup_insert_ne by exact Hne.
      destruct (indexOf recs 0 ∅ !! k) as [pos|].
      * destruct IH as (pre & v & post & -> & Hpost & ->).
        exists pre, v, (post ++ [(k0, v0)]).
        split; [now rewrite <- app_assoc|]. split; [|reflexivity].
        rewrite fmap_app, not_elem_of_app. split; [exact Hpost|].
        cbn. rewrite list_elem_of_singleton. congruence.
      * rewrite fmap_app, not_elem_of_app. split; [exact IH|].
        cbn. rewrite list_elem_of_singleton. congruence.
Qed.

(** X6. The scan of a segment file that holds the frames of the records
    [recs], followed by fewer than four bytes, succeeds: the bytes at the
    end are taken for the end of the file, and the index rebuilt has, for
    each key of [recs], the offset of the last record of that key, and no
    other key. *)
Theorem recoverSegment_rebuilds_index (fs : Dir) (path : string)
  (recs : list (string * string)) (tail : list byte) :
  fs !! path = Some (framesOf recs ++ tail) ->
  Forall (fun kv => fits kv.1 kv.2) recs ->
  (length tail < 4)%nat ->
  exists idx,
    recoverSegment fs path = Some (Ok idx)
    /\ forall k,
         match idx !! k with
         | Some pos =>
             exists pre v post,
               recs = pre ++ (k, v) :: post
               /\ (k ∉ post.*1)
               /\ pos = Z.of_nat (length (framesOf pre))
         | None => k ∉ (recs.*1)
         end.
Proof.
  intros Hf Hfit Htail. exists (indexOf recs 0 ∅).
  split; [|apply indexOf_lookup].
  unfold recoverSegment. rewrite Hf.
  pose proof (length_framesOf recs) as Hl.
  rewrite recoverLoop_frames by (try exact Hfit; rewrite ?length_app; lia).
  rewrite length_app.
  destruct (S (length (framesOf recs) + length tail) - length recs)%nat
    as [|fuel] eqn:Hfuel; [lia|].
  cbn [recoverLoop]. now rewrite readNext_short.
Qed.

Lemma recoverSegment_rebuilds_index_witness :
  exists idx,
    recoverSegment
      (<["current-data0" := framesOf [("a", "1"); ("b", "2"); ("a", "3")]
                            ++ [Byte.x34; Byte.x00]]> ∅)
      "current-data0" = Some (Ok idx)
    /\ forall k,
         match idx !! k with
         | Some pos =>
             exists pre v post,
               [("a", "1"); ("b", "2"); ("a", "3")]%string
               = pre ++ (k, v) :: post
               /\ (k ∉ post.*1)
               /\ pos = Z.of_nat (length (framesOf pre))
         | None => k ∉ ([("a", "1"); ("b", "2"); ("a", "3")]%string.*1)
         end.
Proof.
  apply (recoverSegment_rebuilds_index
           (<["current-data0" := framesOf [("a", "1"); ("b", "2"); ("a", "3")]
                                 ++ [Byte.x34; Byte.x00]]> ∅)
           "current-data0" [("a", "1"); ("b", "2"); ("a", "3")]%string
           [Byte.x34; Byte.x00]).
  - apply lookup_insert_eq.
  - repeat constructor; vm_compute; reflexivity.
  - cbn. lia.
Defined.

(** X7. The scan of a segment file whose last record was cut short, with
    at least the four bytes of its [total_size] field written, fails with
    [io.ErrUnexpectedEOF]: the records before the cut are not returned. *)
Theorem recoverSegment_truncated (fs : Dir) (path : string)
  (recs : list (string * string)) (tail : list byte) :
  fs !! path = Some (framesOf recs ++ tail) ->
  Forall (fun kv => fits kv.1 kv.2) recs ->
  (4 <= length tail)%nat -> Z.of_nat (length tail) < totalSize tail ->
  recoverSegment fs path = Some (Err ErrUnexpectedEOF).
Proof.
  intros Hf Hfit H4 Hcut.
  unfold recoverSegment. rewrite Hf.
  pose proof (length_framesOf recs) as Hl.
  rewrite recoverLoop_frames by (try exact Hfit; rewrite ?length_app; lia).
  rewrite length_app.
  destruct (S (length (framesOf recs) + length tail) - length recs)%nat
    as [|fuel] eqn:Hfuel; [lia|].
  cbn [recoverLoop]. now rewrite readNext_truncated.
Qed.

Lemma recoverSegment_truncated_witness :
  recoverSegment
    (<["current-data0" :=
         framesOf [("a", "1")]%string
         ++ firstn 20 (frame "b" "2" (calculateHash "2"))]> ∅)
    "current-data0" = Some (Err ErrUnexpectedEOF).
Proof.
  apply (recoverSegment_truncated
           (<["current-data0" :=
                framesOf [("a", "1")]%string
                ++ firstn 20 (frame "b" "2" (calculateHash "2"))]> ∅)
           "current-data0" [("a", "1")]%string
           (firstn 20 (frame "b" "2" (calculateHash "2")))).
  - apply lookup_insert_eq.
  - repeat constructor; vm_compute; reflexivity.
  - vm_compute. lia.
  - vm_compute. reflexivity.
Defined.

(** ** The order of recovery *)

Lemma insertLeft_Permutation {A} (less : A -> A -> bool) x l :
  insertLeft less x l ≡ₚ x :: l.
Proof.
  induction l as [|y l IH]; cbn [insertLeft]; [reflexivity|].
  destruct (less x y); [|reflexivity].
  rewrite IH. apply Permutation_swap.
Qed.

Lemma fold_insertLeft_Permutation {A} (less : A -> A -> bool) l :
  forall acc,
  fold_left (fun acc x => insertLeft less x acc) l acc ≡ₚ l ++ acc.
Proof.
  induction l as [|x l IH]; intros acc; cbn [fold_left app]; [reflexivity|].
  rewrite IH, insertLeft_Permutation. symmetry. apply Permutation_middle.
Qed.

Lemma sortSlice_Permutation {A} (less : A -> A -> bool) l :
  sortSlice less l ≡ₚ l.
Proof.
  unfold sortSlice. rewrite <- Permutation_rev.
  rewrite fold_insertLeft_Permutation. now rewrite app_nil_r.
Qed.

Section Sorting.

Context {A : Type} (f : A -> Z).

Lemma insertLeft_descending x l :
  StronglySorted (descendingBy f) l ->
  StronglySorted (descendingBy f) (insertLeft (lessBy f) x l).
Proof.
  induction 1 as [|y l Hs IH Hy]; cbn [insertLeft].
  - repeat constructor.
  - unfold lessBy at 1. destruct (Z.ltb_spec (f x) (f y)) as [Hlt|Hge].
    + constructor; [exact IH|].
      rewrite insertLeft_Permutation. constructor; [|exact Hy].
      unfold descendingBy. lia.
    + constructor; [now constructor|].
      constructor; [exact Hge|].
      eapply Forall_impl; [exact Hy|]. unfold descendingBy. cbn. lia.
Qed.

Lemma fold_insertLeft_descending l : forall acc,
  StronglySorted (descendingBy f) acc ->
  StronglySorted (descendingBy f)
    (fold_left (fun acc x => insertLeft (lessBy f) x acc) l acc).
Proof.
  induction l as [|x l IH]; intros acc Hacc; cbn [fold_left]; [exact Hacc|].
  apply IH, insertLeft_descending, Hacc.
Qed.

Lemma rev_ascending l :
  StronglySorted (descendingBy f) l -> StronglySorted (ascendingBy f) (rev l).
Proof.
  induction 1 as [|y l Hs IH Hy]; cbn [rev]; [constructor|].
  apply StronglySorted_app_2; [|exact IH|repeat constructor].
  intros x1 x2 H1 H2. apply list_elem_of_singleton in H2 as ->.
  apply (proj1 (elem_of_rev _ _)) in H1. rewrite Forall_forall in Hy.
  exact (Hy x1 H1).
Qed.

Lemma sortSlice_ascending l :
  StronglySorted (ascendingBy f) (sortSlice (lessBy f) l).
Proof.
  apply rev_ascending, fold_insertLeft_descending. constructor.
Qed.

End Sorting.

Lemma elem_of_ReadDir fs p : p ∈ ReadDir fs <-> is_Some (fs !! p).
Proof.
  unfold ReadDir. rewrite merge_sort_Permutation, list_elem_of_fmap. split.
  - intros ([p' c] & -> & Hin). apply elem_of_map_to_list in Hin.
    cbn. eauto.
  - intros [c Hc]. exists (p, c). split; [reflexivity|].
    now apply elem_of_map_to_list.
Qed.

Lemma NoDup_ReadDir fs : NoDup (ReadDir fs).
Proof.
  unfold ReadDir. rewrite merge_sort_Permutation.
  apply NoDup_fst_map_to_list.
Qed.

Lemma elem_of_segmentFiles fs p :
  p ∈ segmentFiles fs
  <-> is_Some (fs !! p) /\ String.prefix outFileName p = true.
Proof.
  unfold segmentFiles. rewrite list_elem_of_filter, elem_of_ReadDir. tauto.
Qed.

Lemma NoDup_segmentFiles fs : NoDup (segmentFiles fs).
Proof. apply NoDup_filter, NoDup_ReadDir. Qed.

Lemma recoverAll_eq fs db :
  recoverAll fs db
  = fold_left (recoverFile fs)
      (sortSlice (fun a b => segmentNumber a <? segmentNumber b)
                 (segmentFiles fs))
      (Some (Ok db)).
Proof. reflexivity. Qed.

Lemma fold_recoverFile_inv fs l : forall db db',
  fold_left (recoverFile fs) l (Some (Ok db)) = Some (Ok db') ->
  db' = mkDb (out db) (segmentSize db)
             (fold_left maxNumber l (lastSegmentIndex db))
             (segments db
                ++ ((fun name => mkSegment (recoveredIndex fs name) name)
                      <$> l))
             (closed db)
  /\ Forall (fun name =>
               recoverSegment fs name = Some (Ok (recoveredIndex fs name))) l.
Proof.
  induction l as [|name l IH]; intros db db' H.
  - cbn in H. injection H as <-. cbn. rewrite app_nil_r.
    split; [now destruct db|constructor].
  - cbn [fold_left] in H.
    destruct (fold_recoverFile_files _ _ _ _ H) as (db1 & H1 & _).
    rewrite H1 in H. apply IH in H as [-> HF].
    cbn [recoverFile] in H1.
    destruct (recoverSegment fs name) as [[idx|e|]|] eqn:Hr;
      try discriminate.
    injection H1 as <-. cbn [out segmentSize lastSegmentIndex segments closed].
    split.
    + cbn [fold_left fmap list_fmap]. unfold recoveredIndex at 2.
      rewrite Hr. rewrite <- app_assoc. reflexivity.
    + constructor; [|exact HF]. unfold recoveredIndex. now rewrite Hr.
Qed.

Lemma fold_recoverFile_Ok fs l : forall db,
  Forall (fun name =>
            recoverSegment fs name = Some (Ok (recoveredIndex fs name))) l ->
  fold_left (recoverFile fs) l (Some (Ok db))
  = Some (Ok (mkDb (out db) (segmentSize db)
                   (fold_left maxNumber l (lastSegmentIndex db))
                   (segments db
                      ++ ((fun name => mkSegment (recoveredIndex fs name) name)
                            <$> l))
                   (closed db))).
Proof.
  induction l as [|name l IH]; intros db HF.
  - cbn. rewrite app_nil_r. now destruct db.
  - apply Forall_cons in HF as [Hr HF].
    cbn [fold_left recoverFile]. rewrite Hr. rewrite (IH _ HF).
    cbn [out segmentSize lastSegmentIndex segments closed fmap list_fmap].
    now rewrite <- app_assoc.
Qed.

Lemma fold_maxNumber_bounds l : forall m,
  m <= fold_left maxNumber l m
  /\ Forall (fun p => segmentNumber p <= fold_left maxNumber l m) l
  /\ (fold_left maxNumber l m = m
      \/ exists p, p ∈ l /\ fold_left maxNumber l m = segmentNumber p).
Proof.
  induction l as [|p l IH]; intros m; cbn [fold_left].
  - split; [lia|]. split; [constructor|now left].
  - destruct (IH (maxNumber m p)) as (H1 & H2 & H3).
    assert (Hm : m <= maxNumber m p /\ segmentNumber p <= maxNumber m p
                 /\ (maxNumber m p = m \/ maxNumber m p = segmentNumber p)).
    { unfold maxNumber. destruct (decide _); lia. }
    split; [lia|]. split; [constructor; [lia|exact H2]|].
    destruct H3 as [H3|(q & Hq & H3)].
    + destruct Hm as (_ & _ & [Hm|Hm]).
      * left. lia.
      * right. exists p. split; [left|lia].
    + right. exists q. split; [now right|exact H3].
Qed.

Lemma fmap_filePath_recovered fs (l : list string) :
  filePath <$> ((fun name => mkSegment (recoveredIndex fs name) name) <$> l)
  = l.
Proof.
  rewrite <- list_fmap_compose. induction l as [|p l IH]; cbn; [reflexivity|].
  now rewrite IH.
Qed.

(** X8. When the directory holds files whose names start with
    [outFileName], a successful [NewDb] leaves the directory as it is and
    returns a roster of exactly these files, each once, in ascending order
    of the number after the prefix; the index of each segment is the one
    the scan of its file rebuilds, the last file of the roster is open for
    append, and [lastSegmentIndex] is at least every number of the roster
    and is one of them or [-1]. When the directory holds no such file,
    [NewDb] creates the segment of index 0. *)
Theorem NewDb_roster (fs : Dir) (size : Z) :
  (forall st, NewDb fs size = Some (Ok st) -> segmentFiles fs <> [] ->
     st.1 = fs
     /\ NoDup (filePath <$> segments st.2)
     /\ (forall p, p ∈ filePath <$> segments st.2
                   <-> is_Some (fs !! p)
                       /\ String.prefix outFileName p = true)
     /\ StronglySorted byNumber (filePath <$> segments st.2)
     /\ (forall s, s ∈ segments st.2 ->
           recoverSegment fs (filePath s) = Some (Ok (index s)))
     /\ out st.2 = last (filePath <$> segments st.2)
     /\ (forall p, p ∈ filePath <$> segments st.2 ->
           segmentNumber p <= lastSegmentIndex st.2)
     /\ (lastSegmentIndex st.2 = -1
         \/ exists p, p ∈ filePath <$> segments st.2
                      /\ lastSegmentIndex st.2 = segmentNumber p)
     /\ segmentSize st.2 = size /\ closed st.2 = false)
  /\ (segmentFiles fs = [] ->
      NewDb fs size
      = Some (Ok (createSegment (fs, mkDb None size (-1) [] false)))).
Proof.
  split.
  - intros st HN Hne. unfold NewDb in HN. rewrite recoverAll_eq in HN.
    set (sorted := sortSlice (fun a b => segmentNumber a <? segmentNumber b)
                             (segmentFiles fs)) in *.
    assert (Hperm : sorted ≡ₚ segmentFiles fs)
      by apply sortSlice_Permutation.
    destruct (fold_left (recoverFile fs) sorted _) as [[db| |]|] eqn:HF;
      try discriminate.
    apply fold_recoverFile_inv in HF as [-> HF].
    cbn [out segmentSize lastSegmentIndex segments closed app] in HN.
    assert (Hs : sorted <> []).
    { intros E. rewrite E in Hperm. now apply Permutation_nil in Hperm. }
    destruct (rev (_ <$> sorted)) as [|lastSegment older] eqn:Hrev.
    { apply (f_equal (@length _)) in Hrev.
      rewrite length_rev, length_fmap in Hrev.
      destruct sorted; [congruence|discriminate]. }
    injection HN as <-.
    cbn [fst snd out segmentSize lastSegmentIndex segments closed].
    rewrite fmap_filePath_recovered.
    destruct (fold_maxNumber_bounds sorted (-1)) as (_ & Hub & Hmax).
    split; [reflexivity|]. split.
    { rewrite Hperm. apply NoDup_segmentFiles. }
    split. { intros p. rewrite Hperm. apply elem_of_segmentFiles. }
    split. { apply (sortSlice_ascending segmentNumber). }
    split.
    { intros s Hin. apply list_elem_of_fmap in Hin as (name & -> & Hin).
      cbn [filePath index]. rewrite Forall_forall in HF. now apply HF. }
    split.
    { apply (f_equal (@rev _)) in Hrev. rewrite rev_involutive in Hrev.
      cbn [rev] in Hrev.
      apply (f_equal (fmap filePath)) in Hrev.
      rewrite fmap_filePath_recovered in Hrev.
      rewrite Hrev, fmap_app. cbn. now rewrite last_snoc. }
    split. { rewrite Forall_forall in Hub. exact Hub. }
    split; [|split; reflexivity].
    destruct Hmax as [Hm|Hm]; [now left|now right].
  - intros Hnil. unfold NewDb. rewrite recoverAll_eq, Hnil. reflexivity.
Qed.

Lemma NewDb_roster_witness :
  StronglySorted byNumber
    (filePath <$> segments (PutAll (freshDb 100)
                              [("k", "old"); ("k", "new")]%string).1.2)
  /\ out (PutAll (freshDb 100) [("k", "old"); ("k", "new")]%string).1.2
     = last (filePath <$> segments (PutAll (freshDb 100)
                                      [("k", "old"); ("k", "new")]%string).1.2).
Proof.
  destruct (proj1 (NewDb_roster
                     (PutAll (freshDb 100)
                        [("k", "old"); ("k", "new")]%string).1.1 100)
              (PutAll (freshDb 100) [("k", "old"); ("k", "new")]%string).1)
    as (_ & _ & _ & Hs & _ & Ho & _).
  - vm_compute. reflexivity.
  - vm_compute. discriminate.
  - split; [exact Hs|exact Ho].
Defined.

(** ** Reopening a store that took Puts only *)

Lemma journaled_freshDb budget : journaled (freshDb budget).
Proof.
  intros s Hin. cbn in Hin. apply list_elem_of_singleton in Hin as ->.
  exists []. split; [constructor|]. split; [|reflexivity].
  cbn. apply lookup_insert_eq.
Qed.

Lemma journaled_append budget kvs st n older s content k v :
  layout budget kvs st n ->
  segments st.2 = older ++ [s] ->
  st.1 !! filePath s = Some content ->
  journaled st -> fits k v ->
  journaled (afterAppend st older s content k v).
Proof.
  intros L Hs Hf HJ Hfit t Hin.
  unfold afterAppend in *. cbn [fst snd segments] in *.
  assert (Hnd : NoDup (filePath <$> older ++ [s])).
  { rewrite <- Hs, (l_paths _ _ _ _ L). apply NoDup_segmentNames. }
  rewrite fmap_app in Hnd. apply NoDup_app in Hnd as (_ & Hnd & _).
  apply elem_of_app in Hin as [Hin|Hin].
  - destruct (HJ t) as (recs & Hr & Hc & Hi).
    { rewrite Hs. apply elem_of_app. now left. }
    exists recs. split; [exact Hr|]. split; [|exact Hi].
    rewrite lookup_insert_ne; [exact Hc|].
    intros E. apply (Hnd (filePath t)).
    + apply list_elem_of_fmap. now exists t.
    + rewrite <- E. cbn. left.
  - apply list_elem_of_singleton in Hin as ->. cbn [filePath index].
    destruct (HJ s) as (recs & Hr & Hc & Hi).
    { rewrite Hs. apply elem_of_app. right. left. }
    rewrite Hf in Hc. injection Hc as ->.
    exists (recs ++ [(k, v)]). split; [|split].
    + apply Forall_app. split; [exact Hr|]. now repeat constructor.
    + rewrite lookup_insert_eq, framesOf_app, Encode_frame.
      cbn [framesOf key value]. now rewrite app_nil_r.
    + rewrite indexOf_snoc, Hi. f_equal.
Qed.

Lemma journaled_rollover budget kvs st n k v :
  layout budget kvs st n -> journaled st -> fits k v ->
  journaled (afterRollover st k v).
Proof.
  intros L HJ Hfit t Hin.
  unfold afterRollover in *. cbn [fst snd segments] in *.
  assert (Hnew : st.1 !! generateNewFileName (lastSegmentIndex st.2 + 1)
                 = None).
  { apply not_elem_of_dom. rewrite (l_dom _ _ _ _ L), (l_last _ _ _ _ L).
    rewrite segmentName_succ, elem_of_list_to_set, list_elem_of_fmap.
    intros (i & Hi & Hin'). apply segmentName_inj in Hi as <-.
    apply elem_of_seq in Hin'. lia. }
  rewrite Hnew in *. cbn [default app length] in *.
  apply elem_of_app in Hin as [Hin|Hin].
  - destruct (HJ t Hin) as (recs & Hr & Hc & Hi).
    exists recs. split; [exact Hr|]. split; [|exact Hi].
    rewrite lookup_insert_ne; [exact Hc|]. congruence.
  - apply list_elem_of_singleton in Hin as ->. cbn [filePath index].
    exists [(k, v)]. split; [now repeat constructor|]. split.
    + rewrite lookup_insert_eq, Encode_frame.
      cbn [framesOf key value]. now rewrite app_nil_r.
    + reflexivity.
Qed.

Lemma journaled_PutAll budget kvs : forall kvs0 st n,
  layout budget kvs0 st n -> journaled st ->
  Forall (fun kv => fits kv.1 kv.2) kvs ->
  exists st' n',
    PutAll st kvs = (st', Ok ())
    /\ layout budget (kvs0 ++ kvs) st' n'
    /\ journaled st'.
Proof.
  induction kvs as [|[k v] kvs IH]; intros kvs0 st n L HJ Hfit.
  - exists st, n. rewrite app_nil_r. auto.
  - apply Forall_cons in Hfit as [Hkv Hfit]. cbn [fst snd] in Hkv.
    destruct (layout_Put _ _ _ _ k v L) as (st1 & n1 & HP & L1 & _).
    assert (HJ1 : journaled st1).
    { destruct (layout_Put_state _ _ _ _ k v L)
        as [HR|(older & s & content & Hs & Hf & HA)].
      - rewrite HP in HR. injection HR as ->.
        eapply journaled_rollover; eauto.
      - rewrite HP in HA. injection HA as ->.
        eapply journaled_append; eauto. }
    destruct (IH _ _ _ L1 HJ1 Hfit) as (st' & n' & HA & L' & HJ').
    exists st', n'. cbn [PutAll]. rewrite HP.
    rewrite <- app_assoc in L'. cbn [app] in L'. auto.
Qed.

Lemma journaled_recoverSegment st s :
  journaled st -> s ∈ segments st.2 ->
  recoverSegment st.1 (filePath s) = Some (Ok (index s)).
Proof.
  intros HJ Hin. destruct (HJ s Hin) as (recs & Hr & Hc & Hi).
  unfold recoverSegment. rewrite Hc, Hi.
  pose proof (length_framesOf recs) as Hl.
  rewrite <- (app_nil_r (framesOf recs)) at 2.
  rewrite recoverLoop_frames by (try exact Hr; lia).
  destruct (S (length (framesOf recs)) - length recs)%nat
    as [|fuel] eqn:Hfuel; [lia|].
  reflexivity.
Qed.

Lemma segmentNumber_segmentName i :
  Z.of_nat i < 2 ^ 63 -> segmentNumber (segmentName i) = Z.of_nat i.
Proof.
  intros Hi. unfold segmentNumber, segmentName, generateNewFileName.
  rewrite TrimPrefix_outFileName. apply Atoi_pretty. lia.
Qed.

Lemma sorted_segmentNames n : forall m,
  Z.of_nat m <= 2 ^ 63 -> (m <= n)%nat ->
  StronglySorted byNumber (segmentName <$> seq 0 m)
  /\ fold_left maxNumber (segmentName <$> seq 0 m) (-1) = Z.of_nat m - 1.
Proof.
  induction m as [|m IH]; intros Hm Hle.
  - split; [constructor|reflexivity].
  - destruct IH as [IH1 IH2]; [lia..|].
    rewrite seq_S, fmap_app. cbn [Nat.add fmap list_fmap]. split.
    + apply StronglySorted_app_2; [|exact IH1|repeat constructor].
      intros x1 x2 H1 H2. apply list_elem_of_singleton in H2 as ->.
      apply list_elem_of_fmap in H1 as (i & -> & Hi).
      apply elem_of_seq in Hi. unfold byNumber.
      rewrite !segmentNumber_segmentName by lia. lia.
    + rewrite fold_left_app, IH2. cbn [fold_left]. unfold maxNumber.
      rewrite segmentNumber_segmentName by lia.
      rewrite decide_True by lia. lia.
Qed.

Lemma recovered_segments st :
  journaled st ->
  (fun name => mkSegment (recoveredIndex st.1 name) name)
    <$> (filePath <$> segments st.2)
  = segments st.2.
Proof.
  intros HJ. rewrite <- list_fmap_compose.
  rewrite <- (list_fmap_id (segments st.2)) at 2.
  apply list_fmap_ext. intros i s Hs. cbn.
  apply list_elem_of_lookup_2 in Hs.
  unfold recoveredIndex. rewrite (journaled_recoverSegment st s HJ Hs).
  now destruct s.
Qed.

Lemma NewDb_layout budget kvs st n :
  layout budget kvs st n -> journaled st -> Z.of_nat n < 2 ^ 63 ->
  NewDb st.1 budget = Some (Ok st).
Proof.
  intros L HJ Hn.
  pose proof (l_paths _ _ _ _ L) as Hpaths.
  destruct (sorted_segmentNames (S n) (S n)) as [Hsorted Hmax]; [lia..|].
  assert (Hfiles : segmentFiles st.1 ≡ₚ segmentName <$> seq 0 (S n)).
  { apply NoDup_Permutation;
      [apply NoDup_segmentFiles|apply NoDup_segmentNames|].
    intros p. rewrite elem_of_segmentFiles, <- elem_of_dom.
    rewrite (l_dom _ _ _ _ L), elem_of_list_to_set. split; [tauto|].
    intros Hp. split; [exact Hp|].
    apply list_elem_of_fmap in Hp as (i & -> & _).
    apply prefix_generateNewFileName. }
  assert (Hs : sortSlice (fun a b => segmentNumber a <? segmentNumber b)
                         (segmentFiles st.1)
               = segmentName <$> seq 0 (S n)).
  { apply (StronglySorted_unique_strong byNumber).
    - intros x1 x2 H1 H2 H12 H21.
      rewrite sortSlice_Permutation, Hfiles in H1.
      apply list_elem_of_fmap in H1 as (i & -> & Hi).
      apply list_elem_of_fmap in H2 as (j & -> & Hj).
      apply elem_of_seq in Hi, Hj. unfold byNumber in *.
      rewrite !segmentNumber_segmentName in H12, H21 by lia.
      f_equal. lia.
    - apply (sortSlice_ascending segmentNumber).
    - exact Hsorted.
    - now rewrite sortSlice_Permutation. }
  unfold NewDb. rewrite recoverAll_eq, Hs, <- Hpaths.
  rewrite fold_recoverFile_Ok.
  - cbn [out segmentSize lastSegmentIndex segments closed app].
    rewrite (recovered_segments st HJ), Hpaths, Hmax.
    destruct (layout_active _ _ _ _ L) as (older & s & content & Hseg & Hp & _).
    rewrite Hseg, rev_unit. rewrite Hp, <- (l_out _ _ _ _ L).
    rewrite <- Hseg.
    replace (Z.of_nat (S n) - 1) with (lastSegmentIndex st.2)
      by (rewrite (l_last _ _ _ _ L); lia).
    rewrite <- (l_size _ _ _ _ L), <- (l_closed _ _ _ _ L).
    destruct st as [fs db]. now destruct db.
  - apply Forall_forall. intros p Hp.
    apply list_elem_of_fmap in Hp as (s & -> & Hs').
    unfold recoveredIndex. now rewrite (journaled_recoverSegment st s HJ Hs').
Qed.

(** X9. A store opened on an empty directory that took any sequence of
    [Put]s whose records fit the frame is recovered as it was: after
    [Close], [NewDb] on the same directory with the same segment size
    returns the same directory, roster, indexes, append file and
    [lastSegmentIndex], so every [Get] answers as before. The index of the
    last segment is taken to be in the range of [int]. *)
Theorem reopen_after_Puts (budget : Z) (kvs : list (string * string)) :
  Forall (fun kv => fits kv.1 kv.2) kvs ->
  lastSegmentIndex (PutAll (freshDb budget) kvs).1.2 < 2 ^ 63 ->
  (PutAll (freshDb budget) kvs).2 = Ok ()
  /\ NewDb (Close (PutAll (freshDb budget) kvs).1).1 budget
     = Some (Ok (PutAll (freshDb budget) kvs).1).
Proof.
  intros Hfit Hlast.
  destruct (journaled_PutAll budget kvs [] _ _ (layout_freshDb budget)
              (journaled_freshDb budget) Hfit) as (st & n & HA & L & HJ).
  rewrite HA in *. cbn [fst snd Close] in *. split; [reflexivity|].
  apply (NewDb_layout budget ([] ++ kvs) st n L HJ).
  rewrite (l_last _ _ _ _ L) in Hlast. exact Hlast.
Qed.

Lemma reopen_after_Puts_witness :
  (PutAll (freshDb 100) [("a", "1"); ("b", "2"); ("a", "3")]%string).2
  = Ok ()
  /\ NewDb (Close (PutAll (freshDb 100)
                     [("a", "1"); ("b", "2"); ("a", "3")]%string).1).1 100
     = Some (Ok (PutAll (freshDb 100)
                   [("a", "1"); ("b", "2"); ("a", "3")]%string).1).
Proof.
  apply (reopen_after_Puts 100 [("a", "1"); ("b", "2"); ("a", "3")]%string).
  - repeat constructor; vm_compute; reflexivity.
  - vm_compute. reflexivity.
Defined.

(** ** The balancer: health checks and turns *)

Module BalancerRounds.
Import Balancer.

Lemma fold_chooseStep_elem_of b l : forall acc,
  (fold_left (chooseStep b) l acc).1 = acc.1
  \/ (fold_left (chooseStep b) l acc).1 ∈ l.
Proof.
  induction l as [|x l IH]; intros acc; cbn [fold_left]; [now left|].
  destruct (IH (chooseStep b acc x)) as [H|H].
  - rewrite H. unfold chooseStep. destruct (decide _); cbn [fst].
    + right. left.
    + now left.
  - right. now right.
Qed.

Lemma chooseServer_elem_of b :
  healthyPool b <> [] -> chooseServer b ∈ healthyPool b.
Proof.
  unfold chooseServer. destruct (healthyPool b) as [|x l]; [congruence|].
  intros _. cbn [fold_left].
  replace (chooseStep b (""%string, -1) x) with (x, trafficOf b x).
  - destruct (fold_chooseStep_elem_of b l (x, trafficOf b x)) as [H|H].
    + rewrite H. left.
    + now right.
  - unfold chooseStep. cbn [snd]. rewrite decide_True; [reflexivity|now left].
Qed.

Lemma frontend_Forward b s :
  frontend b = Forward s ->
  s = chooseServer b /\ s <> ""%string /\ s ∈ healthyPool b.
Proof.
  unfold frontend. destruct (decide (chooseServer b = ""%string)) as [|Hne];
    [discriminate|].
  intros [= <-]. split; [reflexivity|]. split; [exact Hne|].
  apply chooseServer_elem_of. intros E. apply Hne.
  unfold chooseServer. now rewrite E.
Qed.

(** X10. Whatever the counters hold, [chooseServer] returns a backend of
    the healthy pool when the pool is not empty; the front end forwards
    only to a backend of the healthy pool, and answers 503 exactly when
    [chooseServer] returns the empty string. *)
Theorem chooseServer_in_healthyPool (b : Balancer) :
  (healthyPool b <> [] -> chooseServer b ∈ healthyPool b)
  /\ (forall s, frontend b = Forward s -> s ∈ healthyPool b)
  /\ (frontend b = ServiceUnavailable <-> chooseServer b = ""%string).
Proof.
  split; [apply chooseServer_elem_of|]. split.
  - intros s H. now apply frontend_Forward in H.
  - unfold frontend. destruct (decide _); split; congruence.
Qed.

Lemma chooseServer_in_healthyPool_witness :
  chooseServer sentinelBalancer ∈ healthyPool sentinelBalancer.
Proof.
  apply (proj1 (chooseServer_in_healthyPool sentinelBalancer)).
  vm_compute. discriminate.
Defined.

(** X11. After a round of health checks the healthy pool is the pool
    without the backends that failed the check, in the same order: the
    front end forwards only to a backend of the pool that passed the check,
    and, when no backend has the empty name, it answers 503 exactly when
    every backend failed. *)
Theorem healthCheck_selection (check : string -> bool) (b : Balancer) :
  healthyPool (healthCheck check b) `sublist_of` pool b
  /\ (forall s, s ∈ healthyPool (healthCheck check b)
                <-> s ∈ pool b /\ check s = true)
  /\ (forall s, frontend (healthCheck check b) = Forward s ->
        s ∈ pool b /\ check s = true)
  /\ (""%string ∉ pool b ->
      (frontend (healthCheck check b) = ServiceUnavailable
       <-> forall s, s ∈ pool b -> check s = false)).
Proof.
  assert (Hin : forall s, s ∈ healthyPool (healthCheck check b)
                          <-> s ∈ pool b /\ check s = true).
  { intros s. cbn [healthCheck healthyPool].
    rewrite list_elem_of_filter. tauto. }
  split; [apply sublist_filter|]. split; [exact Hin|]. split.
  - intros s H. apply frontend_Forward in H as (_ & _ & H).
    now apply Hin.
  - intros Hname. split.
    + intros H s Hs. destruct (check s) eqn:Hc; [|reflexivity].
      exfalso. unfold frontend in H.
      destruct (decide (chooseServer (healthCheck check b) = ""%string))
        as [E|]; [|discriminate].
      assert (Hne : healthyPool (healthCheck check b) <> []).
      { intros E'. assert (Hs' : s ∈ healthyPool (healthCheck check b))
          by now apply Hin.
        rewrite E' in Hs'. now apply not_elem_of_nil in Hs'. }
      apply chooseServer_elem_of in Hne. rewrite E in Hne.
      apply Hin in Hne as [Hne _]. contradiction.
    + intros H. unfold frontend. rewrite decide_True; [reflexivity|].
      unfold chooseServer.
      destruct (healthyPool (healthCheck check b)) as [|y l'] eqn:E;
        [reflexivity|].
      exfalso. assert (Hy : y ∈ y :: l') by left.
      apply Hin in Hy as [Hy Hc]. rewrite (H y Hy) in Hc. discriminate.
Qed.

Lemma healthCheck_selection_witness :
  "server1"%string ∈ pool testBalancer
  /\ negb (String.eqb "server1" "server2") = true.
Proof.
  apply (proj1 (proj2 (proj2 (healthCheck_selection
                                (fun s => negb (String.eqb s "server2"))
                                testBalancer)))).
  vm_compute. reflexivity.
Defined.

(** *** Turns *)

Lemma turns_traffic b l n q r i s :
  turns b l n q r -> l !! i = Some s -> 0 < n ->
  0 <= trafficOf b s
  /\ ((i < r)%nat -> trafficOf b s = (Z.of_nat q + 1) * n)
  /\ (~ (i < r)%nat -> trafficOf b s = Z.of_nat q * n).
Proof.
  intros Ht Hi Hn. rewrite (Ht i s Hi).
  destruct (decide (i < r)%nat); split; try nia; split; intros; try lia.
Qed.

Lemma turns_choose b l n q r :
  healthyPool b = l -> 0 < n -> (r < length l)%nat ->
  turns b l n q r ->
  l !! r = Some (chooseServer b).
Proof.
  intros Hh Hn Hr Ht.
  destruct (lookup_lt_is_Some_2 l r Hr) as [sr Hsr].
  unfold chooseServer. rewrite Hh.
  destruct l as [|x l']; [cbn in Hr; lia|].
  destruct (BalancerFacts.fold_chooseStep_firstLeast b l' x)
    as (Hacc & i & Hi & Hmin & Hstrict).
  { intros s Hs. apply list_elem_of_lookup in Hs as [j Hj].
    destruct (turns_traffic _ _ _ _ _ _ _ Ht Hj Hn) as [H0 _]. lia. }
  set (acc := fold_left (chooseStep b) (x :: l') (""%string, -1)) in *.
  destruct (turns_traffic _ _ _ _ _ _ _ Ht Hsr Hn) as (_ & _ & Hsr').
  destruct (turns_traffic _ _ _ _ _ _ _ Ht Hi Hn) as (_ & Hlt & Hge).
  assert (Hle : acc.2 <= trafficOf b sr).
  { apply Hmin. apply list_elem_of_lookup. eauto. }
  assert (i = r) as ->.
  { destruct (decide (i < r)%nat) as [Hir|Hir].
    - rewrite Hacc, (Hlt Hir), Hsr' in Hle by lia. nia.
    - destruct (decide (r < i)%nat) as [Hri|Hri]; [|lia].
      pose proof (Hstrict r sr Hri Hsr) as Hs.
      rewrite Hacc, (Hge Hir), Hsr' in Hs by lia. lia. }
  exact Hi.
Qed.

Lemma serve_turn b l n q r x :
  NoDup l -> ""%string ∉ l -> 0 < n -> (r < length l)%nat ->
  healthyPool b = l -> turns b l n q r -> copies n x ->
  healthyPool (serve b x).1 = l /\ turns (serve b x).1 l n q (S r).
Proof.
  intros Hnd Hname Hn Hr Hh Ht [status ->].
  pose proof (turns_choose b l n q r Hh Hn Hr Ht) as Hsr.
  assert (Hne : chooseServer b <> ""%string).
  { intros E. rewrite E in Hsr. apply Hname.
    apply list_elem_of_lookup. eauto. }
  unfold serve, frontend. rewrite decide_False by exact Hne.
  cbn [forward fst healthyPool]. split; [exact Hh|].
  intros i s Hi. unfold trafficOf at 1. cbn [serverTraffic].
  destruct (decide (i = r)) as [->|Hir].
  - assert (s = chooseServer b) as -> by congruence.
    rewrite lookup_insert_eq. cbn [default].
    destruct (turns_traffic _ _ _ _ _ _ _ Ht Hi Hn) as (_ & _ & Hge).
    rewrite Hge by lia. rewrite decide_True by lia. unfold id. ring.
  - rewrite lookup_insert_ne.
    + fold (trafficOf b s). rewrite (Ht i s Hi).
      destruct (decide (i < r)%nat); [rewrite decide_True by lia
                                     |rewrite decide_False by lia];
        reflexivity.
    + intros E. apply Hir. symmetry.
      eapply NoDup_lookup; [exact Hnd|exact Hsr|]. now rewrite E.
Qed.

Lemma turns_wrap b l n q :
  turns b l n q (length l) -> turns b l n (S q) 0.
Proof.
  intros Ht i s Hi. rewrite (Ht i s Hi).
  apply lookup_lt_Some in Hi.
  rewrite decide_True by lia. rewrite decide_False by lia.
  f_equal. lia.
Qed.

Lemma serveAll_snoc b xs x :
  serveAll b (xs ++ [x]) = (serve (serveAll b xs) x).1.
Proof. unfold serveAll. now rewrite fold_left_app. Qed.

Lemma serveAll_turns l n xs : forall q r,
  NoDup l -> ""%string ∉ l -> 0 < n ->
  Forall (copies n) xs -> (r < length l)%nat ->
  length xs = (q * length l + r)%nat ->
  healthyPool (serveAll (NewBalancer l) xs) = l
  /\ turns (serveAll (NewBalancer l) xs) l n q r.
Proof.
  induction xs as [|x xs IH] using rev_ind;
    intros q r Hnd Hname Hn Hxs Hr Hlen.
  - cbn [length] in Hlen. assert (r = 0%nat) as -> by lia.
    assert (q = 0%nat) as -> by nia.
    split; [reflexivity|]. intros i s _.
    rewrite decide_False by lia. reflexivity.
  - apply Forall_app in Hxs as [Hxs Hx].
    apply (proj1 (Forall_singleton _ _)) in Hx.
    rewrite length_app in Hlen. cbn [length] in Hlen.
    rewrite serveAll_snoc. destruct r as [|r].
    + destruct q as [|q]; [lia|].
      destruct (IH q (length l - 1)%nat) as [Hh Ht];
        try assumption; [lia|nia|].
      destruct (serve_turn _ l n q (length l - 1) x Hnd Hname Hn
                  ltac:(lia) Hh Ht Hx) as [Hh' Ht'].
      split; [exact Hh'|]. apply turns_wrap.
      now replace (S (length l - 1)) with (length l) in Ht' by lia.
    + destruct (IH q r) as [Hh Ht]; try assumption; [lia..|].
      apply (serve_turn _ l n q r x Hnd Hname Hn ltac:(lia) Hh Ht Hx).
Qed.

(** X12. A balancer made by [NewBalancer] on a pool of distinct, non-empty
    names serves in turns when every request is forwarded without failure
    and copies the same positive number of bytes: after [q] times the size
    of the pool plus [r] such requests, the next request goes to the
    backend at position [r] of the pool. *)
Theorem least_traffic_takes_turns (l : list string) (n : Z)
  (xs : list exchange) (q r : nat) :
  NoDup l -> ""%string ∉ l -> 0 < n ->
  Forall (copies n) xs -> (r < length l)%nat ->
  length xs = (q * length l + r)%nat ->
  l !! r = Some (chooseServer (serveAll (NewBalancer l) xs))
  /\ frontend (serveAll (NewBalancer l) xs)
     = Forward (chooseServer (serveAll (NewBalancer l) xs)).
Proof.
  intros Hnd Hname Hn Hxs Hr Hlen.
  destruct (serveAll_turns l n xs q r Hnd Hname Hn Hxs Hr Hlen) as [Hh Ht].
  pose proof (turns_choose _ l n q r Hh Hn Hr Ht) as Hsr.
  split; [exact Hsr|].
  unfold frontend. rewrite decide_False; [reflexivity|].
  intros E. rewrite E in Hsr. apply Hname.
  apply list_elem_of_lookup. eauto.
Qed.

Lemma least_traffic_takes_turns_witness :
  ["server1"; "server2"; "server3"]%string !! 1%nat
  = Some (chooseServer
            (serveAll (NewBalancer ["server1"; "server2"; "server3"]%string)
               [Copied 200 7 false; Copied 200 7 false; Copied 404 7 false;
                Copied 200 7 false]))
  /\ frontend
       (serveAll (NewBalancer ["server1"; "server2"; "server3"]%string)
          [Copied 200 7 false; Copied 200 7 false; Copied 404 7 false;
           Copied 200 7 false])
     = Forward
         (chooseServer
            (serveAll (NewBalancer ["server1"; "server2"; "server3"]%string)
               [Copied 200 7 false; Copied 200 7 false; Copied 404 7 false;
                Copied 200 7 false])).
Proof.
  apply (least_traffic_takes_turns
           ["server1"; "server2"; "server3"]%string 7
           [Copied 200 7 false; Copied 200 7 false; Copied 404 7 false;
            Copied 200 7 false] 1 1).
  - refine (bool_decide_unpack _ _). vm_compute. exact I.
  - refine (bool_decide_unpack _ _). vm_compute. exact I.
  - lia.
  - repeat constructor; eexists; reflexivity.
  - cbn. lia.
  - reflexivity.
Defined.

End BalancerRounds.

(** ** Compaction of records that Get does not accept *)

Lemma fold_compactStep_Panic p l :
  fold_left (compactStep p) l Panic = Panic.
Proof. induction l as [|x l IH]; [reflexivity|exact IH]. Qed.

Lemma compactStep_cases p fs idx offset k kp :
  compactStep p (Ok (fs, idx, offset)) (k, kp)
  = match getFromSegment fs (segment kp) (position kp) with
    | Panic => Panic
    | Err _ => Ok (fs, idx, offset)
    | Ok entry =>
        match fs !! p with
        | None => Ok (fs, idx, offset)
        | Some content =>
            Ok (<[p := content
                       ++ Encode (mkEntry k (value entry) (hash entry))]> fs,
                <[k := offset]> idx,
                offset
                + Z.of_nat (length (Encode (mkEntry k (value entry)
                                                    (hash entry)))))
        end
    end.
Proof. reflexivity. Qed.

Section CompactKey.

Variable p : string.

(** The loop leaves alone the keys it does not meet, and only adds bytes to
    the new file. *)
Lemma compactLoop_other l k : forall fs idx offset fs' idx' offset',
  fold_left (compactStep p) l (Ok (fs, idx, offset))
  = Ok (fs', idx', offset') ->
  k ∉ l.*1 -> idx' !! k = idx !! k.
Proof.
  induction l as [|[k1 kp1] l IH]; intros fs idx offset fs' idx' offset' H Hk.
  - now injection H as <- <- <-.
  - cbn [fmap list_fmap fst] in Hk. apply not_elem_of_cons in Hk as [Hne Hk].
    cbn [fold_left] in H. rewrite compactStep_cases in H.
    destruct (getFromSegment fs (segment kp1) (position kp1)) as [e1|e1|].
    + destruct (fs !! p) as [content|]; [|now apply (IH _ _ _ _ _ _ H)].
      rewrite (IH _ _ _ _ _ _ H Hk). now apply lookup_insert_ne.
    + now apply (IH _ _ _ _ _ _ H).
    + now rewrite fold_compactStep_Panic in H.
Qed.

Lemma compactLoop_file l : forall fs idx offset c fs' idx' offset',
  fs !! p = Some c ->
  fold_left (compactStep p) l (Ok (fs, idx, offset))
  = Ok (fs', idx', offset') ->
  exists suffix, fs' !! p = Some (c ++ suffix).
Proof.
  induction l as [|[k1 kp1] l IH];
    intros fs idx offset c fs' idx' offset' Hc H.
  - injection H as <- <- <-. exists []. now rewrite app_nil_r.
  - cbn [fold_left] in H. rewrite compactStep_cases, Hc in H.
    destruct (getFromSegment fs (segment kp1) (position kp1)) as [e1|e1|].
    + destruct (IH _ _ _ _ _ _ _ (lookup_insert_eq _ _ _) H) as [suffix Hs].
      rewrite <- app_assoc in Hs. eauto.
    + now apply (IH _ _ _ _ _ _ _ Hc H).
    + now rewrite fold_compactStep_Panic in H.
Qed.

(** What the loop does with the key [k] it meets at [kp]. *)
Lemma compactLoop_key l k kp : forall fs idx c fs' idx' offset',
  NoDup l.*1 -> (k, kp) ∈ l -> filePath (segment kp) <> p ->
  fs !! p = Some c ->
  fold_left (compactStep p) l (Ok (fs, idx, Z.of_nat (length c)))
  = Ok (fs', idx', offset') ->
  match getFromSegment fs (segment kp) (position kp) with
  | Ok entry =>
      exists pre post,
        fs' !! p = Some (pre ++ Encode (mkEntry k (value entry) (hash entry))
                             ++ post)
        /\ idx' !! k = Some (Z.of_nat (length pre))
  | Err _ => idx' !! k = idx !! k
  | Panic => False
  end.
Proof.
  induction l as [|[k1 kp1] l IH];
    intros fs idx c fs' idx' offset' Hnd Hin Hne Hc H.
  - now apply not_elem_of_nil in Hin.
  - cbn [fmap list_fmap fst] in Hnd. apply NoDup_cons in Hnd as [Hk1 Hnd].
    cbn [fold_left] in H. rewrite compactStep_cases, Hc in H.
    apply elem_of_cons in Hin as [[= <- <-]|Hin].
    + destruct (getFromSegment fs (segment kp) (position kp)) as [e|e|].
      * destruct (compactLoop_file _ _ _ _ _ _ _ _ (lookup_insert_eq _ _ _) H)
          as [suffix Hs].
        exists c, suffix. rewrite <- app_assoc in Hs. split; [exact Hs|].
        rewrite (compactLoop_other _ _ _ _ _ _ _ _ H Hk1).
        apply lookup_insert_eq.
      * apply (compactLoop_other _ _ _ _ _ _ _ _ H Hk1).
      * now rewrite fold_compactStep_Panic in H.
    + assert (Hkk : k <> k1).
      { intros ->. apply Hk1. apply list_elem_of_fmap.
        now exists (k1, kp). }
      destruct (getFromSegment fs (segment kp1) (position kp1)) as [e1|e1|].
      * replace (Z.of_nat (length c)
                 + Z.of_nat (length (Encode (mkEntry k1 (value e1)
                                                     (hash e1)))))
          with (Z.of_nat (length (c ++ Encode (mkEntry k1 (value e1)
                                                       (hash e1))))) in H
          by (rewrite length_app; lia).
        specialize (IH _ _ _ _ _ _ Hnd Hin Hne (lookup_insert_eq _ _ _) H).
        rewrite (getFromSegment_same_file fs _ (segment kp) (segment kp))
          in IH by (now rewrite lookup_insert_ne by auto).
        destruct (getFromSegment fs (segment kp) (position kp));
          [exact IH| |exact IH].
        rewrite IH. now apply lookup_insert_ne.
      * apply (IH _ _ _ _ _ _ Hnd Hin Hne Hc H).
      * now rewrite fold_compactStep_Panic in H.
Qed.

End CompactKey.

(** [Compact] that returns, on a roster of sealed segments and an active
    one, when the name of the new segment is free: the key [k], kept at
    [kp], is in the new index at a copy of what was read at [kp], or is not
    in it when the read failed. *)
Lemma CompactWith_key order (st st' : St) sealed active k kp :
  (forall l, order l ≡ₚ l) ->
  segments st.2 = sealed ++ [active] -> sealed <> [] ->
  st.1 !! generateNewFileName (lastSegmentIndex st.2 + 1) = None ->
  (forall s, s ∈ sealed ->
     filePath s <> generateNewFileName (lastSegmentIndex st.2 + 1)) ->
  keysToKeep sealed !! k = Some kp ->
  CompactWith order st = (st', Ok ()) ->
  exists idx',
    segments st'.2
    = [mkSegment idx' (generateNewFileName (lastSegmentIndex st.2 + 1));
       active]
    /\ match getFromSegment st.1 (segment kp) (position kp) with
       | Ok entry =>
           exists pre post,
             st'.1 !! generateNewFileName (lastSegmentIndex st.2 + 1)
             = Some (pre ++ Encode (mkEntry k (value entry) (hash entry))
                         ++ post)
             /\ idx' !! k = Some (Z.of_nat (length pre))
       | Err _ => idx' !! k = None
       | Panic => False
       end.
Proof.
  destruct st as [fs db]. cbn [fst snd].
  intros Hperm Hs Hne Hnew Hsealed Hk HC.
  set (new := generateNewFileName (lastSegmentIndex db + 1)) in *.
  unfold CompactWith in HC. rewrite Hs in HC.
  rewrite decide_False in HC
    by (rewrite length_app; destruct sealed; [congruence | cbn; lia]).
  rewrite rev_unit in HC.
  replace (firstn (length (sealed ++ [active]) - 1) (sealed ++ [active]))
    with sealed in HC
    by (rewrite length_app; cbn [length];
        replace (length sealed + 1 - 1)%nat with (length sealed) by lia;
        now rewrite firstn_app, firstn_all, Nat.sub_diag, firstn_O, app_nil_r).
  fold new in HC. unfold openAppendCreate in HC. rewrite Hnew in HC.
  destruct (fold_left (compactStep new) _ _) as [[[fs2 idx2] off2]| |] eqn:HF;
    try discriminate.
  injection HC as <-. cbn [fst snd segments]. exists idx2.
  split; [reflexivity|].
  assert (Hseg : segment kp ∈ sealed).
  { rewrite keysToKeep_lookup in Hk.
    destruct (getPosFrom (rev sealed) k) as [kp'| |] eqn:Hp;
      cbn in Hk; try discriminate.
    injection Hk as ->. apply getPosFrom_Ok in Hp as [Hp _].
    now apply (proj1 (elem_of_rev _ _)) in Hp. }
  pose proof (compactLoop_key new (order (map_to_list (keysToKeep sealed)))
                k kp (<[new := []]> fs) ∅ [] fs2 idx2 off2) as HK.
  rewrite (getFromSegment_same_file fs _ (segment kp) (segment kp)) in HK
    by (rewrite lookup_insert_ne; [reflexivity|];
        intros E; now apply (Hsealed _ Hseg)).
  specialize (HK ltac:(rewrite (Hperm _); apply NoDup_fst_map_to_list)
                 ltac:(rewrite (Hperm _); now apply elem_of_map_to_list)
                 (Hsealed _ Hseg) (lookup_insert_eq _ _ _) HF).
  destruct (getFromSegment fs (segment kp) (position kp)) as [e|e|];
    [|now rewrite HK, lookup_empty|exact HK].
  destruct HK as (pre & post & Hf & Hi). exists pre, post.
  split; [|exact Hi].
  rewrite lookup_fold_delete. rewrite decide_False; [exact Hf|].
  intros Hin. apply list_elem_of_fmap in Hin as (s & E & Hin).
  now apply (Hsealed s Hin).
Qed.

(** X13. [Compact] gives up on a sealed record it cannot read and still
    returns without error: when the read of the record kept for key [k]
    fails with an error and the active segment has no record of [k], [Get]
    answered that error before the compaction and answers [ErrNotFound]
    after it. *)
Theorem Compact_drops_unreadable order (st st' : St) sealed active k kp e :
  (forall l, order l ≡ₚ l) ->
  segments st.2 = sealed ++ [active] -> sealed <> [] ->
  st.1 !! generateNewFileName (lastSegmentIndex st.2 + 1) = None ->
  (forall s, s ∈ sealed ->
     filePath s <> generateNewFileName (lastSegmentIndex st.2 + 1)) ->
  keysToKeep sealed !! k = Some kp ->
  index active !! k = None ->
  getFromSegment st.1 (segment kp) (position kp) = Err e ->
  CompactWith order st = (st', Ok ()) ->
  Get st k = Err e /\ Get st' k = Err ErrNotFound.
Proof.
  intros Hperm Hs Hne Hnew Hsealed Hk Ha Hg HC.
  destruct (CompactWith_key order st st' sealed active k kp
              Hperm Hs Hne Hnew Hsealed Hk HC) as (idx' & Hs' & HK).
  rewrite Hg in HK. split.
  - destruct st as [fs db]. rewrite (Get_snoc fs db sealed active k Hs), Ha.
    unfold GetIn, Get, getPos. cbn [fst snd segments].
    rewrite keysToKeep_lookup in Hk.
    destruct (getPosFrom (rev sealed) k) as [kp'| |]; cbn in Hk;
      try discriminate.
    injection Hk as ->. cbn [mbind result_bind]. cbn [fst snd] in Hg.
    now rewrite Hg.
  - apply Get_absent. rewrite Hs'. intros s Hin.
    apply elem_of_cons in Hin as [->|Hin]; [exact HK|].
    apply list_elem_of_singleton in Hin as ->. exact Ha.
Qed.

Lemma Compact_drops_unreadable_witness :
  Get missingSealedDb "k" = Err ErrNotExist
  /\ Get (Compact missingSealedDb).1 "k" = Err ErrNotFound.
Proof.
  apply (Compact_drops_unreadable id missingSealedDb
           (Compact missingSealedDb).1
           [mkSegment (<["k"%string := 0]> ∅) "current-data0"]
           (mkSegment (<["j"%string := 0]> ∅) "current-data1") "k"
           (mkKeyPosition (mkSegment (<["k"%string := 0]> ∅) "current-data0")
                          0)
           ErrNotExist).
  - reflexivity.
  - reflexivity.
  - discriminate.
  - vm_compute. reflexivity.
  - intros s Hs. apply list_elem_of_singleton in Hs as ->.
    vm_compute. discriminate.
  - vm_compute. reflexivity.
  - vm_compute. reflexivity.
  - vm_compute. reflexivity.
  - vm_compute. reflexivity.
Defined.

(** X14. [Compact] copies a sealed record without checking its hash and
    [Encode] computes the hash again from the value read: when the record
    kept for key [k] can be read and the active segment has no record of
    [k], [Get] answers the value read after the compaction, also when it
    answered [ErrHashMismatch] before. *)
Theorem Compact_rehashes order (st st' : St) sealed active k kp entry :
  (forall l, order l ≡ₚ l) ->
  segments st.2 = sealed ++ [active] -> sealed <> [] ->
  st.1 !! generateNewFileName (lastSegmentIndex st.2 + 1) = None ->
  (forall s, s ∈ sealed ->
     filePath s <> generateNewFileName (lastSegmentIndex st.2 + 1)) ->
  keysToKeep sealed !! k = Some kp ->
  index active !! k = None ->
  getFromSegment st.1 (segment kp) (position kp) = Ok entry ->
  fits k (value entry) ->
  CompactWith order st = (st', Ok ()) ->
  Get st k = (if decide (calculateHash (value entry) = hash entry)
              then Ok (value entry) else Err ErrHashMismatch)
  /\ Get st' k = Ok (value entry).
Proof.
  intros Hperm Hs Hne Hnew Hsealed Hk Ha Hg Hfit HC.
  destruct (CompactWith_key order st st' sealed active k kp
              Hperm Hs Hne Hnew Hsealed Hk HC) as (idx' & Hs' & HK).
  rewrite Hg in HK. destruct HK as (pre & post & Hf & Hi). split.
  - destruct st as [fs db]. rewrite (Get_snoc fs db sealed active k Hs), Ha.
    unfold GetIn, Get, getPos. cbn [fst snd segments].
    rewrite keysToKeep_lookup in Hk.
    destruct (getPosFrom (rev sealed) k) as [kp'| |]; cbn in Hk;
      try discriminate.
    injection Hk as ->. cbn [mbind result_bind]. cbn [fst snd] in Hg.
    now rewrite Hg.
  - destruct st' as [fs' db']. cbn [fst snd] in *.
    rewrite (Get_snoc fs' db' [mkSegment idx' _] active k Hs'), Ha.
    apply (GetIn_stored fs' _ k
             (mkKeyPosition
                (mkSegment idx'
                   (generateNewFileName (lastSegmentIndex st.2 + 1)))
                (Z.of_nat (length pre)))
             (value entry)).
    + cbn. now rewrite Hi.
    + exists pre, post. cbn [segment filePath position].
      split; [|reflexivity]. rewrite Hf, Encode_frame. reflexivity.
    + exact Hfit.
Qed.

Lemma Compact_rehashes_witness :
  Get tamperedSealedDb "k" = Err ErrHashMismatch
  /\ Get (Compact tamperedSealedDb).1 "k" = Ok "w"%string.
Proof.
  pose proof (Compact_rehashes id tamperedSealedDb
           (Compact tamperedSealedDb).1
           [mkSegment (<["k"%string := 0]> ∅) "current-data0"]
           (mkSegment (<["j"%string := 0]> ∅) "current-data1") "k"
           (mkKeyPosition (mkSegment (<["k"%string := 0]> ∅) "current-data0")
                          0)
           (mkEntry "k" "w" (calculateHash "v"))) as H.
  assert (E : (if decide (calculateHash
                            (value (mkEntry "k" "w" (calculateHash "v")))
                          = hash (mkEntry "k" "w" (calculateHash "v")))
               then Ok (value (mkEntry "k" "w" (calculateHash "v")))
               else Err ErrHashMismatch)
              = Err ErrHashMismatch) by (vm_compute; reflexivity).
  rewrite E in H. apply H.
  - reflexivity.
  - reflexivity.
  - discriminate.
  - vm_compute. reflexivity.
  - intros s Hs. apply list_elem_of_singleton in Hs as ->.
    vm_compute. discriminate.
  - vm_compute. reflexivity.
  - vm_compute. reflexivity.
  - vm_compute. reflexivity.
  - vm_compute. reflexivity.
  - vm_compute. reflexivity.
Defined.

(** ** The buffered reader, readValue and readHash *)

Module BufioFacts.
Import Bufio.

Lemma sourceRead_nonempty n src :
  src <> [] -> sourceRead n src = (firstn n src, skipn n src, None).
Proof. now destruct src. Qed.

Lemma bufSize_fill b : bufSize (fill b) = bufSize b.
Proof.
  unfold fill. now destruct (sourceRead _ _) as [[got src] e].
Qed.

(** The bound on the turns of the loop of [Peek] is never met: the loop
    ends because its condition fails. *)
Lemma peekLoop_done fuel n : forall b,
  (0 < bufSize b)%nat -> (S (length (source b)) < fuel)%nat ->
  ~ ((length (buffered (peekLoop fuel n b)) < n)%nat
     /\ (length (buffered (peekLoop fuel n b)) < bufSize (peekLoop fuel n b))%nat
     /\ err (peekLoop fuel n b) = None).
Proof.
  induction fuel as [|fuel IH]; intros b Hsz Hfuel; [lia|].
  cbn [peekLoop]. destruct (decide _) as [(Hn & Hfull & Herr)|Hno];
    [|exact Hno].
  destruct (source b) as [|x src] eqn:Hsrc.
  - assert (Hf : fill b = mkReader (buffered b ++ []) [] (bufSize b)
                                   (Some EOF)).
    { unfold fill. now rewrite Hsrc. }
    rewrite Hf. destruct fuel as [|fuel]; [cbn [length] in Hfuel; lia|].
    cbn [peekLoop buffered bufSize err].
    rewrite decide_False by (intros (_ & _ & ?); discriminate).
    cbn [err]. intros (_ & _ & ?). discriminate.
  - apply IH; [now rewrite bufSize_fill|].
    unfold fill. rewrite Hsrc.
    rewrite sourceRead_nonempty by discriminate.
    cbn [source]. rewrite length_skipn. cbn [length] in *. lia.
Qed.

(** The loop of [Discard] ends within its bound. *)
Lemma discardLoop_total fuel : forall remain b,
  (0 < bufSize b)%nat ->
  (length (buffered b) + length (source b) < fuel)%nat ->
  is_Some (discardLoop fuel remain b).
Proof.
  induction fuel as [|fuel IH]; intros remain b Hsz Hfuel; [lia|].
  cbn [discardLoop].
  set (b1 := match buffered b with [] => fill b | _ => b end).
  destruct (decide _); [eauto|]. cbn [err].
  destruct (err b1) eqn:He; [eauto|].
  apply IH; cbn [buffered source bufSize length].
  - subst b1. destruct (buffered b); [now rewrite bufSize_fill|exact Hsz].
  - rewrite length_skipn. subst b1.
    destruct (buffered b) as [|x l] eqn:Hb.
    + unfold fill in *. rewrite Hb in *.
      destruct (source b) as [|y src] eqn:Hsrc; [discriminate|].
      rewrite sourceRead_nonempty in * by discriminate.
      cbn [buffered source app length] in *.
      rewrite length_firstn, length_skipn in *. cbn [length] in *.
      destruct (Nat.min_spec (bufSize b - 0) (S (length src)))
        as [[? Hm]|[? Hm]]; rewrite Hm in *;
        match goal with
        | H : context [Nat.min ?a ?c] |- _ =>
            destruct (Nat.min_spec a c) as [[? Hm']|[? Hm']];
            rewrite Hm' in *
        end; try lia; exfalso; apply n; apply Nat.sub_diag.
    + rewrite Hb in *. cbn [length] in *.
      destruct (Nat.min_spec (S (length l)) remain) as [[? Hm']|[? Hm']];
        rewrite Hm' in *; [lia|].
      exfalso. apply n. apply Nat.sub_diag.
Qed.

Lemma Peek_buffered n b :
  0 <= n -> (Z.to_nat n <= length (buffered b))%nat ->
  (Z.to_nat n <= bufSize b)%nat ->
  Peek n b = (firstn (Z.to_nat n) (buffered b), None, b).
Proof.
  intros Hn Hb Hsz. unfold Peek. rewrite decide_False by lia.
  cbn [peekLoop].
  rewrite (decide_False (P := _ /\ _ /\ _)) by (intros (? & _); lia).
  rewrite decide_False by lia. now rewrite decide_False by lia.
Qed.

Lemma Peek_NewReader n input :
  0 < n -> (Z.to_nat n <= defaultBufSize)%nat ->
  (Z.to_nat n <= length input)%nat ->
  Peek n (NewReader input)
  = (firstn (Z.to_nat n) (firstn defaultBufSize input), None,
     mkReader (firstn defaultBufSize input) (skipn defaultBufSize input)
              defaultBufSize None).
Proof.
  intros Hn Hsz Hlen. unfold Peek, NewReader. rewrite decide_False by lia.
  cbn [source peekLoop buffered bufSize err length].
  assert (Hd : (0 < defaultBufSize)%nat) by (unfold defaultBufSize; lia).
  rewrite (decide_True (P := _ /\ _ /\ _))
    by (split; [lia|split; [lia|reflexivity]]).
  assert (Hne : input <> []) by (intros ->; cbn in Hlen; lia).
  unfold fill. cbn [buffered source bufSize err].
  rewrite sourceRead_nonempty by exact Hne.
  rewrite Nat.sub_0_r. cbn [app].
  assert (Hl : (Z.to_nat n <= length (firstn defaultBufSize input))%nat)
    by (rewrite length_firstn; lia).
  cbn [peekLoop buffered bufSize err].
  rewrite (decide_False (P := _ /\ _ /\ _)) by (intros (? & _); lia).
  cbn [buffered bufSize err].
  rewrite !decide_False by lia. reflexivity.
Qed.

Lemma Discard_buffered n b :
  0 < n -> (Z.to_nat n <= length (buffered b))%nat ->
  Discard n b
  = Some (None, mkReader (skipn (Z.to_nat n) (buffered b)) (source b)
                         (bufSize b) (err b)).
Proof.
  intros Hn Hb. unfold Discard. rewrite !decide_False by lia.
  destruct b as [buf src size e]. cbn [buffered source bufSize err] in *.
  cbn [discardLoop].
  destruct buf as [|x l]; [cbn [length] in Hb; lia|].
  cbn [buffered source bufSize err].
  rewrite Nat.min_r by exact Hb. now rewrite decide_True by lia.
Qed.

Lemma Read_chunk n W src size :
  (n = 0%nat \/ W <> []) ->
  exists b',
    Read n (mkReader W src size None) = (firstn n W, None, b')
    /\ buffered b' = skipn n W.
Proof.
  intros H. unfold Read. cbn [buffered err source bufSize].
  destruct n as [|n], W as [|x W]; cbn [firstn skipn];
    try (eexists; split; reflexivity).
  destruct H; congruence.
Qed.

(** [readValue] on a new reader whose first buffer holds the two length
    fields, the key and the bytes [W] that follow the field [val_len]. *)
Lemma readValue_NewReader input ts kl K vl W :
  firstn defaultBufSize input
  = Bytes.le32 ts ++ Bytes.le32 kl ++ K ++ Bytes.le32 vl ++ W ->
  0 <= kl < 2 ^ 32 -> Z.of_nat (length K) = kl -> 0 <= vl < 2 ^ 32 ->
  (vl = 0 \/ W <> []) ->
  exists b',
    readValue (NewReader input)
    = Some (if decide (Z.of_nat (length (firstn (Z.to_nat vl) W)) = vl)
            then ReadOk (string_of_list_byte (firstn (Z.to_nat vl) W))
            else ReadErr (ShortValue
                            (Z.of_nat (length (firstn (Z.to_nat vl) W))) vl),
            b')
    /\ buffered b' = skipn (Z.to_nat vl) W.
Proof.
  intros Hchunk Hkl HK Hvl HW.
  assert (Hlen : (length (firstn defaultBufSize input)
                  = 12 + length K + length W)%nat).
  { rewrite Hchunk, !length_app, !length_le32. lia. }
  assert (Hd : defaultBufSize = 4096%nat) by reflexivity.
  pose proof Hlen as Hlen'. rewrite length_firstn in Hlen'.
  unfold readValue.
  rewrite (Peek_NewReader 8) by (try rewrite Hd; lia).
  rewrite Hchunk.
  replace (firstn (Z.to_nat 8)
             (Bytes.le32 ts ++ Bytes.le32 kl ++ K ++ Bytes.le32 vl ++ W))
    with (Bytes.le32 ts ++ Bytes.le32 kl) by reflexivity.
  rewrite (sliceFrom_app (Bytes.le32 ts) (Bytes.le32 kl) 4) by reflexivity.
  cbn [mbind option_bind].
  rewrite Uint32_le32_exact, (uint32_small kl) by lia.
  rewrite Discard_buffered
    by (cbn [buffered]; rewrite ?length_app, ?length_le32; lia).
  cbn [buffered source bufSize err].
  replace (skipn (Z.to_nat (kl + 8))
             (Bytes.le32 ts ++ Bytes.le32 kl ++ K ++ Bytes.le32 vl ++ W))
    with (Bytes.le32 vl ++ W).
  2:{ rewrite !(app_assoc _ _ (Bytes.le32 vl ++ W)).
      symmetry. apply drop_app_length'.
      rewrite !length_app, !length_le32. lia. }
  rewrite Peek_buffered
    by (cbn [buffered bufSize]; rewrite ?length_app, ?length_le32; lia).
  cbn [buffered].
  replace (firstn (Z.to_nat 4) (Bytes.le32 vl ++ W)) with (Bytes.le32 vl)
    by reflexivity.
  rewrite Uint32_le32_exact, (uint32_small vl) by lia.
  rewrite Discard_buffered
    by (cbn [buffered]; rewrite ?length_app, ?length_le32; lia).
  cbn [buffered source bufSize err].
  replace (skipn (Z.to_nat 4) (Bytes.le32 vl ++ W)) with W by reflexivity.
  destruct (Read_chunk (Z.to_nat vl) W (skipn defaultBufSize input)
              defaultBufSize) as (b' & HR & Hb').
  { destruct HW as [->|HW]; [now left|now right]. }
  rewrite HR. exists b'. split; [|exact Hb'].
  destruct (decide _); reflexivity.
Qed.

Lemma Read_buffered n b :
  (0 < n)%nat -> buffered b <> [] ->
  (Read n b).1 = (firstn n (buffered b), None).
Proof.
  intros Hn Hb. unfold Read.
  destruct n as [|n]; [lia|]. now destruct (buffered b).
Qed.

Lemma bufSize_peekLoop fuel n : forall b,
  bufSize (peekLoop fuel n b) = bufSize b.
Proof.
  induction fuel as [|fuel IH]; intros b; cbn [peekLoop]; [reflexivity|].
  destruct (decide _); [|reflexivity]. now rewrite IH, bufSize_fill.
Qed.

Lemma bufSize_Peek n b : bufSize (Peek n b).2 = bufSize b.
Proof.
  unfold Peek. repeat destruct (decide _); cbn [snd clearErr bufSize];
    try reflexivity; apply bufSize_peekLoop.
Qed.

Lemma bufSize_discardLoop fuel : forall remain b e b',
  discardLoop fuel remain b = Some (e, b') -> bufSize b' = bufSize b.
Proof.
  induction fuel as [|fuel IH]; intros remain b e b' H; [discriminate|].
  cbn [discardLoop] in H.
  set (b1 := match buffered b with [] => fill b | _ => b end) in *.
  assert (H1 : bufSize b1 = bufSize b).
  { subst b1. destruct (buffered b); [apply bufSize_fill|reflexivity]. }
  destruct (decide _).
  - injection H as <- <-. exact H1.
  - cbn [err] in H. destruct (err b1).
    + injection H as <- <-. exact H1.
    + apply IH in H. cbn [bufSize] in H. congruence.
Qed.

Lemma Discard_total n b :
  (0 < bufSize b)%nat ->
  exists e b', Discard n b = Some (e, b') /\ bufSize b' = bufSize b.
Proof.
  intros Hsz. unfold Discard.
  destruct (decide (n < 0)); [eauto|]. destruct (decide (n = 0)); [eauto|].
  destruct (discardLoop_total (S (length (buffered b) + length (source b)))
              (Z.to_nat n) b Hsz ltac:(lia)) as [[e b'] H].
  exists e, b'. split; [exact H|]. eapply bufSize_discardLoop, H.
Qed.

(** [readValue] returns: the loops of the reader end within their
    bounds. *)
Lemma readValue_total b :
  (0 < bufSize b)%nat -> is_Some (readValue b).
Proof.
  intros Hsz. unfold readValue.
  pose proof (bufSize_Peek 8 b) as H1.
  destruct (Peek 8 b) as [[header e] b1]. cbn [snd] in H1.
  destruct e; [eauto|].
  destruct (Bytes.sliceFrom 4 header ≫= Bytes.Uint32) as [keySize|]; [|eauto].
  destruct (Discard_total (keySize + 8) b1 ltac:(lia))
    as (e2 & b2 & -> & H2).
  destruct e2; [eauto|].
  pose proof (bufSize_Peek 4 b2) as H3.
  destruct (Peek 4 b2) as [[header' e3] b3]. cbn [snd] in H3.
  destruct e3; [eauto|].
  destruct (Bytes.Uint32 header') as [valSize|]; [|eauto].
  destruct (Discard_total 4 b3 ltac:(lia)) as (e4 & b4 & -> & H4).
  destruct e4; [eauto|].
  destruct (Read (Z.to_nat valSize) b4) as [[data e5] b5].
  destruct e5; [eauto|]. destruct (decide _); eauto.
Qed.

Lemma frame_parts k v h :
  len k < 2 ^ 32 -> len v < 2 ^ 32 ->
  frame k v h
  = Bytes.le32 (Bytes.uint32 (len k + len v + len h + 12))
      ++ Bytes.le32 (len k)
      ++ list_byte_of_string k
      ++ Bytes.le32 (len v)
      ++ list_byte_of_string v ++ list_byte_of_string h.
Proof.
  intros Hk Hv. unfold frame.
  pose proof (len_nonneg k). pose proof (len_nonneg v).
  now rewrite (uint32_small (len k)), (uint32_small (len v)) by lia.
Qed.

Lemma readValue_readHash_frame (k v h : string) (more : list byte) :
  len k + len v + 52 <= Z.of_nat defaultBufSize ->
  String.length h = 40%nat ->
  exists b,
    readValue (NewReader (frame k v h ++ more)) = Some (ReadOk v, b)
    /\ (readHash b).1 = ReadOk h.
Proof.
  intros Hsz Hh. assert (Hd : defaultBufSize = 4096%nat) by reflexivity.
  rewrite Hd in Hsz.
  pose proof (len_nonneg k) as Hk. pose proof (len_nonneg v) as Hv.
  assert (HH : length (list_byte_of_string h) = 40%nat)
    by now rewrite length_bytes.
  set (M := firstn (defaultBufSize - length (frame k v h)) more).
  destruct (readValue_NewReader
              (frame k v h ++ more)
              (Bytes.uint32 (len k + len v + len h + 12))
              (len k) (list_byte_of_string k) (len v)
              (list_byte_of_string v ++ list_byte_of_string h ++ M))
    as (b & HR & Hb).
  - rewrite firstn_app, firstn_all2.
    + fold M. rewrite frame_parts by lia. now rewrite <- !app_assoc.
    + pose proof (length_frame k v h). unfold len in *. lia.
  - lia.
  - rewrite length_bytes. reflexivity.
  - lia.
  - right. intros E. apply (f_equal (@length _)) in E.
    rewrite !length_app, HH in E. cbn [length] in E. lia.
  - exists b. split.
    + rewrite HR.
      rewrite (take_app_length' (list_byte_of_string v))
        by (rewrite length_bytes; unfold len; lia).
      rewrite length_bytes. rewrite decide_True by (unfold len; lia).
      now rewrite string_of_list_byte_of_string.
    + rewrite (drop_app_length' (list_byte_of_string v)) in Hb
        by (rewrite length_bytes; unfold len; lia).
      assert (Hne : buffered b <> []).
      { rewrite Hb. intros E. apply (f_equal (@length _)) in E.
        rewrite length_app, HH in E. cbn [length] in E. lia. }
      pose proof (Read_buffered 40 b ltac:(lia) Hne) as HR40.
      rewrite Hb in HR40.
      rewrite (take_app_length' (list_byte_of_string h)) in HR40
        by (now rewrite HH).
      unfold readHash.
      destruct (Read 40 b) as [[data e] b2]. cbn [fst] in HR40.
      apply pair_equal_spec in HR40 as [-> ->].
      rewrite decide_True by exact HH. cbn [fst].
      now rewrite string_of_list_byte_of_string.
Qed.

(** X15. On a new reader of default size over the encoding of an entry,
    followed by any bytes, [readValue] returns the value and [readHash]
    then returns the hash, when the whole record lies in the first buffer
    of the reader: [len(k) + len(v) + 52 <= 4096]. *)
Theorem readValue_readHash_Encode (k v h : string) (more : list byte) :
  len k + len v + 52 <= Z.of_nat defaultBufSize ->
  exists b,
    readValue (NewReader (Encode (mkEntry k v h) ++ more))
    = Some (ReadOk v, b)
    /\ (readHash b).1 = ReadOk (calculateHash v).
Proof.
  intros Hsz. rewrite Encode_frame. cbn [key value].
  apply readValue_readHash_frame; [exact Hsz|apply calculateHash_length].
Qed.

Lemma readValue_readHash_Encode_witness :
  exists b,
    readValue (NewReader (Encode (mkEntry "key" "test-value" "") ++ []))
    = Some (ReadOk "test-value", b)
    /\ (readHash b).1 = ReadOk (calculateHash "test-value").
Proof.
  apply (readValue_readHash_Encode "key" "test-value" "" []).
  vm_compute. discriminate.
Defined.

Lemma readValue_past_buffer_frame (k v h : string) (more : list byte) :
  len k + 12 < Z.of_nat defaultBufSize ->
  Z.of_nat defaultBufSize < len k + 12 + len v ->
  len v < 2 ^ 32 ->
  exists b,
    readValue (NewReader (frame k v h ++ more))
    = Some (ReadErr (ShortValue (Z.of_nat defaultBufSize - (len k + 12))
                                (len v)), b).
Proof.
  intros Hstart Hend Hfit.
  assert (Hd : defaultBufSize = 4096%nat) by reflexivity.
  rewrite Hd in Hstart, Hend.
  pose proof (len_nonneg k) as Hk. pose proof (len_nonneg v) as Hv.
  set (W := firstn (defaultBufSize - Z.to_nat (len k + 12))
                   (list_byte_of_string v)).
  assert (HW : Z.of_nat (length W) = Z.of_nat defaultBufSize - (len k + 12)).
  { subst W. rewrite length_firstn, length_bytes. unfold len in *. lia. }
  destruct (readValue_NewReader
              (frame k v h ++ more)
              (Bytes.uint32 (len k + len v + len h + 12))
              (len k) (list_byte_of_string k) (len v) W)
    as (b & HR & Hb).
  - rewrite frame_parts by lia.
    rewrite !(app_assoc _ _ (list_byte_of_string v ++ _)).
    rewrite <- (app_assoc _ _ more), <- (app_assoc _ _ more).
    rewrite firstn_app, firstn_all2
      by (rewrite !length_app, !length_le32, length_bytes;
          unfold len in *; lia).
    rewrite !length_app, !length_le32, length_bytes.
    rewrite firstn_app.
    match goal with
    | |- context [firstn ?n (list_byte_of_string v)] =>
        replace n with (defaultBufSize - Z.to_nat (len k + 12))%nat
          by (unfold len; lia)
    end.
    fold W.
    match goal with
    | |- context [firstn ?n (list_byte_of_string h ++ more)] =>
        replace n with 0%nat by (rewrite length_bytes; unfold len in *; lia)
    end.
    now rewrite firstn_O, app_nil_r, <- !app_assoc.
  - lia.
  - rewrite length_bytes. reflexivity.
  - lia.
  - right. intros E. rewrite E in HW. cbn [length] in HW. lia.
  - exists b. rewrite HR.
    rewrite firstn_all2 by lia.
    rewrite decide_False by lia. now rewrite HW.
Qed.

(** X16. [readValue] makes one [Read] for the value: when the value
    starts in the first buffer of the reader and ends after it, only the
    bytes of the value that are in the buffer are read, and [readValue]
    fails although the record is complete. *)
Theorem readValue_past_buffer (k v h : string) (more : list byte) :
  len k + 12 < Z.of_nat defaultBufSize ->
  Z.of_nat defaultBufSize < len k + 12 + len v ->
  len v < 2 ^ 32 ->
  exists b,
    readValue (NewReader (Encode (mkEntry k v h) ++ more))
    = Some (ReadErr (ShortValue (Z.of_nat defaultBufSize - (len k + 12))
                                (len v)), b).
Proof.
  intros Hstart Hend Hfit. rewrite Encode_frame. cbn [key value].
  now apply readValue_past_buffer_frame.
Qed.

Lemma readValue_past_buffer_witness :
  exists b,
    readValue (NewReader (Encode (mkEntry "key" (replicate 5000 "a") "")
                          ++ []))
    = Some (ReadErr (ShortValue (Z.of_nat defaultBufSize - (len "key" + 12))
                                (len (replicate 5000 "a"))), b).
Proof.
  apply (readValue_past_buffer "key" (replicate 5000 "a") "" []).
  - vm_compute. reflexivity.
  - vm_compute. reflexivity.
  - vm_compute. reflexivity.
Defined.

End BufioFacts.
